(** * Realtime stream client of the crypto-signal dashboard

    A shallow embedding of the WebSocket provider of the web application
    ([WebSocketProvider]: [getWebSocketUrl], [sendCommand], [subscribe],
    [unsubscribe], [clearSignals], [handleMessage], [connect] and the socket
    callbacks it installs), followed by the properties the specification
    states about it. Around the provider, the embedding also covers the API
    client it shares the auth token with ([getAuthToken], [setAuthToken],
    [isAuthenticated], [fetchApi]) and the components that read its state
    (the chart data of [SignalStreamChart] and [ConfidenceChart],
    [getTokenDisplayData] of the tracked-token card), and the page links of
    [DataTablePagination].

    Conventions of the embedding.
    - JavaScript values that arrive over the socket are kept dynamically
      typed ([JSValue]); a number is an IEEE 754 double ([float]).
    - A JavaScript string is a [string] of bytes (its UTF-8 encoding).
      [toUpperCase] is computed on ASCII strings; on the others it is the
      Unicode case mapping of the runtime, a parameter ([CaseMapping]) of
      everything that handles a [tracked_price_update].
    - [Record<string, T>] objects used as dictionaries are [gmap string T].
    - React state, the [useRef] cells and the part of the browser the
      provider talks to (sockets, timers, console, query cache, local storage)
      are fields of one explicit [World]; every callback is a function on
      worlds, and the browser's event loop is the [step] function. *)

From Stdlib Require Import ZArith List String Ascii Bool Lia.
From Stdlib Require Import Floats.PrimFloat.
From stdpp Require Import gmap strings list fin_maps.

Local Open Scope string_scope.
Local Open Scope list_scope.

(** ** JavaScript strings *)

Module JSString.

(** [s.startsWith(p)] *)
Definition startsWith (s p : string) : bool := String.prefix p s.

(** [s.endsWith(p)] *)
Definition endsWith (s p : string) : bool :=
  let n := String.length s in
  let m := String.length p in
  (m <=? n)%nat && String.eqb (substring (n - m) m s) p.

(** [s.slice(k)] for [0 <= k] *)
Definition sliceFrom (k : nat) (s : string) : string :=
  substring k (String.length s - k) s.

(** [s.slice(0, -k)] *)
Definition dropRight (k : nat) (s : string) : string :=
  substring 0 (String.length s - k) s.

Definition upperAscii (c : ascii) : ascii :=
  let n := nat_of_ascii c in
  if ((97 <=? n) && (n <=? 122))%nat then ascii_of_nat (n - 32) else c.

(** Every letter [a-z] of [s] in upper case; the other bytes are kept. *)
Fixpoint asciiUpperCase (s : string) : string :=
  match s with
  | EmptyString => EmptyString
  | String c rest => String (upperAscii c) (asciiUpperCase rest)
  end.

(** Whether [s] is made of ASCII characters only. *)
Fixpoint isAscii (s : string) : bool :=
  match s with
  | EmptyString => true
  | String c rest => (nat_of_ascii c <? 128)%nat && isAscii rest
  end.

(** The Unicode case mapping of [String.prototype.toUpperCase], for the
    strings that have a character beyond ASCII ([é] becomes [É], [ß] becomes
    [SS], ...). It is left open: what is proved of the program holds for
    every such mapping. *)
Class CaseMapping : Type := unicodeUpperCase : string -> string.

(** [s.toUpperCase()]: in an ASCII string the letters [a-z] become [A-Z] and
    every other character is kept; any other string goes through the Unicode
    case mapping. *)
Definition toUpperCase {unicode : CaseMapping} (s : string) : string :=
  if isAscii s then asciiUpperCase s else unicodeUpperCase s.

Definition hexDigit (n : nat) : ascii :=
  if (n <? 10)%nat then ascii_of_nat (48 + n) else ascii_of_nat (55 + n).

(** The characters [encodeURIComponent] leaves alone:
    [A-Z a-z 0-9 - _ . ! ~ * ' ( )]. *)
Definition uriUnreserved (c : ascii) : bool :=
  let n := nat_of_ascii c in
  (((65 <=? n) && (n <=? 90)) || ((97 <=? n) && (n <=? 122))
   || ((48 <=? n) && (n <=? 57))
   || (n =? 45) || (n =? 95) || (n =? 46) || (n =? 33) || (n =? 126)
   || (n =? 42) || (n =? 39) || (n =? 40) || (n =? 41))%nat.

(** [encodeURIComponent(s)]: every byte of the UTF-8 encoding that is not
    unreserved becomes [%XX]. *)
Fixpoint encodeURIComponent (s : string) : string :=
  match s with
  | EmptyString => EmptyString
  | String c rest =>
      if uriUnreserved c then String c (encodeURIComponent rest)
      else
        let n := nat_of_ascii c in
        String "%" (String (hexDigit (n / 16)) (String (hexDigit (n mod 16))
               (encodeURIComponent rest)))
  end.

(** A string is truthy when it is not empty. *)
Definition nonEmpty (s : string) : bool :=
  match s with EmptyString => false | _ => true end.

End JSString.

Import JSString.

(** ** Dynamically typed values and abrupt completion *)

#[local] Set Warnings "-register-all".

Inductive JSValue : Type :=
| JUndefined
| JNull
| JBool (b : bool)
| JNum (x : float)
| JStr (s : string)
| JArr (items : list JSValue)
| JObj (fields : list (string * JSValue)).

Inductive JSError : Type := SyntaxError | TypeError | InvalidStateError.

(** The outcome of running a piece of JavaScript: it returns, or it throws. *)
Inductive Completion (A : Type) : Type :=
| Normal (a : A)
| Throw (e : JSError).
Arguments Normal {A} a.
Arguments Throw {A} e.

Definition bindC {A B : Type} (c : Completion A) (k : A -> Completion B)
  : Completion B :=
  match c with
  | Normal a => k a
  | Throw e => Throw e
  end.

Notation "'let!' x ':=' c 'in' k" := (bindC c (fun x => k))
  (at level 10, x name, c at level 100, k at level 200).

(** [if (v)] *)
Definition truthy (v : JSValue) : bool :=
  match v with
  | JUndefined | JNull => false
  | JBool b => b
  | JNum x => negb (PrimFloat.eqb x 0%float) && negb (PrimFloat.is_nan x)
  | JStr s => nonEmpty s
  | JArr _ | JObj _ => true
  end.

(** [v == null] *)
Definition isNullish (v : JSValue) : bool :=
  match v with
  | JUndefined | JNull => true
  | _ => false
  end.

Fixpoint ownProperty (fields : list (string * JSValue)) (key : string)
  : JSValue :=
  match fields with
  | [] => JUndefined
  | (k, v) :: rest => if String.eqb k key then v else ownProperty rest key
  end.

(** [v.key] for the keys the provider reads ([type], [message], [data],
    [tokens], [symbol], [price_usd]): none of them is defined on the
    prototypes of strings, numbers, booleans, arrays or plain objects, so the
    read gives an own property of an object, [undefined] on any other
    non-null value, and throws on [null] and [undefined]. *)
Definition getProp (v : JSValue) (key : string) : Completion JSValue :=
  match v with
  | JUndefined | JNull => Throw TypeError
  | JObj fields => Normal (ownProperty fields key)
  | _ => Normal JUndefined
  end.

(** [v?.key] *)
Definition getPropOpt (v : JSValue) (key : string) : Completion JSValue :=
  if isNullish v then Normal JUndefined else getProp v key.

(** The values [for (const x of v)] visits: the elements of an array, the
    characters of a string; anything else is not iterable. *)
Definition iterate (v : JSValue) : Completion (list JSValue) :=
  match v with
  | JArr items => Normal items
  | JStr s => Normal (map (fun c => JStr (String c EmptyString))
                          (list_ascii_of_string s))
  | _ => Throw TypeError
  end.

(** ** Build-time configuration and page location *)

Record Location : Type := {
  hostname : string;
  host : string;
  protocol : string
}.

Record Env : Type := {
  (** [window.location]; [None] when [typeof window === 'undefined'] *)
  window : option Location;
  NEXT_PUBLIC_WS_URL : option string;
  NEXT_PUBLIC_API_URL : option string;
  (** whether [new WebSocket(url)] accepts the URL (it throws otherwise) *)
  WebSocket_accepts : string -> bool
}.

(** [process.env.X] as a condition, and [process.env.X || ''] *)
Definition envTruthy (v : option string) : bool :=
  match v with
  | Some s => nonEmpty s
  | None => false
  end.

Definition envOrEmpty (v : option string) : string :=
  match v with
  | Some s => s
  | None => ""
  end.

(** [apiUrl.replace(/^https?:\/\//, wsProtocol)] *)
Definition replaceScheme (apiUrl wsProtocol : string) : string :=
  if startsWith apiUrl "https://" then wsProtocol +:+ sliceFrom 8 apiUrl
  else if startsWith apiUrl "http://" then wsProtocol +:+ sliceFrom 7 apiUrl
  else apiUrl.

(** The two clean-up steps on the base URL: drop one trailing slash, then a
    trailing [/api/v1]. *)
Definition trimBase (baseUrl : string) : string :=
  let baseUrl1 := if endsWith baseUrl "/" then dropRight 1 baseUrl else baseUrl in
  if endsWith baseUrl1 "/api/v1" then dropRight 7 baseUrl1 else baseUrl1.

Definition streamPath : string := "/api/v1/live/stream".

Definition getWebSocketUrl (e : Env) : string :=
  match window e with
  | None => ""
  | Some location =>
      if envTruthy (NEXT_PUBLIC_WS_URL e) then envOrEmpty (NEXT_PUBLIC_WS_URL e)
      else
        let apiUrl := envOrEmpty (NEXT_PUBLIC_API_URL e) in
        if startsWith apiUrl "http" then
          let isSecure := startsWith apiUrl "https" in
          let wsProtocol := if isSecure then "wss://" else "ws://" in
          trimBase (replaceScheme apiUrl wsProtocol) +:+ streamPath
        else if String.eqb (hostname location) "localhost"
                || String.eqb (hostname location) "127.0.0.1" then
          "ws://localhost:8000/api/v1/live/stream"
        else
          let wsProtocol :=
            if String.eqb (protocol location) "https:" then "wss://" else "ws://" in
          wsProtocol +:+ host location +:+ streamPath
  end.

(** The URL [connect] opens: the auth token, when there is one, goes into the
    query string. *)
Definition buildWsUrl (e : Env) (token : option string) : string :=
  let baseUrl := getWebSocketUrl e in
  if envTruthy token then
    baseUrl +:+ "?token=" +:+ encodeURIComponent (envOrEmpty token)
  else baseUrl.

(** ** The provider's world *)

(** [WebSocket.readyState] *)
Inductive ReadyState : Type := CONNECTING | OPEN | CLOSING | CLOSED.

Inductive SubscriptionKind : Type := token | channel.

(** [WebSocketCommand] of the shared package. *)
Inductive WebSocketCommand : Type :=
| subscribe_cmd (type : SubscriptionKind) (value : string)
| unsubscribe_cmd (type : SubscriptionKind) (value : string)
| ping_cmd.

(** A socket created by [new WebSocket(url)]. [sent] lists the frames handed
    to [send], oldest first; a frame is [JSON.stringify(command)] and is kept
    as the command it encodes. *)
Record WebSocket : Type := {
  url : string;
  readyState : ReadyState;
  sent : list WebSocketCommand
}.

(** What a timer runs when it fires: the reconnect timeout calls [connect],
    the heartbeat interval sends a ping. *)
Inductive TimerCallback : Type := call_connect | send_ping.

#[global] Instance TimerCallback_eq_dec : EqDecision TimerCallback.
Proof. solve_decision. Defined.

(** An entry of the browser's timer table; the handle returned by
    [setTimeout] / [setInterval] is its index. *)
Record Timer : Type := {
  repeating : bool;
  callback : TimerCallback;
  delay : Z;
  active : bool
}.

(** Lines written to the console, by call site. *)
Inductive LogEntry : Type :=
| log_server_hello (message : JSValue)
| log_notification (data : JSValue)
| error_server (message : JSValue)
| error_parse (e : JSError)
| log_connected
| log_closed
| log_reconnecting (delay attempt : Z)
| error_socket
| error_create.

(** One point of a symbol's price history, [{ t, p }]. *)
Record PricePoint : Type := { t : string; p : JSValue }.

(** The [useState] cells. *)
Record ReactState : Type := {
  isConnected : bool;
  signals : list JSValue;
  marketUpdates : list JSValue;
  sentiment : JSValue;
  trending : JSValue;
  trackedPrices : gmap string JSValue;
  trackedTransfers : list JSValue;
  priceHistory : gmap string (list PricePoint);
  channelMessages : list JSValue
}.

(** The [useRef] cells. [wsRef] holds the index of the current socket in the
    socket table, the timer refs hold timer handles. *)
Record Refs : Type := {
  wsRef : option nat;
  reconnectAttempts : Z;
  reconnectTimeout : option nat;
  pingInterval : option nat
}.

(** The browser side. [renderError] records the first exception thrown by a
    state updater: React runs updaters outside the call that enqueued them
    and reports their exceptions when it renders the provider. *)
Record Browser : Type := {
  sockets : list WebSocket;
  timers : list Timer;
  console : list LogEntry;
  invalidated : list string;
  authToken : option string;
  renderError : option JSError
}.

Record World : Type := {
  state : ReactState;
  refs : Refs;
  browser : Browser
}.

Definition MAX_SIGNALS : nat := 100.
Definition RECONNECT_INTERVAL : Z := 3000.
Definition MAX_RECONNECT_ATTEMPTS : Z := 10.

Definition initialState : ReactState := {|
  isConnected := false;
  signals := [];
  marketUpdates := [];
  sentiment := JNull;
  trending := JNull;
  trackedPrices := ∅;
  trackedTransfers := [];
  priceHistory := ∅;
  channelMessages := []
|}.

Definition initialRefs : Refs := {|
  wsRef := None;
  reconnectAttempts := 0;
  reconnectTimeout := None;
  pingInterval := None
|}.

Definition initialWorld (tok : option string) : World := {|
  state := initialState;
  refs := initialRefs;
  browser := {| sockets := []; timers := []; console := []; invalidated := [];
                authToken := tok; renderError := None |}
|}.

(** *** Field updates *)

Definition with_state (f : ReactState -> ReactState) (w : World) : World :=
  {| state := f (state w); refs := refs w; browser := browser w |}.

Definition with_refs (f : Refs -> Refs) (w : World) : World :=
  {| state := state w; refs := f (refs w); browser := browser w |}.

Definition with_browser (f : Browser -> Browser) (w : World) : World :=
  {| state := state w; refs := refs w; browser := f (browser w) |}.

Definition setIsConnected (b : bool) : World -> World :=
  with_state (fun s =>
    {| isConnected := b; signals := signals s; marketUpdates := marketUpdates s;
       sentiment := sentiment s; trending := trending s;
       trackedPrices := trackedPrices s; trackedTransfers := trackedTransfers s;
       priceHistory := priceHistory s; channelMessages := channelMessages s |}).

Definition setSignals (f : list JSValue -> list JSValue) : World -> World :=
  with_state (fun s =>
    {| isConnected := isConnected s; signals := f (signals s);
       marketUpdates := marketUpdates s;
       sentiment := sentiment s; trending := trending s;
       trackedPrices := trackedPrices s; trackedTransfers := trackedTransfers s;
       priceHistory := priceHistory s; channelMessages := channelMessages s |}).

Definition setMarketUpdates (f : list JSValue -> list JSValue) : World -> World :=
  with_state (fun s =>
    {| isConnected := isConnected s; signals := signals s;
       marketUpdates := f (marketUpdates s);
       sentiment := sentiment s; trending := trending s;
       trackedPrices := trackedPrices s; trackedTransfers := trackedTransfers s;
       priceHistory := priceHistory s; channelMessages := channelMessages s |}).

Definition setSentiment (v : JSValue) : World -> World :=
  with_state (fun s =>
    {| isConnected := isConnected s; signals := signals s;
       marketUpdates := marketUpdates s;
       sentiment := v; trending := trending s;
       trackedPrices := trackedPrices s; trackedTransfers := trackedTransfers s;
       priceHistory := priceHistory s; channelMessages := channelMessages s |}).

Definition setTrending (v : JSValue) : World -> World :=
  with_state (fun s =>
    {| isConnected := isConnected s; signals := signals s;
       marketUpdates := marketUpdates s;
       sentiment := sentiment s; trending := v;
       trackedPrices := trackedPrices s; trackedTransfers := trackedTransfers s;
       priceHistory := priceHistory s; channelMessages := channelMessages s |}).

Definition putTrackedPrices (m : gmap string JSValue) : World -> World :=
  with_state (fun s =>
    {| isConnected := isConnected s; signals := signals s;
       marketUpdates := marketUpdates s;
       sentiment := sentiment s; trending := trending s;
       trackedPrices := m; trackedTransfers := trackedTransfers s;
       priceHistory := priceHistory s; channelMessages := channelMessages s |}).

Definition setTrackedTransfers (f : list JSValue -> list JSValue) : World -> World :=
  with_state (fun s =>
    {| isConnected := isConnected s; signals := signals s;
       marketUpdates := marketUpdates s;
       sentiment := sentiment s; trending := trending s;
       trackedPrices := trackedPrices s; trackedTransfers := f (trackedTransfers s);
       priceHistory := priceHistory s; channelMessages := channelMessages s |}).

Definition putPriceHistory (m : gmap string (list PricePoint)) : World -> World :=
  with_state (fun s =>
    {| isConnected := isConnected s; signals := signals s;
       marketUpdates := marketUpdates s;
       sentiment := sentiment s; trending := trending s;
       trackedPrices := trackedPrices s; trackedTransfers := trackedTransfers s;
       priceHistory := m; channelMessages := channelMessages s |}).

Definition setChannelMessages (f : list JSValue -> list JSValue) : World -> World :=
  with_state (fun s =>
    {| isConnected := isConnected s; signals := signals s;
       marketUpdates := marketUpdates s;
       sentiment := sentiment s; trending := trending s;
       trackedPrices := trackedPrices s; trackedTransfers := trackedTransfers s;
       priceHistory := priceHistory s; channelMessages := f (channelMessages s) |}).

Definition set_wsRef (v : option nat) : World -> World :=
  with_refs (fun r =>
    {| wsRef := v; reconnectAttempts := reconnectAttempts r;
       reconnectTimeout := reconnectTimeout r; pingInterval := pingInterval r |}).

Definition set_reconnectAttempts (n : Z) : World -> World :=
  with_refs (fun r =>
    {| wsRef := wsRef r; reconnectAttempts := n;
       reconnectTimeout := reconnectTimeout r; pingInterval := pingInterval r |}).

Definition set_reconnectTimeout (v : option nat) : World -> World :=
  with_refs (fun r =>
    {| wsRef := wsRef r; reconnectAttempts := reconnectAttempts r;
       reconnectTimeout := v; pingInterval := pingInterval r |}).

Definition set_pingInterval (v : option nat) : World -> World :=
  with_refs (fun r =>
    {| wsRef := wsRef r; reconnectAttempts := reconnectAttempts r;
       reconnectTimeout := reconnectTimeout r; pingInterval := v |}).

Definition with_sockets (f : list WebSocket -> list WebSocket) : World -> World :=
  with_browser (fun b =>
    {| sockets := f (sockets b); timers := timers b; console := console b;
       invalidated := invalidated b; authToken := authToken b;
       renderError := renderError b |}).

Definition with_timers (f : list Timer -> list Timer) : World -> World :=
  with_browser (fun b =>
    {| sockets := sockets b; timers := f (timers b); console := console b;
       invalidated := invalidated b; authToken := authToken b;
       renderError := renderError b |}).

(** [console.log(...)] / [console.error(...)] *)
Definition console_write (entry : LogEntry) : World -> World :=
  with_browser (fun b =>
    {| sockets := sockets b; timers := timers b; console := console b ++ [entry];
       invalidated := invalidated b; authToken := authToken b;
       renderError := renderError b |}).

(** [queryClient.invalidateQueries({ queryKey: [key] })] *)
Definition invalidateQueries (key : string) : World -> World :=
  with_browser (fun b =>
    {| sockets := sockets b; timers := timers b; console := console b;
       invalidated := invalidated b ++ [key]; authToken := authToken b;
       renderError := renderError b |}).

Definition set_authToken (tok : option string) : World -> World :=
  with_browser (fun b =>
    {| sockets := sockets b; timers := timers b; console := console b;
       invalidated := invalidated b; authToken := tok;
       renderError := renderError b |}).

Definition report_renderError (e : JSError) : World -> World :=
  with_browser (fun b =>
    {| sockets := sockets b; timers := timers b; console := console b;
       invalidated := invalidated b; authToken := authToken b;
       renderError := match renderError b with
                      | Some e0 => Some e0
                      | None => Some e
                      end |}).

(** ** Outbound commands *)

Definition currentSocket (w : World) : option WebSocket :=
  match wsRef (refs w) with
  | Some id => sockets (browser w) !! id
  | None => None
  end.

(** [wsRef.current?.readyState === WebSocket.OPEN] *)
Definition currentIsOpen (w : World) : bool :=
  match currentSocket w with
  | Some ws => match readyState ws with OPEN => true | _ => false end
  | None => false
  end.

(** [ws.send(frame)]: throws while the socket is still connecting, transmits
    on an open socket, and discards the frame once the socket is closing or
    closed. *)
Definition socket_send (command : WebSocketCommand) (ws : WebSocket)
  : Completion WebSocket :=
  match readyState ws with
  | CONNECTING => Throw InvalidStateError
  | OPEN => Normal {| url := url ws; readyState := readyState ws;
                      sent := sent ws ++ [command] |}
  | CLOSING | CLOSED => Normal ws
  end.

Definition sendCommand (command : WebSocketCommand) (w : World)
  : Completion World :=
  if currentIsOpen w then
    match wsRef (refs w), currentSocket w with
    | Some id, Some ws =>
        let! ws' := socket_send command ws in
        Normal (with_sockets (fun l => <[id := ws']> l) w)
    | _, _ => Normal w
    end
  else Normal w.

Definition subscribe (type : SubscriptionKind) (value : string) (w : World)
  : Completion World :=
  sendCommand (subscribe_cmd type value) w.

Definition unsubscribe (type : SubscriptionKind) (value : string) (w : World)
  : Completion World :=
  sendCommand (unsubscribe_cmd type value) w.

Definition clearSignals (w : World) : World :=
  setChannelMessages (fun _ => [])
    (setMarketUpdates (fun _ => [])
       (setSignals (fun _ => []) w)).

(** ** Inbound messages *)

(** A [MessageEvent], by what [JSON.parse(event.data)] does with its data. *)
Inductive MessageEvent : Type :=
| malformed
| wellformed (message : JSValue).

Definition JSON_parse (event : MessageEvent) : Completion JSValue :=
  match event with
  | malformed => Throw SyntaxError
  | wellformed message => Normal message
  end.

(** [token.symbol.toUpperCase()] *)
Definition symbolKey {unicode : CaseMapping}
    (tok : JSValue) : Completion string :=
  let! symbol := getProp tok "symbol" in
  match symbol with
  | JStr s => Normal (toUpperCase s)
  | _ => Throw TypeError
  end.

(** The loop of the [setTrackedPrices] updater over the tokens. *)
Fixpoint upsertPrices {unicode : CaseMapping}
    (tokens : list JSValue) (updated : gmap string JSValue)
  : Completion (gmap string JSValue) :=
  match tokens with
  | [] => Normal updated
  | tok :: rest =>
      let! sym := symbolKey tok in
      upsertPrices rest (<[sym := tok]> updated)
  end.

(** [arr.length > 500 ? arr.slice(-500) : arr] *)
Definition capHistory (arr : list PricePoint) : list PricePoint :=
  if (500 <? length arr)%nat then drop (length arr - 500) arr else arr.

(** The loop of the [setPriceHistory] updater. [clock k] is what
    [new Date().toISOString()] returns at the [k]-th point pushed by this
    run of the loop. *)
Fixpoint appendHistory {unicode : CaseMapping}
    (clock : nat -> string) (k : nat) (tokens : list JSValue)
    (next : gmap string (list PricePoint))
  : Completion (gmap string (list PricePoint)) :=
  match tokens with
  | [] => Normal next
  | tok :: rest =>
      let! sym := symbolKey tok in
      let! price_usd := getProp tok "price_usd" in
      if isNullish price_usd then appendHistory clock k rest next
      else
        let arr := default [] (next !! sym) ++ [{| t := clock k; p := price_usd |}] in
        appendHistory clock (S k) rest (<[sym := capHistory arr]> next)
  end.

(** [setTrackedPrices(prev => ...)] and [setPriceHistory(prev => ...)]: an
    updater that throws leaves its slice as it was. *)
Definition setTrackedPrices {unicode : CaseMapping}
    (tokens : JSValue) (w : World) : World :=
  match (let! items := iterate tokens in
         upsertPrices items (trackedPrices (state w))) with
  | Normal updated => putTrackedPrices updated w
  | Throw e => report_renderError e w
  end.

Definition setPriceHistory {unicode : CaseMapping}
    (clock : nat -> string) (tokens : JSValue) (w : World)
  : World :=
  match (let! items := iterate tokens in
         appendHistory clock 0 items (priceHistory (state w))) with
  | Normal next => putPriceHistory next w
  | Throw e => report_renderError e w
  end.

(** The body of the [try] block of [handleMessage]. *)
Definition handleMessage_try {unicode : CaseMapping}
    (clock : nat -> string) (event : MessageEvent)
    (w : World) : Completion World :=
  let! message := JSON_parse event in
  let! ty := getProp message "type" in
  match ty with
  | JStr tag =>
      if String.eqb tag "connected" then
        let! text := getProp message "message" in
        Normal (console_write (log_server_hello text) w)
      else if String.eqb tag "new_signal" then
        let! data := getProp message "data" in
        Normal (invalidateQueries "signals"
                  (setSignals (fun prev => take MAX_SIGNALS (data :: prev)) w))
      else if String.eqb tag "MARKET_UPDATE" then
        Normal (setMarketUpdates (fun prev => take MAX_SIGNALS (message :: prev)) w)
      else if String.eqb tag "sentiment_update" then
        let! data := getProp message "data" in
        Normal (setSentiment data w)
      else if String.eqb tag "trending_update" then
        let! data := getProp message "data" in
        Normal (setTrending data w)
      else if String.eqb tag "tracked_price_update" then
        let! data := getProp message "data" in
        let! tokens := getPropOpt data "tokens" in
        if truthy tokens then
          Normal (setPriceHistory clock tokens (setTrackedPrices tokens w))
        else Normal w
      else if String.eqb tag "tracked_transfer" then
        let! data := getProp message "data" in
        if truthy data then
          Normal (setTrackedTransfers (fun prev => take 50 (data :: prev)) w)
        else Normal w
      else if String.eqb tag "notification" then
        let! data := getProp message "data" in
        Normal (invalidateQueries "notifications"
                  (console_write (log_notification data) w))
      else if String.eqb tag "channel_message" then
        let! cm := getProp message "data" in
        if truthy cm then
          Normal (setChannelMessages (fun prev => take 200 (cm :: prev)) w)
        else Normal w
      else if String.eqb tag "monitoring_status" then
        Normal (invalidateQueries "userTelegramStatus"
                  (invalidateQueries "monitoringStatus" w))
      else if String.eqb tag "pong" then Normal w
      else if String.eqb tag "error" then
        Normal (console_write (error_server message) w)
      else Normal w
  | _ => Normal w
  end.

(** [handleMessage]: the [try] block, and the [catch] that logs. Nothing is
    written before the two places of the block that can throw, so the world
    the [catch] starts from is the one the handler was entered with. *)
Definition handleMessage {unicode : CaseMapping}
    (clock : nat -> string) (event : MessageEvent)
    (w : World) : Completion World :=
  match handleMessage_try clock event w with
  | Normal w' => Normal w'
  | Throw e => Normal (console_write (error_parse e) w)
  end.

(** ** Timers *)

Definition setTimer (rep : bool) (cb : TimerCallback) (ms : Z) (w : World)
  : World * nat :=
  (with_timers (fun ts => ts ++ [{| repeating := rep; callback := cb;
                                    delay := ms; active := true |}]) w,
   length (timers (browser w))).

Definition deactivate (tm : Timer) : Timer :=
  {| repeating := repeating tm; callback := callback tm; delay := delay tm;
     active := false |}.

(** [clearTimeout(h)] / [clearInterval(h)] *)
Definition clearTimer (h : nat) : World -> World :=
  with_timers (alter deactivate h).

(** ** Connection life cycle *)

Definition getAuthToken (e : Env) (w : World) : option string :=
  match window e with
  | None => None
  | Some _ => authToken (browser w)
  end.

Definition WebSocket_new (wsUrl : string) : WebSocket :=
  {| url := wsUrl; readyState := CONNECTING; sent := [] |}.

Definition connect (e : Env) (w : World) : World :=
  if currentIsOpen w then w
  else
    let wsUrl := buildWsUrl e (getAuthToken e w) in
    if WebSocket_accepts e wsUrl then
      set_wsRef (Some (length (sockets (browser w))))
        (with_sockets (fun l => l ++ [WebSocket_new wsUrl]) w)
    else console_write error_create w.

Definition onopen (w : World) : World :=
  let w1 := console_write log_connected w in
  let w2 := setIsConnected true w1 in
  let w3 := set_reconnectAttempts 0 w2 in
  let (w4, h) := setTimer true send_ping 30000 w3 in
  set_pingInterval (Some h) w4.

Definition onclose (w : World) : World :=
  let w1 := console_write log_closed w in
  let w2 := setIsConnected false w1 in
  let w3 := match pingInterval (refs w2) with
            | Some h => clearTimer h w2
            | None => w2
            end in
  if (reconnectAttempts (refs w3) <? MAX_RECONNECT_ATTEMPTS)%Z then
    let attempt := (reconnectAttempts (refs w3) + 1)%Z in
    let w4 := set_reconnectAttempts attempt w3 in
    let ms := Z.min (RECONNECT_INTERVAL * attempt) 30000 in
    let w5 := console_write (log_reconnecting ms attempt) w4 in
    let (w6, h) := setTimer false call_connect ms w5 in
    set_reconnectTimeout (Some h) w6
  else w3.

Definition onerror (w : World) : World := console_write error_socket w.

(** [ws.close()] *)
Definition socket_close (ws : WebSocket) : WebSocket :=
  match readyState ws with
  | CLOSING | CLOSED => ws
  | _ => {| url := url ws; readyState := CLOSING; sent := sent ws |}
  end.

(** The clean-up function returned by the mount effect. *)
Definition cleanup (w : World) : World :=
  let w1 := match reconnectTimeout (refs w) with
            | Some h => clearTimer h w
            | None => w
            end in
  let w2 := match pingInterval (refs w1) with
            | Some h => clearTimer h w1
            | None => w1
            end in
  match wsRef (refs w2) with
  | Some id => with_sockets (alter socket_close id) w2
  | None => w2
  end.

(** ** The event loop *)

Inductive Event : Type :=
| ev_mount
| ev_cleanup
| ev_open (id : nat)
| ev_message (id : nat) (clock : nat -> string) (event : MessageEvent)
| ev_error (id : nat)
| ev_close (id : nat)
| ev_timer (h : nat)
| ev_storage (tok : option string)
| call_subscribe (type : SubscriptionKind) (value : string)
| call_unsubscribe (type : SubscriptionKind) (value : string)
| call_clearSignals.

Definition set_readyState (rs : ReadyState) (ws : WebSocket) : WebSocket :=
  {| url := url ws; readyState := rs; sent := sent ws |}.

(** What the event loop is left with after a callback: the world the callback
    returned, or, had it thrown, the world it was entered with (the two
    callbacks concerned write nothing before the places where they can
    throw). *)
Definition settle (w : World) (c : Completion World) : World :=
  match c with
  | Normal w' => w'
  | Throw _ => w
  end.

(** One turn of the event loop; [None] when the browser cannot deliver the
    event in this world (an open event for a socket that is not connecting, a
    timer that is not armed, ...). The browser updates the socket's
    [readyState] before it calls the handler. *)
Definition step {unicode : CaseMapping}
    (e : Env) (ev : Event) (w : World) : option World :=
  match ev with
  | ev_mount => Some (connect e w)
  | ev_cleanup => Some (cleanup w)
  | ev_open id =>
      match sockets (browser w) !! id with
      | Some ws =>
          match readyState ws with
          | CONNECTING => Some (onopen (with_sockets (alter (set_readyState OPEN) id) w))
          | _ => None
          end
      | None => None
      end
  | ev_message id clock event =>
      match sockets (browser w) !! id with
      | Some ws =>
          match readyState ws with
          | OPEN =>
              Some (settle w (handleMessage clock event w))
          | _ => None
          end
      | None => None
      end
  | ev_error id =>
      match sockets (browser w) !! id with
      | Some ws => Some (onerror w)
      | None => None
      end
  | ev_close id =>
      match sockets (browser w) !! id with
      | Some ws =>
          match readyState ws with
          | CLOSED => None
          | _ => Some (onclose (with_sockets (alter (set_readyState CLOSED) id) w))
          end
      | None => None
      end
  | ev_timer h =>
      match timers (browser w) !! h with
      | Some tm =>
          if active tm then
            let w1 := if repeating tm then w else clearTimer h w in
            Some (match callback tm with
                  | call_connect => connect e w1
                  | send_ping => settle w1 (sendCommand ping_cmd w1)
                  end)
          else None
      | None => None
      end
  | ev_storage tok => Some (set_authToken tok w)
  | call_subscribe type value => Some (settle w (subscribe type value w))
  | call_unsubscribe type value => Some (settle w (unsubscribe type value w))
  | call_clearSignals => Some (clearSignals w)
  end.

Fixpoint run {unicode : CaseMapping}
    (e : Env) (trace : list Event) (w : World) : option World :=
  match trace with
  | [] => Some w
  | ev :: rest =>
      match step e ev w with
      | Some w' => run e rest w'
      | None => None
      end
  end.

(** The delays of all reconnect timeouts set so far, oldest first. *)
Definition scheduledDelays (w : World) : list Z :=
  map delay (filter (fun tm => callback tm = call_connect) (timers (browser w))).

(** The [case] labels of the [switch] in [handleMessage]. *)
Definition handledTypes : list string :=
  ["connected"; "new_signal"; "MARKET_UPDATE"; "sentiment_update";
   "trending_update"; "tracked_price_update"; "tracked_transfer";
   "notification"; "channel_message"; "monitoring_status"; "pong"; "error"].

(** Feeding a sequence of inbound messages to the handler, oldest first. *)
Definition feed {unicode : CaseMapping}
    (inbox : list ((nat -> string) * MessageEvent) ) (w : World)
  : World :=
  fold_left (fun acc m => settle acc (handleMessage (fst m) (snd m) acc)) inbox w.

(** ** Vocabulary for the statements *)

#[global] Instance JSError_eq_dec : EqDecision JSError.
Proof. solve_decision. Defined.

#[global] Instance Completion_eq_dec {A : Type} `{EqDecision A} :
  EqDecision (Completion A).
Proof. solve_decision. Defined.

(** [l.slice(-n)]: the last [n] elements of [l], in the order of [l]. *)
Definition lastN {A : Type} (n : nat) (l : list A) : list A :=
  drop (length l - n) l.

(** [message] is a [tracked_price_update] whose [data.tokens] is the array
    [tokens]. *)
Definition isPriceUpdate (message : JSValue) (tokens : list JSValue) : Prop :=
  getProp message "type" = Normal (JStr "tracked_price_update") /\
  exists data, getProp message "data" = Normal data /\
               getPropOpt data "tokens" = Normal (JArr tokens).

(** A token entry as the shared types declare it, as far as the handler
    looks: an object whose [symbol] is a string. *)
Definition hasSymbol (tok : JSValue) : Prop :=
  exists s, getProp tok "symbol" = Normal (JStr s).

(** [token.price_usd] *)
Definition priceOf (tok : JSValue) : JSValue :=
  match getProp tok "price_usd" with
  | Normal v => v
  | Throw _ => JUndefined
  end.

(** The entry is filed under [key] and carries a price. *)
Definition pricedAt {unicode : CaseMapping}
    (key : string) (tok : JSValue) : Prop :=
  symbolKey tok = Normal key /\ isNullish (priceOf tok) = false.

#[global] Instance pricedAt_dec {unicode : CaseMapping}
    (key : string) (tok : JSValue) :
  Decision (pricedAt key tok).
Proof. unfold pricedAt. apply _. Defined.

(** A [tracked_price_update] carrying one token. *)
Definition priceUpdate (symbol : string) (price_usd : JSValue) : JSValue :=
  JObj [("type", JStr "tracked_price_update");
        ("timestamp", JStr "2024-01-01T00:00:00Z");
        ("data", JObj [("tokens",
           JArr [JObj [("symbol", JStr symbol); ("price_usd", price_usd);
                       ("price_change_24h", JNull)]])])].

Definition btcToken (price : float) : JSValue :=
  JObj [("symbol", JStr "BTC"); ("price_usd", JNum price);
        ("price_change_24h", JNull)].

(** An inbound message together with the clock readings of its handling. *)
Definition Inbound : Type := (nat -> string) * MessageEvent.

(** [m] is a message of type [tag] whose [data] is [x]. *)
Definition carries (tag : string) (m : Inbound) (x : JSValue) : Prop :=
  exists message,
    snd m = wellformed message /\
    getProp message "type" = Normal (JStr tag) /\
    getProp message "data" = Normal x.

(** The same, with a payload that passes the handler's [if (data)]. *)
Definition carriesPayload (tag : string) (m : Inbound) (x : JSValue) : Prop :=
  carries tag m x /\ truthy x = true.

(** [m] is the market update [x] (the buffer keeps the whole message). *)
Definition isMarketUpdate (m : Inbound) (x : JSValue) : Prop :=
  snd m = wellformed x /\ getProp x "type" = Normal (JStr "MARKET_UPDATE").

(** [m] is a price update with one entry, for [symbol], at price [v]. *)
Definition carriesPrice (symbol : string) (m : Inbound) (v : JSValue) : Prop :=
  exists message tok,
    snd m = wellformed message /\
    isPriceUpdate message [tok] /\
    getProp tok "symbol" = Normal (JStr symbol) /\
    getProp tok "price_usd" = Normal v /\
    isNullish v = false.

(** The point the handler pushes for the price [v] of message [m]. *)
Definition pointOf (m : Inbound) (v : JSValue) : PricePoint :=
  {| t := fst m 0; p := v |}.

(** The history kept for a key ([[]] when the key is absent). *)
Definition historyOf (key : string) (w : World) : list PricePoint :=
  default [] (priceHistory (state w) !! key).

Definition signalData (id : float) : JSValue :=
  JObj [("id", JNum id); ("token_symbol", JStr "BTC");
        ("channel_name", JStr "alpha"); ("confidence_score", JNum 1%float)].

Definition newSignal (id : float) : Inbound :=
  (fun _ => "",
   wellformed (JObj [("type", JStr "new_signal");
                     ("timestamp", JStr "2024-01-01T00:00:00Z");
                     ("data", signalData id)])).

Definition btcPrice (price : float) : Inbound :=
  (fun _ => "", wellformed (priceUpdate "BTC" (JNum price))).

(** The numbers [lo], [lo + 1], ..., [lo + n - 1]. *)
Fixpoint idsFrom (lo : float) (n : nat) : list float :=
  match n with
  | O => []
  | S n' => lo :: idsFrom (lo + 1)%float n'
  end.

(** ** Statements of the specification that the code does not satisfy *)

(** What the specification says of the scheme: secure exactly when the page
    is. *)
Definition scheme_follows_page : Prop :=
  forall (e : Env) (location : Location),
    window e = Some location ->
    (startsWith (getWebSocketUrl e) "wss://" = true
     <-> protocol location = "https:").

(** What the specification says of every buffer, read for the price history
    of a symbol: after more than 500 inserts it holds the 500 most recent
    prices, newest first. *)
Definition price_history_newest_first {unicode : CaseMapping} : Prop :=
  forall prices : list float,
    500 < length prices ->
    p <$> historyOf "BTC" (feed (btcPrice <$> prices) (initialWorld None))
    = take 500 (reverse (JNum <$> prices)).

(** ** Traces *)

Definition isOpenEvent (ev : Event) : bool :=
  match ev with
  | ev_open _ => true
  | _ => false
  end.

(** The number of close events in a trace. *)
Fixpoint closes (trace : list Event) : nat :=
  match trace with
  | [] => 0
  | ev_close _ :: rest => S (closes rest)
  | _ :: rest => closes rest
  end.

(** [Math.min(RECONNECT_INTERVAL * attempt, 30000)] *)
Definition reconnectDelay (attempt : Z) : Z :=
  Z.min (RECONNECT_INTERVAL * attempt) 30000.

(** What the reconnect logic reads and writes: the retry counter, the
    reconnect timeouts set so far, and the connected flag. *)
Definition sameReconnectState (w w' : World) : Prop :=
  reconnectAttempts (refs w') = reconnectAttempts (refs w) /\
  scheduledDelays w' = scheduledDelays w /\
  isConnected (state w') = isConnected (state w).

(** [n] rounds of a socket closing and the reconnect timeout firing, for the
    sockets and timeouts numbered from [first]. *)
Definition failingRounds (first n : nat) : list Event :=
  flat_map (fun i => [ev_close i; ev_timer i]) (seq first n).

(** ** Sample worlds

    A production page served over https whose API origin is configured as a
    plain-http absolute URL, and the worlds reached from a fresh provider by
    the first events of its life. *)

Definition samplePage : Location :=
  {| hostname := "app.example.com"; host := "app.example.com";
     protocol := "https:" |}.

Definition sampleAccepts (u : string) : bool :=
  startsWith u "ws://" || startsWith u "wss://".

Definition sampleEnv : Env :=
  {| window := Some samplePage;
     NEXT_PUBLIC_WS_URL := None;
     NEXT_PUBLIC_API_URL := Some "http://api.example.com";
     WebSocket_accepts := sampleAccepts |}.

(** A development page on localhost, nothing configured. *)
Definition devPage : Location :=
  {| hostname := "localhost"; host := "localhost:3000"; protocol := "http:" |}.

Definition devEnv : Env :=
  {| window := Some devPage;
     NEXT_PUBLIC_WS_URL := None;
     NEXT_PUBLIC_API_URL := None;
     WebSocket_accepts := sampleAccepts |}.

(** The production page with no API origin configured: the same-host
    fallback. *)
Definition fallbackEnv : Env :=
  {| window := Some samplePage;
     NEXT_PUBLIC_WS_URL := None;
     NEXT_PUBLIC_API_URL := None;
     WebSocket_accepts := sampleAccepts |}.

(** The production page with an https API origin. *)
Definition secureApiEnv : Env :=
  {| window := Some samplePage;
     NEXT_PUBLIC_WS_URL := None;
     NEXT_PUBLIC_API_URL := Some "https://api.example.com";
     WebSocket_accepts := sampleAccepts |}.

Definition after {unicode : CaseMapping}
    (e : Env) (trace : list Event) (w : World) : World :=
  default w (run e trace w).

(** Mounted, socket 0 still connecting. *)
Definition connectingWorld {unicode : CaseMapping} : World :=
  after sampleEnv [ev_mount] (initialWorld (Some "secret")).

(** Mounted, socket 0 open. *)
Definition openWorld {unicode : CaseMapping} : World :=
  after sampleEnv [ev_mount; ev_open 0] (initialWorld (Some "secret")).

(** An acknowledgement the server sends after a subscribe command; the
    handler has no [case] for it. *)
Definition unknownMessage : JSValue :=
  JObj [("type", JStr "subscribed"); ("sub_type", JStr "token");
        ("value", JStr "BTC")].

(** Three failed connections in a row after the mount, and ten of them
    followed by what can still happen once the retry budget is used up. *)
Definition threeFailures : list Event := ev_mount :: failingRounds 0 3.

Definition tenFailures : list Event := ev_mount :: failingRounds 0 10.

Definition afterExhaustion : list Event :=
  [ev_close 10; ev_mount; call_subscribe token "BTC"; ev_close 11].

(** ** Reachable worlds and what they keep *)

(** Every buffer within its capacity. *)
Definition withinCapacity (w : World) : Prop :=
  length (signals (state w)) <= 100 /\
  length (marketUpdates (state w)) <= 100 /\
  length (channelMessages (state w)) <= 200 /\
  length (trackedTransfers (state w)) <= 50 /\
  forall key points,
    priceHistory (state w) !! key = Some points -> length points <= 500.

(** The data the provider hands to its consumers, the connected flag
    apart. *)
Definition dataSlices (w : World) :=
  (signals (state w), marketUpdates (state w), sentiment (state w),
   trending (state w), trackedPrices (state w), trackedTransfers (state w),
   priceHistory (state w), channelMessages (state w)).

(** The connection side of the world. *)
Definition connectionOf (w : World) :=
  (refs w, sockets (browser w), timers (browser w), isConnected (state w),
   authToken (browser w)).

(** The events that can write a data slice: a message and [clearSignals]. *)
Definition isDataEvent (ev : Event) : bool :=
  match ev with
  | ev_message _ _ _ | call_clearSignals => true
  | _ => false
  end.

(** What timer [h] of a timer table runs and whether it repeats, and whether
    it is armed; [None] when there is no such timer. *)
Definition kindAt (l : list Timer) (h : nat) : option (TimerCallback * bool) :=
  (fun tm => (callback tm, repeating tm)) <$> l !! h.

Definition activeAt (l : list Timer) (h : nat) : option bool :=
  active <$> l !! h.

(** The timer handles kept in the refs are handles of the timer table:
    [reconnectTimeout] of a one-shot timer that calls [connect],
    [pingInterval] of a repeating timer that sends the ping. *)
Definition handlesTyped (w : World) : Prop :=
  (forall h, reconnectTimeout (refs w) = Some h ->
             kindAt (timers (browser w)) h = Some (call_connect, false)) /\
  (forall h, pingInterval (refs w) = Some h ->
             kindAt (timers (browser w)) h = Some (send_ping, true)).

(** Timer [h] is a heartbeat interval that is armed and that no ref holds. *)
Definition leaked (h : nat) (w : World) : Prop :=
  kindAt (timers (browser w)) h = Some (send_ping, true) /\
  activeAt (timers (browser w)) h = Some true /\
  reconnectTimeout (refs w) <> Some h /\
  pingInterval (refs w) <> Some h.

(** [wsRef] holds the socket created last, if any was. *)
Definition newestSocket (w : World) : Prop :=
  wsRef (refs w)
  = match sockets (browser w) with
    | [] => None
    | _ :: _ => Some (length (sockets (browser w)) - 1)
    end.

(** The keys of the two symbol-keyed maps of [w] are keys in [w']. *)
Definition keysKept (w w' : World) : Prop :=
  (forall key, is_Some (trackedPrices (state w) !! key) ->
               is_Some (trackedPrices (state w') !! key)) /\
  (forall key, is_Some (priceHistory (state w) !! key) ->
               is_Some (priceHistory (state w') !! key)).

(** Every socket of [l] is still in [l'] at the same index, with the same
    URL and with the frames it had sent as a prefix of those it has sent. *)
Definition socketsExtend (l l' : list WebSocket) : Prop :=
  forall id ws,
    l !! id = Some ws ->
    exists ws', l' !! id = Some ws' /\ url ws' = url ws /\
                sent ws `prefix_of` sent ws'.

(** A world with three signals buffered and socket 0 open, and a trace in
    which that socket drops and the provider reconnects. *)
Definition busyWorld {unicode : CaseMapping} : World :=
  feed (newSignal <$> idsFrom 1%float 3) openWorld.

Definition reconnectTrace : list Event :=
  [call_subscribe token "ETH"; ev_close 0; ev_timer 1; ev_error 1; ev_open 1;
   ev_timer 2; ev_storage None; ev_cleanup].

(** Socket 0 opens and delivers 120 signals and 501 BTC prices. *)
Definition overflowTrace : list Event :=
  [ev_mount; ev_open 0]
  ++ ((fun m : Inbound => ev_message 0 (fst m) (snd m))
        <$> (newSignal <$> idsFrom 1%float 120))
  ++ ((fun m : Inbound => ev_message 0 (fst m) (snd m))
        <$> (btcPrice <$> idsFrom 1%float 501)).

(** Messages whose payload is missing. *)
Definition emptyTransfer : JSValue :=
  JObj [("type", JStr "tracked_transfer"); ("data", JNull)].

Definition emptySignal : JSValue :=
  JObj [("type", JStr "new_signal"); ("timestamp", JStr "2024-01-01T00:00:00Z")].

(** A price update whose second entry has no symbol. *)
Definition brokenUpdate : JSValue :=
  JObj [("type", JStr "tracked_price_update");
        ("data", JObj [("tokens",
           JArr [btcToken 65000%float;
                 JObj [("price_usd", JNum 1%float)]])])].

(** Socket 0 open and a BTC price on record. *)
Definition pricedWorld {unicode : CaseMapping}
    : World := feed [btcPrice 65000%float] openWorld.

Definition mixedTrace : list Event :=
  [ev_message 0 (fun _ => "") (wellformed (priceUpdate "eth" JNull));
   call_clearSignals; ev_close 0; ev_timer 1].

(** The life of a provider under React's strict mode when the first
    connection attempts are slow: mount, clean-up, mount again; the first
    socket's close event arms a reconnect, which fires while the second
    socket is still connecting and creates a third; then both open. *)
Definition strictModeStart : list Event :=
  [ev_mount; ev_cleanup; ev_mount; ev_close 0; ev_timer 0; ev_open 1].

Definition strictModeRest : list Event :=
  [ev_close 1; ev_timer 3; ev_close 2; ev_timer 4; ev_open 3; ev_cleanup;
   ev_close 3].

(** ** What a message contributes to each prepend buffer *)

(** The tag of a parsed message, when its [type] is a string. *)
Definition tagOf (event : MessageEvent) : option string :=
  match event with
  | malformed => None
  | wellformed message =>
      match getProp message "type" with
      | Normal (JStr tag) => Some tag
      | _ => None
      end
  end.

(** [message.data] of a parsed message with a string [type]. *)
Definition dataOf (event : MessageEvent) : JSValue :=
  match event with
  | malformed => JUndefined
  | wellformed message =>
      match getProp message "data" with
      | Normal data => data
      | Throw _ => JUndefined
      end
  end.

(** The entry a message adds to the signals buffer, if any. *)
Definition signalEntry (event : MessageEvent) : option JSValue :=
  match tagOf event with
  | Some tag => if String.eqb tag "new_signal" then Some (dataOf event) else None
  | None => None
  end.

(** The entry a message adds to the market-updates buffer, if any. *)
Definition marketEntry (event : MessageEvent) : option JSValue :=
  match event, tagOf event with
  | wellformed message, Some tag =>
      if String.eqb tag "MARKET_UPDATE" then Some message else None
  | _, _ => None
  end.

(** The entry a message adds to a guarded buffer ([tracked_transfer],
    [channel_message]), if any. *)
Definition guardedEntry (label : string) (event : MessageEvent) : option JSValue :=
  match tagOf event with
  | Some tag =>
      if String.eqb tag label && truthy (dataOf event)
      then Some (dataOf event) else None
  | None => None
  end.

(** Mixed traffic: signals, prices, an unknown message, a malformed one, a
    transfer without payload. *)
Definition mixedInbox : list Inbound :=
  [newSignal 1%float; btcPrice 65000%float; (fun _ => "", malformed);
   newSignal 2%float; (fun _ => "", wellformed unknownMessage);
   (fun _ => "", wellformed emptyTransfer); newSignal 3%float].

(** The production page with the API origin spelled with its REST prefix and
    a trailing slash. *)
Definition prefixedApiEnv : Env :=
  {| window := Some samplePage;
     NEXT_PUBLIC_WS_URL := None;
     NEXT_PUBLIC_API_URL := Some "https://api.example.com/api/v1/";
     WebSocket_accepts := sampleAccepts |}.

(** ** Query strings *)

(** The characters [encodeURIComponent] can produce. *)
Definition querySafe (c : ascii) : bool := uriUnreserved c || Ascii.eqb c "%".

Definition hexValue (c : ascii) : nat :=
  let n := nat_of_ascii c in
  if (n <? 58)%nat then n - 48 else n - 55.

(** Reading a percent-encoded string back, as the server does with the query
    string. *)
Fixpoint percentDecode (s : string) : string :=
  match s with
  | EmptyString => EmptyString
  | String c rest =>
      if Ascii.eqb c "%" then
        match rest with
        | String hi (String lo rest') =>
            String (ascii_of_nat (16 * hexValue hi + hexValue lo))
                   (percentDecode rest')
        | _ => s
        end
      else String c (percentDecode rest)
  end.

(** ** The API client's token store

    [lib/api.ts]: the token lives in [localStorage] under one fixed key, which
    the world keeps as [authToken]. *)

(** [setAuthToken(token)] *)
Definition setAuthToken (e : Env) (token : option string) (w : World) : World :=
  match window e with
  | None => w
  | Some _ =>
      if envTruthy token then set_authToken token w
      else set_authToken None w
  end.


(** ** The API client's requests

    [fetchApi] of [lib/api.ts], in three parts: the URL it asks for, the
    headers it sends, and what it makes of the response. *)

(** [process.env.NEXT_PUBLIC_API_URL || "/api/v1"] *)
Definition API_BASE (e : Env) : string :=
  if envTruthy (NEXT_PUBLIC_API_URL e) then envOrEmpty (NEXT_PUBLIC_API_URL e)
  else "/api/v1".

(** [path.replace(/^\/api\/v1/, "")] *)
Definition stripApiPrefix (path : string) : string :=
  if startsWith path "/api/v1" then sliceFrom 7 path else path.

Definition fetchApi_url (e : Env) (endpoint : string) : string :=
  let base := if endsWith (API_BASE e) "/" then dropRight 1 (API_BASE e)
              else API_BASE e in
  let path := if startsWith endpoint "/" then endpoint else "/" +:+ endpoint in
  if startsWith endpoint "http" then endpoint
  else base +:+ stripApiPrefix path.

(** The headers object: the default content type, the caller's headers spread
    over it, then the bearer token when there is one. [callerHeaders] is
    [options?.headers] as a record, empty when absent. *)
Definition fetchApi_headers (e : Env) (w : World)
    (callerHeaders : gmap string string) : gmap string string :=
  let token := getAuthToken e w in
  let headers := callerHeaders ∪ {["Content-Type" := "application/json"]} in
  if envTruthy token
  then <["Authorization" := "Bearer " +:+ envOrEmpty token]> headers
  else headers.

(** What [fetch] resolved with: [json] is the outcome of [response.json()]. *)
Record Response : Type := {
  ok : bool;
  status : Z;
  statusText : string;
  json : Completion JSValue
}.

(** Whether an object has an own property [key]. *)
Definition hasOwnProperty (fields : list (string * JSValue)) (key : string)
  : bool :=
  existsb (fun kv => String.eqb (fst kv) key) fields.

(** [String(v)] for a value that came out of [JSON.parse]; this is what the
    constructor of [Error] does with the message it is given.
    [Number_toString] is the runtime's printing of a number. A plain object
    prints as [[object Object]], unless it has an own [toString] property:
    that property is JSON data, not a function, so the conversion finds
    nothing it can call and throws. An array joins the conversions of its
    elements with commas, a [null] element giving the empty string. *)
Fixpoint ToString (Number_toString : float -> string) (v : JSValue)
  : Completion string :=
  match v with
  | JUndefined => Normal "undefined"
  | JNull => Normal "null"
  | JBool b => Normal (if b then "true" else "false")
  | JNum x => Normal (Number_toString x)
  | JStr s => Normal s
  | JArr items =>
      (fix join (l : list JSValue) : Completion string :=
         match l with
         | [] => Normal ""
         | x :: rest =>
             let! first := (if isNullish x then Normal ""
                            else ToString Number_toString x) in
             match rest with
             | [] => Normal first
             | _ :: _ =>
                 let! others := join rest in
                 Normal (first +:+ "," +:+ others)
             end
         end) items
  | JObj fields =>
      if hasOwnProperty fields "toString" then Throw TypeError
      else Normal "[object Object]"
  end.

(** How the promise [fetchApi] returns settles. [ApiError] extends [Error],
    whose constructor turns the message it is handed into a string. *)
Inductive Settled : Type :=
| resolved (value : JSValue)
| rejected_ApiError (message : string) (code : Z)
| rejected (e : JSError).

Definition fetchApi_response (Number_toString : float -> string)
    (response : Response) : Settled :=
  if ok response then
    match json response with
    | Normal value => resolved value
    | Throw err => rejected err
    end
  else
    let errorData := match json response with
                     | Normal value => value
                     | Throw _ => JObj [("detail", JStr "Unknown error")]
                     end in
    match getProp errorData "detail" with
    | Throw err => rejected err
    | Normal detail =>
        match ToString Number_toString
                (if truthy detail then detail
                 else JStr (statusText response)) with
        | Normal message => rejected_ApiError message (status response)
        | Throw err => rejected err
        end
    end.

(** A failure with a message, a validation failure as the backend's
    framework reports it (a list of error objects), and a failure whose body
    is the JSON value [null]. *)
Definition validationFailure : Response :=
  {| ok := false; status := 422; statusText := "Unprocessable Entity";
     json := Normal (JObj [("detail", JStr "limit must be positive")]) |}.

Definition fieldErrors : Response :=
  {| ok := false; status := 422; statusText := "Unprocessable Entity";
     json := Normal (JObj [("detail",
               JArr [JObj [("loc", JArr [JStr "query"; JStr "limit"]);
                           ("msg", JStr "value is not a valid integer")]])]) |}.

Definition nullFailure : Response :=
  {| ok := false; status := 500; statusText := "Internal Server Error";
     json := Normal JNull |}.

(** A printing of numbers for the samples, none of which prints one. *)
Definition samplePrinting (x : float) : string := "0".

(** ** Charts over the signals buffer

    [SignalStreamChart] and [ConfidenceChart] read [signals] from the
    provider and compute their chart data in a [useMemo]. *)

(** How the browser's time zone reads a timestamp: [getHours ts] is
    [`${new Date(ts).getHours()}`] and [getMinutes ts] is
    [new Date(ts).getMinutes().toString().padStart(2, '0')] (both are [NaN]
    for a value that is not a date). *)
Record LocalTime : Type := {
  getHours : JSValue -> string;
  getMinutes : JSValue -> string
}.

(** The key of a signal's bucket. It always holds a colon, so it is never an
    array index and never a property of [Object.prototype]: the keys of
    [signalsByTime] are enumerated in insertion order, and a key is present
    exactly when it was inserted. *)
Definition minuteKey (tz : LocalTime) (timestamp : JSValue) : string :=
  getHours tz timestamp +:+ ":" +:+ getMinutes tz timestamp.

Record Tally : Type := { bullish : nat; bearish : nat; neutral : nat }.

Definition zeroTally : Tally := {| bullish := 0; bearish := 0; neutral := 0 |}.

(** [v === name] for a string literal [name] *)
Definition isString (v : JSValue) (name : string) : bool :=
  match v with
  | JStr s => String.eqb s name
  | _ => false
  end.

Definition increment (sentiment : JSValue) (t : Tally) : Tally :=
  if isString sentiment "BULLISH" then
    {| bullish := S (bullish t); bearish := bearish t; neutral := neutral t |}
  else if isString sentiment "BEARISH" then
    {| bullish := bullish t; bearish := S (bearish t); neutral := neutral t |}
  else
    {| bullish := bullish t; bearish := bearish t; neutral := S (neutral t) |}.

(** One round of the [forEach]: create the bucket when the key is new (at
    the end of the object), then count the signal in it. *)
Fixpoint countAt (key : string) (sentiment : JSValue)
    (signalsByTime : list (string * Tally)) : list (string * Tally) :=
  match signalsByTime with
  | [] => [(key, increment sentiment zeroTally)]
  | (k, t) :: rest =>
      if String.eqb k key then (k, increment sentiment t) :: rest
      else (k, t) :: countAt key sentiment rest
  end.

Fixpoint groupByMinute (tz : LocalTime) (signalsByTime : list (string * Tally))
    (recentSignals : list JSValue) : Completion (list (string * Tally)) :=
  match recentSignals with
  | [] => Normal signalsByTime
  | signal :: rest =>
      let! timestamp := getProp signal "timestamp" in
      let! sentiment := getProp signal "sentiment" in
      groupByMinute tz (countAt (minuteKey tz timestamp) sentiment signalsByTime)
                    rest
  end.

(** [signalsByTime[key]] *)
Fixpoint lookupBucket (key : string) (signalsByTime : list (string * Tally))
  : option Tally :=
  match signalsByTime with
  | [] => None
  | (k, t) :: rest => if String.eqb k key then Some t else lookupBucket key rest
  end.

(** [l.slice(-n)]: the last [n] elements, and the whole of [l] for [n = 0]. *)
Definition sliceLast {A : Type} (n : nat) (l : list A) : list A :=
  if (n =? 0)%nat then l else lastN n l.

Record ChartData : Type := {
  labels : list string;
  bullishData : list nat;
  bearishData : list nat;
  neutralData : list nat
}.

(** [chartData] of [SignalStreamChart] *)
Definition streamChartData (tz : LocalTime) (maxPoints : nat)
    (signals : list JSValue) : Completion ChartData :=
  let! signalsByTime := groupByMinute tz [] (take 50 signals) in
  let labels := sliceLast maxPoints (signalsByTime.*1) in
  let data := (fun key => lookupBucket key signalsByTime) <$> labels in
  Normal {| labels := labels;
            bullishData := from_option bullish 0 <$> data;
            bearishData := from_option bearish 0 <$> data;
            neutralData := from_option neutral 0 <$> data |}.


Definition tallyTotal (t : Tally) : nat := bullish t + bearish t + neutral t.

Definition bucketsTotal (signalsByTime : list (string * Tally)) : nat :=
  sum_list (tallyTotal <$> signalsByTime.*2).

(** [signals.slice(0, maxPoints).reverse()] of [ConfidenceChart] *)
Definition recentSignals (maxPoints : nat) (signals : list JSValue)
  : list JSValue :=
  reverse (take maxPoints signals).

Fixpoint mapC {A B : Type} (f : A -> Completion B) (l : list A)
  : Completion (list B) :=
  match l with
  | [] => Normal []
  | x :: rest =>
      let! y := f x in
      let! ys := mapC f rest in
      Normal (y :: ys)
  end.

(** The data of the confidence series: a flat placeholder while there is no
    signal. *)
Definition confidenceData (maxPoints : nat) (signals : list JSValue)
  : Completion (list JSValue) :=
  match recentSignals maxPoints signals with
  | [] => Normal (replicate 10 (JNum 0.5%float))
  | recent => mapC (fun s => getProp s "confidence_score") recent
  end.

(** The index the tooltip reads for the point [dataIndex]:
    [signals.length - 1 - context.dataIndex]. *)
Definition tooltipIndex (signals : list JSValue) (dataIndex : nat) : Z :=
  (Z.of_nat (length signals) - 1 - Z.of_nat dataIndex)%Z.

(** The signal whose token and sentiment the tooltip shows, if any. *)
Definition tooltipSignal (signals : list JSValue) (dataIndex : nat)
  : option JSValue :=
  let index := tooltipIndex signals dataIndex in
  let signal := if (index <? 0)%Z then JUndefined
                else default JUndefined (signals !! Z.to_nat index) in
  if truthy signal then Some signal else None.

(** A browser in UTC, reading the hours and minutes off a string timestamp
    in ISO form whose hour has two digits (the samples use no other). *)
Definition utc : LocalTime :=
  {| getHours := fun ts => match ts with
                           | JStr s => substring 11 2 s
                           | _ => "NaN"
                           end;
     getMinutes := fun ts => match ts with
                             | JStr s => substring 14 2 s
                             | _ => "NaN"
                             end |}.

(** A signal of the given sentiment seen at the given time. *)
Definition signalAt (timestamp sentiment : string) : JSValue :=
  JObj [("token_symbol", JStr "BTC"); ("sentiment", JStr sentiment);
        ("confidence_score", JNum 0.5%float); ("timestamp", JStr timestamp)].

(** Four signals over three minutes, newest first. *)
Definition threeMinutes : list JSValue :=
  [signalAt "2024-01-01T12:02:10Z" "BULLISH";
   signalAt "2024-01-01T12:01:30Z" "BEARISH";
   signalAt "2024-01-01T12:01:05Z" "BULLISH";
   signalAt "2024-01-01T12:00:40Z" "NEUTRAL"].

(** ** The page links of a data table

    [DataTablePagination]: the links it shows for [page] out of
    [totalPages] (it renders nothing unless there are at least two pages). *)

Inductive PageItem : Type :=
| pageNo (p : Z)
| ellipsis.

(** [getPageNumbers()] *)
Definition getPageNumbers (page totalPages : Z) : list PageItem :=
  let showMax := 5%Z in
  if (totalPages <=? showMax)%Z then pageNo <$> seqZ 1 totalPages
  else
    let left := Z.max 2 (page - 1) in
    let right := Z.min (totalPages - 1) (page + 1) in
    [pageNo 1]
    ++ (if (2 <? left)%Z then [ellipsis] else [])
    ++ (pageNo <$> seqZ left (right - left + 1))
    ++ (if (right <? totalPages - 1)%Z then [ellipsis] else [])
    ++ [pageNo totalPages].

(** The targets of the Previous and Next links. *)
Definition previousPage (page : Z) : Z := Z.max 1 (page - 1).

Definition nextPage (page totalPages : Z) : Z := Z.min totalPages (page + 1).

(** The links read as a range of pages: neighbouring numbers are
    consecutive, an ellipsis stands exactly where pages are left out, and
    the row starts and ends with a number. *)
Fixpoint gapsMarked (items : list PageItem) : bool :=
  match items with
  | [pageNo _] => true
  | pageNo a :: ((pageNo b :: _) as rest) =>
      (b =? a + 1)%Z && gapsMarked rest
  | pageNo a :: ellipsis :: ((pageNo b :: _) as rest) =>
      (a + 1 <? b)%Z && gapsMarked rest
  | _ => false
  end.

(** ** The tracked-token card

    [getTokenDisplayData] of the notifications page merges the provider's
    live prices with the prices fetched over REST; both maps are keyed by
    upper-cased symbol. *)








(** ** The runtime of the samples

    The strings of the sample messages are ASCII, so the case mapping the
    samples run with is never consulted. *)

#[global] Instance sampleCaseMapping : CaseMapping := fun s => s.

(** ** Proof automation *)

(** Decide the comparisons of the [switch] once the tag is known. *)
Ltac eval_tags :=
  repeat match goal with
         | |- context [String.eqb ?a ?b] =>
             let v := eval vm_compute in (String.eqb a b) in
             change (String.eqb a b) with v
         end;
  cbv iota.

Ltac enter_case Hty :=
  unfold handleMessage, handleMessage_try;
  cbn [JSON_parse bindC]; rewrite Hty; cbn [bindC]; eval_tags.

(** Contradictory outcomes of the tag comparisons and property reads. *)
Ltac clash_tags :=
  repeat match goal with
         | H : String.eqb _ _ = true |- _ => apply String.eqb_eq in H
         end;
  subst; try discriminate; try congruence;
  try match goal with
      | H1 : getProp ?m _ = Normal _, H2 : getProp ?m _ = Throw _ |- _ =>
          destruct m; discriminate
      end.

(** * Properties *)

(** ** [clearSignals] *)

(** C8. [clearSignals] empties the signals, market-updates and
    channel-messages buffers and changes nothing else: the connected flag,
    sentiment, trending, tracked prices, tracked transfers and price history
    keep their values, and so do the refs (socket handle, retry counter,
    timer handles) and the browser side (sockets, timers). *)
Theorem clearSignals_frame (w : World) :
  signals (state (clearSignals w)) = [] /\
  marketUpdates (state (clearSignals w)) = [] /\
  channelMessages (state (clearSignals w)) = [] /\
  isConnected (state (clearSignals w)) = isConnected (state w) /\
  sentiment (state (clearSignals w)) = sentiment (state w) /\
  trending (state (clearSignals w)) = trending (state w) /\
  trackedPrices (state (clearSignals w)) = trackedPrices (state w) /\
  trackedTransfers (state (clearSignals w)) = trackedTransfers (state w) /\
  priceHistory (state (clearSignals w)) = priceHistory (state w) /\
  refs (clearSignals w) = refs w /\
  browser (clearSignals w) = browser w.
Proof. repeat split. Qed.

(** ** [sendCommand] *)

Lemma currentIsOpen_true (w : World) :
  currentIsOpen w = true ->
  exists id ws, wsRef (refs w) = Some id /\ sockets (browser w) !! id = Some ws
                /\ currentSocket w = Some ws /\ readyState ws = OPEN.
Proof.
  unfold currentIsOpen, currentSocket.
  destruct (wsRef (refs w)) as [id|]; [|discriminate].
  destruct (sockets (browser w) !! id) as [ws|] eqn:Hws; [|discriminate].
  destruct (readyState ws) eqn:Hrs; try discriminate.
  intros _. exists id, ws. auto.
Qed.

(** C4. [sendCommand] never throws. While the current socket is not open
    (or there is none) it returns the world it was given: no buffer, ref,
    socket or timer changes and the command is not kept anywhere. When the
    current socket is open, the command is appended to that socket's sent
    frames and nothing else changes. *)
Theorem sendCommand_only_when_open (command : WebSocketCommand) (w : World) :
  (exists w', sendCommand command w = Normal w') /\
  (currentIsOpen w = false -> sendCommand command w = Normal w) /\
  (currentIsOpen w = true ->
     exists id ws w',
       wsRef (refs w) = Some id /\
       sockets (browser w) !! id = Some ws /\
       sendCommand command w = Normal w' /\
       sockets (browser w')
         = <[id := {| url := url ws; readyState := OPEN;
                      sent := sent ws ++ [command] |}]> (sockets (browser w)) /\
       state w' = state w /\ refs w' = refs w /\
       timers (browser w') = timers (browser w)).
Proof.
  unfold sendCommand.
  destruct (currentIsOpen w) eqn:Hopen.
  - destruct (currentIsOpen_true w Hopen) as (id & ws & Href & Hws & Hcur & Hrs).
    rewrite Href, Hcur. unfold socket_send. rewrite Hrs. simpl.
    split; [eauto|]. split; [discriminate|].
    intros _. exists id, ws. eexists. repeat split; eauto.
  - split; [eauto|]. split; [reflexivity|discriminate].
Qed.

Lemma sendCommand_only_when_open_witness :
  currentIsOpen connectingWorld = false /\
  sendCommand (subscribe_cmd token "BTC") connectingWorld = Normal connectingWorld.
Proof.
  split; [reflexivity|].
  apply (proj1 (proj2 (sendCommand_only_when_open
                         (subscribe_cmd token "BTC") connectingWorld))).
  reflexivity.
Defined.

(** ** [connect] and the open event *)

Lemma onopen_effect (w : World) :
  reconnectAttempts (refs (onopen w)) = 0%Z /\
  isConnected (state (onopen w)) = true /\
  pingInterval (refs (onopen w)) = Some (length (timers (browser w))) /\
  timers (browser (onopen w))
    = timers (browser w) ++ [{| repeating := true; callback := send_ping;
                                delay := 30000; active := true |}].
Proof. repeat split. Qed.

(** What [sendCommand] does on an open socket: one frame more on the current
    socket, and nothing else. *)
Lemma sendCommand_open (command : WebSocketCommand) (w : World) (id : nat)
    (ws : WebSocket) :
  wsRef (refs w) = Some id ->
  sockets (browser w) !! id = Some ws ->
  readyState ws = OPEN ->
  exists w',
    sendCommand command w = Normal w' /\
    sockets (browser w')
      = <[id := {| url := url ws; readyState := OPEN;
                   sent := sent ws ++ [command] |}]> (sockets (browser w)) /\
    state w' = state w /\ refs w' = refs w /\
    timers (browser w') = timers (browser w).
Proof.
  intros Href Hws Hopen. unfold sendCommand, currentIsOpen, currentSocket.
  rewrite Href, Hws, Hopen. unfold socket_send. rewrite Hopen. simpl.
  eexists. repeat split; reflexivity.
Qed.

(** C7. [connect] returns the world unchanged when the current socket is
    open. Every open event the browser delivers leaves the retry counter at
    zero and the connected flag set, and arms a repeating timer of 30000 ms
    whose handle is stored in [pingInterval] and whose firing is
    [sendCommand] of the ping command. When the socket that opens is the
    provider's current one, each firing of that timer writes one ping frame
    to that socket, changes nothing else, and leaves the timer armed for the
    next 30 seconds. *)
Theorem connect_noop_and_open_event {unicode : CaseMapping} (e : Env)
    (w : World) :
  (currentIsOpen w = true -> connect e w = w) /\
  (forall id w', step e (ev_open id) w = Some w' ->
     reconnectAttempts (refs w') = 0%Z /\
     isConnected (state w') = true /\
     exists h,
       pingInterval (refs w') = Some h /\
       timers (browser w') !! h
         = Some {| repeating := true; callback := send_ping;
                   delay := 30000; active := true |} /\
       step e (ev_timer h) w' = Some (settle w' (sendCommand ping_cmd w')) /\
       (wsRef (refs w) = Some id ->
        exists ws w'',
          sockets (browser w') !! id = Some ws /\
          readyState ws = OPEN /\
          step e (ev_timer h) w' = Some w'' /\
          sockets (browser w'')
            = <[id := {| url := url ws; readyState := OPEN;
                         sent := sent ws ++ [ping_cmd] |}]>
                (sockets (browser w')) /\
          state w'' = state w' /\ refs w'' = refs w' /\
          timers (browser w'') = timers (browser w'))).
Proof.
  split.
  - intros Hopen. unfold connect. now rewrite Hopen.
  - intros id w' Hstep. simpl in Hstep.
    destruct (sockets (browser w) !! id) as [ws|] eqn:Hws; [|discriminate].
    destruct (readyState ws); try discriminate.
    injection Hstep as <-.
    set (w0 := with_sockets _ w).
    destruct (onopen_effect w0) as (Hatt & Hconn & Hping & Htimers).
    split; [exact Hatt|]. split; [exact Hconn|].
    exists (length (timers (browser w0))).
    split; [exact Hping|].
    assert (Hlk : timers (browser (onopen w0)) !! length (timers (browser w0))
                  = Some {| repeating := true; callback := send_ping;
                            delay := 30000; active := true |}).
    { rewrite Htimers. now apply list_lookup_middle. }
    split; [exact Hlk|].
    assert (Hfire : step e (ev_timer (length (timers (browser w0)))) (onopen w0)
                    = Some (settle (onopen w0)
                              (sendCommand ping_cmd (onopen w0)))).
    { unfold step. rewrite Hlk. reflexivity. }
    split; [exact Hfire|].
    intros Hcurrent.
    assert (Hsocket : sockets (browser (onopen w0)) !! id
                      = Some (set_readyState OPEN ws)).
    { change (sockets (browser (onopen w0)))
        with (alter (set_readyState OPEN) id (sockets (browser w))).
      now rewrite list_lookup_alter_eq, Hws. }
    destruct (sendCommand_open ping_cmd (onopen w0) id
                (set_readyState OPEN ws) Hcurrent Hsocket eq_refl)
      as (w'' & Hsend & Hsockets & Hstate & Hrefs & Hkept).
    exists (set_readyState OPEN ws), w''.
    split; [exact Hsocket|]. split; [reflexivity|].
    split; [now rewrite Hfire, Hsend|].
    split; [exact Hsockets|]. split; [exact Hstate|].
    split; [exact Hrefs|exact Hkept].
Qed.

Lemma connect_noop_and_open_event_witness :
  connect sampleEnv openWorld = openWorld /\
  reconnectAttempts (refs openWorld) = 0%Z /\
  isConnected (state openWorld) = true /\
  exists w'',
    step sampleEnv (ev_timer 0) openWorld = Some w'' /\
    sent <$> sockets (browser w'') !! 0 = Some [ping_cmd].
Proof.
  split.
  - apply (proj1 (connect_noop_and_open_event sampleEnv openWorld)). reflexivity.
  - destruct (proj2 (connect_noop_and_open_event sampleEnv connectingWorld)
                0 openWorld eq_refl)
      as (Hatt & Hconn & h & Hping & _ & _ & Hbeat).
    split; [exact Hatt|]. split; [exact Hconn|].
    injection Hping as <-.
    destruct (Hbeat eq_refl) as (ws & w'' & Hws & _ & Hfire & Hsockets & _).
    exists w''. split; [exact Hfire|].
    rewrite Hsockets.
    vm_compute in Hws. injection Hws as <-. reflexivity.
Defined.

(** ** [handleMessage]: what is dropped *)

Lemma handled_tag (tag : string) :
  tag ∉ handledTypes ->
  String.eqb tag "connected" = false /\
  String.eqb tag "new_signal" = false /\
  String.eqb tag "MARKET_UPDATE" = false /\
  String.eqb tag "sentiment_update" = false /\
  String.eqb tag "trending_update" = false /\
  String.eqb tag "tracked_price_update" = false /\
  String.eqb tag "tracked_transfer" = false /\
  String.eqb tag "notification" = false /\
  String.eqb tag "channel_message" = false /\
  String.eqb tag "monitoring_status" = false /\
  String.eqb tag "pong" = false /\
  String.eqb tag "error" = false.
Proof.
  intros Hnot.
  repeat split; apply String.eqb_neq; intros ->; apply Hnot;
    unfold handledTypes; set_solver.
Qed.

Lemma handleMessage_returns {unicode : CaseMapping}
    (clock : nat -> string) (event : MessageEvent)
    (w : World) :
  exists w', handleMessage clock event w = Normal w'.
Proof.
  unfold handleMessage.
  destruct (handleMessage_try clock event w); eauto.
Qed.

(** C5. [handleMessage] returns normally on every event. When the payload
    does not parse, the only effect is one line on the error console: React
    state, refs, sockets and timers are those the handler was entered with.
    When the payload parses and its [type] is none of the [case] labels
    (whether a string or not), the world is returned unchanged. *)
Theorem handleMessage_drops {unicode : CaseMapping}
    (clock : nat -> string) (w : World) :
  (forall event, exists w', handleMessage clock event w = Normal w') /\
  (exists w',
     handleMessage clock malformed w = Normal w' /\
     console (browser w') = console (browser w) ++ [error_parse SyntaxError] /\
     state w' = state w /\ refs w' = refs w /\
     sockets (browser w') = sockets (browser w) /\
     timers (browser w') = timers (browser w)) /\
  (forall message ty,
     getProp message "type" = Normal ty ->
     (forall tag, ty = JStr tag -> tag ∉ handledTypes) ->
     handleMessage clock (wellformed message) w = Normal w).
Proof.
  split; [intros event; apply handleMessage_returns|].
  split.
  - eexists. split; [reflexivity|]. repeat split.
  - intros message ty Hty Hunknown.
    unfold handleMessage, handleMessage_try.
    cbn [JSON_parse bindC]. rewrite Hty. cbn [bindC].
    destruct ty; try reflexivity.
    destruct (handled_tag s (Hunknown s eq_refl))
      as (H1 & H2 & H3 & H4 & H5 & H6 & H7 & H8 & H9 & H10 & H11 & H12).
    now rewrite H1, H2, H3, H4, H5, H6, H7, H8, H9, H10, H11, H12.
Qed.

Lemma handleMessage_drops_witness :
  handleMessage (fun _ => "") (wellformed unknownMessage) openWorld
  = Normal openWorld.
Proof.
  apply (proj2 (proj2 (handleMessage_drops (fun _ => "") openWorld))
           unknownMessage (JStr "subscribed")).
  - reflexivity.
  - intros tag Htag. injection Htag as <-.
    unfold handledTypes. rewrite !elem_of_cons, elem_of_nil.
    intros H. repeat (destruct H as [H|H]; [discriminate H|]). exact H.
Defined.

(** ** The endpoint URL *)

Lemma substring_all (s : string) : substring 0 (String.length s) s = s.
Proof. induction s as [|c s IH]; simpl; [reflexivity|now rewrite IH]. Qed.

Lemma sliceFrom_https (rest : string) : sliceFrom 8 ("https://" +:+ rest) = rest.
Proof. unfold sliceFrom. simpl. rewrite Nat.sub_0_r. apply substring_all. Qed.

Lemma sliceFrom_http (rest : string) : sliceFrom 7 ("http://" +:+ rest) = rest.
Proof. unfold sliceFrom. simpl. rewrite Nat.sub_0_r. apply substring_all. Qed.

(** The URL when only the API origin decides: the scheme follows the API
    origin's scheme, whatever the page's protocol. *)
Lemma getWebSocketUrl_api_https (e : Env) (location : Location) (rest : string) :
  window e = Some location ->
  envTruthy (NEXT_PUBLIC_WS_URL e) = false ->
  NEXT_PUBLIC_API_URL e = Some ("https://" +:+ rest) ->
  getWebSocketUrl e = trimBase ("wss://" +:+ rest) +:+ streamPath.
Proof.
  intros Hwin Hws Hapi. unfold getWebSocketUrl. rewrite Hwin, Hws, Hapi.
  cbn [envOrEmpty].
  replace (startsWith ("https://" +:+ rest) "http") with true by reflexivity.
  replace (startsWith ("https://" +:+ rest) "https") with true by reflexivity.
  unfold replaceScheme.
  replace (startsWith ("https://" +:+ rest) "https://") with true
    by (destruct rest; reflexivity).
  now rewrite sliceFrom_https.
Qed.

Lemma getWebSocketUrl_api_http (e : Env) (location : Location) (rest : string) :
  window e = Some location ->
  envTruthy (NEXT_PUBLIC_WS_URL e) = false ->
  NEXT_PUBLIC_API_URL e = Some ("http://" +:+ rest) ->
  getWebSocketUrl e = trimBase ("ws://" +:+ rest) +:+ streamPath.
Proof.
  intros Hwin Hws Hapi. unfold getWebSocketUrl. rewrite Hwin, Hws, Hapi.
  cbn [envOrEmpty].
  replace (startsWith ("http://" +:+ rest) "http") with true by reflexivity.
  replace (startsWith ("http://" +:+ rest) "https") with false by reflexivity.
  unfold replaceScheme.
  replace (startsWith ("http://" +:+ rest) "https://") with false by reflexivity.
  replace (startsWith ("http://" +:+ rest) "http://") with true
    by (destruct rest; reflexivity).
  now rewrite sliceFrom_http.
Qed.

(** C9, as stated, fails: with the API origin configured as an absolute
    plain-http URL, a page served over https connects to a [ws://] URL; and
    with nothing configured, a page on [localhost:3000] connects to
    [localhost:8000], not to its own host. *)
Lemma scheme_does_not_follow_page :
  protocol samplePage = "https:" /\
  getWebSocketUrl sampleEnv = "ws://api.example.com/api/v1/live/stream" /\
  host devPage = "localhost:3000" /\
  getWebSocketUrl devEnv = "ws://localhost:8000/api/v1/live/stream" /\
  ~ scheme_follows_page.
Proof.
  split; [reflexivity|]. split; [reflexivity|].
  split; [reflexivity|]. split; [reflexivity|].
  intros Hclaim.
  destruct (Hclaim sampleEnv samplePage eq_refl) as [_ Hback].
  specialize (Hback eq_refl). discriminate Hback.
Qed.

(** C9, amended. In the browser, an explicitly configured WebSocket URL is
    used as it is. Without one, an API origin given as an absolute http(s)
    URL provides the host, and the scheme is [wss] exactly when that origin
    is https (not when the page is); one trailing slash and a trailing
    [/api/v1] are dropped before the stream path is appended. With neither,
    a page on localhost connects to [ws://localhost:8000], and any other page
    to its own host, with [wss] exactly when the page's protocol is https.
    [connect] opens that URL, with [?token=] and the URI-encoded auth token
    appended when a non-empty token is stored. *)
Theorem getWebSocketUrl_derivation (e : Env) (location : Location) (w : World) :
  window e = Some location ->
  (envTruthy (NEXT_PUBLIC_WS_URL e) = true ->
     getWebSocketUrl e = envOrEmpty (NEXT_PUBLIC_WS_URL e)) /\
  (envTruthy (NEXT_PUBLIC_WS_URL e) = false ->
     (forall rest, NEXT_PUBLIC_API_URL e = Some ("https://" +:+ rest) ->
        getWebSocketUrl e = trimBase ("wss://" +:+ rest) +:+ streamPath) /\
     (forall rest, NEXT_PUBLIC_API_URL e = Some ("http://" +:+ rest) ->
        getWebSocketUrl e = trimBase ("ws://" +:+ rest) +:+ streamPath) /\
     (startsWith (envOrEmpty (NEXT_PUBLIC_API_URL e)) "http" = false ->
        (hostname location = "localhost" \/ hostname location = "127.0.0.1" ->
           getWebSocketUrl e = "ws://localhost:8000/api/v1/live/stream") /\
        (hostname location <> "localhost" -> hostname location <> "127.0.0.1" ->
           (protocol location = "https:" ->
              getWebSocketUrl e = "wss://" +:+ host location +:+ streamPath) /\
           (protocol location <> "https:" ->
              getWebSocketUrl e = "ws://" +:+ host location +:+ streamPath)))) /\
  (currentIsOpen w = false ->
     WebSocket_accepts e (buildWsUrl e (authToken (browser w))) = true ->
     exists wsUrl,
       sockets (browser (connect e w))
         = sockets (browser w)
             ++ [{| url := wsUrl; readyState := CONNECTING; sent := [] |}] /\
       wsRef (refs (connect e w)) = Some (length (sockets (browser w))) /\
       (forall tok, authToken (browser w) = Some tok -> tok <> "" ->
          wsUrl = getWebSocketUrl e +:+ "?token=" +:+ encodeURIComponent tok) /\
       (authToken (browser w) = None \/ authToken (browser w) = Some "" ->
          wsUrl = getWebSocketUrl e)).
Proof.
  intros Hwin. split; [|split].
  - intros Hws. unfold getWebSocketUrl. now rewrite Hwin, Hws.
  - intros Hws. split; [|split].
    + intros rest. now apply getWebSocketUrl_api_https with location.
    + intros rest. now apply getWebSocketUrl_api_http with location.
    + intros Hapi. unfold getWebSocketUrl. rewrite Hwin, Hws, Hapi. split.
      * intros [-> | ->]; reflexivity.
      * intros Hl1 Hl2.
        apply String.eqb_neq in Hl1. apply String.eqb_neq in Hl2.
        rewrite Hl1, Hl2. cbn [orb]. split.
        -- intros ->. reflexivity.
        -- intros Hp. apply String.eqb_neq in Hp. now rewrite Hp.
  - intros Hopen Hacc. unfold connect.
    rewrite Hopen. unfold getAuthToken. rewrite Hwin, Hacc.
    eexists. split; [reflexivity|]. split; [reflexivity|]. split.
    + intros tok -> Hne. unfold buildWsUrl. cbn [envTruthy envOrEmpty].
      destruct tok; [contradiction|reflexivity].
    + intros [-> | ->]; reflexivity.
Qed.

Lemma getWebSocketUrl_derivation_witness :
  getWebSocketUrl secureApiEnv = "wss://api.example.com/api/v1/live/stream" /\
  getWebSocketUrl sampleEnv = "ws://api.example.com/api/v1/live/stream" /\
  getWebSocketUrl fallbackEnv = "wss://app.example.com/api/v1/live/stream".
Proof.
  split; [|split].
  - destruct (getWebSocketUrl_derivation
                secureApiEnv samplePage (initialWorld None) eq_refl)
      as (_ & Hderive & _).
    destruct (Hderive eq_refl) as (Hsecure & _).
    exact (Hsecure "api.example.com" eq_refl).
  - destruct (getWebSocketUrl_derivation
                sampleEnv samplePage (initialWorld None) eq_refl)
      as (_ & Hderive & _).
    destruct (Hderive eq_refl) as (_ & Hplain & _).
    exact (Hplain "api.example.com" eq_refl).
  - destruct (getWebSocketUrl_derivation
                fallbackEnv samplePage (initialWorld None) eq_refl)
      as (_ & Hderive & _).
    destruct (Hderive eq_refl) as (_ & _ & Hpage).
    destruct (Hpage eq_refl) as (_ & Hother).
    refine (proj1 (Hother _ _) eq_refl); discriminate.
Defined.

(** ** [tracked_price_update] *)

Lemma handleMessage_price_update {unicode : CaseMapping}
    (clock : nat -> string) (message : JSValue)
    (tokens : list JSValue) (w : World) :
  isPriceUpdate message tokens ->
  handleMessage clock (wellformed message) w
  = Normal (setPriceHistory clock (JArr tokens) (setTrackedPrices (JArr tokens) w)).
Proof.
  intros (Hty & data & Hdata & Htokens). enter_case Hty.
  rewrite Hdata. cbn [bindC]. rewrite Htokens. reflexivity.
Qed.

Lemma hasSymbol_key {unicode : CaseMapping} (tok : JSValue) :
  hasSymbol tok ->
  exists s, getProp tok "symbol" = Normal (JStr s) /\
            symbolKey tok = Normal (toUpperCase s) /\
            getProp tok "price_usd" = Normal (priceOf tok).
Proof.
  intros [s Hs]. exists s. split; [exact Hs|]. split.
  - unfold symbolKey. now rewrite Hs.
  - unfold priceOf. destruct tok; try discriminate; reflexivity.
Qed.

Lemma upsertPrices_lookup {unicode : CaseMapping} (tokens : list JSValue) :
  Forall hasSymbol tokens ->
  forall updated : gmap string JSValue,
  exists updated',
    upsertPrices tokens updated = Normal updated' /\
    forall key,
      updated' !! key
      = match last (filter (fun tok => symbolKey tok = Normal key) tokens) with
        | Some tok => Some tok
        | None => updated !! key
        end.
Proof.
  induction 1 as [|tok tokens Htok _ IH]; intros updated.
  - exists updated. split; [reflexivity|]. intros key. reflexivity.
  - destruct (hasSymbol_key tok Htok) as (s & _ & Hkey & _).
    destruct (IH (<[toUpperCase s := tok]> updated)) as (updated' & Hrun & Hlk).
    exists updated'. split.
    + cbn [upsertPrices]. rewrite Hkey. exact Hrun.
    + intros key. rewrite Hlk.
      destruct (decide (toUpperCase s = key)) as [<- | Hne].
      * rewrite filter_cons_True by exact Hkey.
        rewrite last_cons, lookup_insert_eq.
        now destruct (last _).
      * rewrite filter_cons_False by (rewrite Hkey; congruence).
        now rewrite lookup_insert_ne.
Qed.

Lemma capHistory_lastN (arr : list PricePoint) : capHistory arr = lastN 500 arr.
Proof.
  unfold capHistory, lastN.
  destruct (Nat.ltb_spec 500 (length arr)) as [Hlt | Hge]; [reflexivity|].
  replace (length arr - 500) with 0 by lia. reflexivity.
Qed.

Lemma lastN_app_lastN {A : Type} (n : nat) (l r : list A) :
  lastN n (lastN n l ++ r) = lastN n (l ++ r).
Proof.
  unfold lastN. rewrite !length_app, length_drop.
  destruct (Nat.le_gt_cases (length l) n) as [Hle | Hgt].
  - replace (length l - n) with 0 by lia. now rewrite Nat.sub_0_r.
  - replace (length l - (length l - n) + length r - n) with (length r) by lia.
    replace (length l + length r - n) with ((length l - n) + length r) by lia.
    rewrite <- drop_drop. f_equal.
    rewrite drop_app_le by lia. reflexivity.
Qed.

Lemma lastN_short {A : Type} (n : nat) (l : list A) :
  length l <= n -> lastN n l = l.
Proof. intros Hle. unfold lastN. now replace (length l - n) with 0 by lia. Qed.

Lemma fmap_lastN {A B : Type} (f : A -> B) (n : nat) (l : list A) :
  f <$> lastN n l = lastN n (f <$> l).
Proof. unfold lastN. now rewrite fmap_drop, length_fmap. Qed.

Lemma appendHistory_lookup {unicode : CaseMapping}
    (clock : nat -> string) (tokens : list JSValue) :
  Forall hasSymbol tokens ->
  forall (k : nat) (next : gmap string (list PricePoint)),
  exists next',
    appendHistory clock k tokens next = Normal next' /\
    forall key,
      (filter (pricedAt key) tokens = [] -> next' !! key = next !! key) /\
      (filter (pricedAt key) tokens <> [] ->
         exists points,
           next' !! key = Some points /\
           p <$> points
           = lastN 500 ((p <$> default [] (next !! key))
                        ++ (priceOf <$> filter (pricedAt key) tokens))).
Proof.
  induction 1 as [|tok tokens Htok _ IH]; intros k next.
  - exists next. split; [reflexivity|]. intros key. split; [reflexivity|].
    intros Hne. now contradiction Hne.
  - destruct (hasSymbol_key tok Htok) as (s & _ & Hkey & Hprice).
    cbn [appendHistory]. rewrite Hkey, Hprice. cbn [bindC].
    destruct (isNullish (priceOf tok)) eqn:Hnull.
    + destruct (IH k next) as (next' & Hrun & Hlk).
      exists next'. split; [exact Hrun|]. intros key.
      rewrite filter_cons_False; [apply Hlk|].
      intros [_ Hpriced]. congruence.
    + set (point := {| t := clock k; p := priceOf tok |}).
      set (arr := default [] (next !! toUpperCase s) ++ [point]).
      destruct (IH (S k) (<[toUpperCase s := capHistory arr]> next))
        as (next' & Hrun & Hlk).
      exists next'. split; [exact Hrun|]. intros key.
      destruct (Hlk key) as [Hnone Hsome].
      destruct (decide (toUpperCase s = key)) as [<- | Hne].
      * rewrite filter_cons_True by (split; assumption).
        split; [discriminate|]. intros _.
        rewrite lookup_insert_eq in Hnone, Hsome. cbn [default from_option id] in Hsome.
        destruct (decide (filter (pricedAt (toUpperCase s)) tokens = []))
          as [Hnil | Hcons].
        -- exists (capHistory arr). split; [now apply Hnone|].
           rewrite Hnil, capHistory_lastN, fmap_lastN. unfold arr.
           now rewrite fmap_app.
        -- destruct (Hsome Hcons) as (points & Hpts & Hprices).
           exists points. split; [exact Hpts|]. rewrite Hprices.
           rewrite capHistory_lastN, fmap_lastN, lastN_app_lastN.
           unfold arr. rewrite fmap_app. cbn [fmap list_fmap].
           now rewrite <- app_assoc.
      * rewrite filter_cons_False by (intros [Hk _]; rewrite Hkey in Hk; congruence).
        rewrite lookup_insert_ne in Hnone, Hsome by exact Hne.
        split; assumption.
Qed.

Lemma setTrackedPrices_Normal {unicode : CaseMapping}
    (tokens : list JSValue) (w : World)
    (updated : gmap string JSValue) :
  upsertPrices tokens (trackedPrices (state w)) = Normal updated ->
  setTrackedPrices (JArr tokens) w = putTrackedPrices updated w.
Proof. intros H. unfold setTrackedPrices. cbn [iterate bindC]. now rewrite H. Qed.

Lemma setPriceHistory_Normal {unicode : CaseMapping}
    (clock : nat -> string) (tokens : list JSValue)
    (w : World) (next : gmap string (list PricePoint)) :
  appendHistory clock 0 tokens (priceHistory (state w)) = Normal next ->
  setPriceHistory clock (JArr tokens) w = putPriceHistory next w.
Proof. intros H. unfold setPriceHistory. cbn [iterate bindC]. now rewrite H. Qed.

Lemma filter_none {A : Type} (P : A -> Prop) `{forall x, Decision (P x)}
    (l : list A) :
  (forall x, x ∈ l -> ~ P x) -> filter P l = [].
Proof.
  induction l as [|x l IH]; intros Hnot; [reflexivity|].
  rewrite filter_cons_False by (apply Hnot; left).
  apply IH. intros y Hy. apply Hnot. now right.
Qed.

(** C10. For a [tracked_price_update] whose token entries are objects with
    a string [symbol]: every entry is filed in the price map under its
    symbol in upper case (what [toUpperCase] gives in the browser at hand;
    for an ASCII symbol, the symbol with [a-z] turned into [A-Z]), whether or
    not it carries a price, and the last entry of a key wins; only the keys
    of entries that carry a price
    ([price_usd] neither null nor missing) get points appended to their
    history, in the order of the entries and capped to the last 500; a key
    all of whose entries have a null price keeps its history as it was. *)
Theorem tracked_price_update_keys {unicode : CaseMapping}
    (clock : nat -> string) (message : JSValue)
    (tokens : list JSValue) (w : World) :
  isPriceUpdate message tokens ->
  Forall hasSymbol tokens ->
  exists w',
    handleMessage clock (wellformed message) w = Normal w' /\
    (forall tok s,
       tok ∈ tokens -> getProp tok "symbol" = Normal (JStr s) ->
       (isAscii s = true -> toUpperCase s = asciiUpperCase s) /\
       exists tok', trackedPrices (state w') !! toUpperCase s = Some tok' /\
                    tok' ∈ tokens /\ symbolKey tok' = Normal (toUpperCase s)) /\
    (forall key,
       trackedPrices (state w') !! key
       = match last (filter (fun tok => symbolKey tok = Normal key) tokens) with
         | Some tok => Some tok
         | None => trackedPrices (state w) !! key
         end) /\
    (forall key,
       (filter (pricedAt key) tokens = [] ->
          priceHistory (state w') !! key = priceHistory (state w) !! key) /\
       (filter (pricedAt key) tokens <> [] ->
          exists points,
            priceHistory (state w') !! key = Some points /\
            p <$> points
            = lastN 500 ((p <$> default [] (priceHistory (state w) !! key))
                         ++ (priceOf <$> filter (pricedAt key) tokens)))) /\
    ((forall tok, tok ∈ tokens -> isNullish (priceOf tok) = true) ->
       priceHistory (state w') = priceHistory (state w)).
Proof.
  intros Hmsg Hsyms.
  destruct (upsertPrices_lookup tokens Hsyms (trackedPrices (state w)))
    as (updated & Hup & Hprices).
  destruct (appendHistory_lookup clock tokens Hsyms 0 (priceHistory (state w)))
    as (next & Hap & Hhist).
  eexists. split.
  { rewrite (handleMessage_price_update _ _ _ _ Hmsg).
    rewrite (setTrackedPrices_Normal _ _ _ Hup).
    rewrite (setPriceHistory_Normal _ _ _ next) by exact Hap.
    reflexivity. }
  cbn. split; [|split; [exact Hprices|split; [exact Hhist|]]].
  - intros tok s Hin Hs.
    split; [intros Hascii; unfold toUpperCase; now rewrite Hascii|].
    rewrite Hprices.
    assert (Hkey : symbolKey tok = Normal (toUpperCase s))
      by (unfold symbolKey; now rewrite Hs).
    destruct (last (filter (fun tok0 => symbolKey tok0 = Normal (toUpperCase s))
                      tokens)) as [tok'|] eqn:Hlast.
    + exists tok'. split; [reflexivity|].
      apply last_Some in Hlast as [l' Hl'].
      assert (Hin' : tok' ∈ filter (fun tok0 => symbolKey tok0
                                      = Normal (toUpperCase s)) tokens)
        by (rewrite Hl'; apply elem_of_app; right; left).
      apply list_elem_of_filter in Hin' as [Hk Hin']. now split.
    + apply last_None in Hlast.
      exfalso. now apply (filter_nil_not_elem_of _ _ tok Hlast Hkey).
  - intros Hnull. apply map_eq. intros key.
    apply (proj1 (Hhist key)), filter_none.
    intros tok Hin [_ Hpriced]. rewrite (Hnull tok Hin) in Hpriced. discriminate.
Qed.

Lemma tracked_price_update_keys_witness :
  exists w',
    handleMessage (fun _ => "") (wellformed (priceUpdate "eth" JNull)) openWorld
    = Normal w' /\
    is_Some (trackedPrices (state w') !! "ETH") /\
    priceHistory (state w') = priceHistory (state openWorld).
Proof.
  destruct (tracked_price_update_keys (fun _ => "") (priceUpdate "eth" JNull)
              [JObj [("symbol", JStr "eth"); ("price_usd", JNull);
                     ("price_change_24h", JNull)]] openWorld)
    as (w' & Hrun & Hfiled & _ & _ & Hkeep).
  - split; [reflexivity|]. eexists. split; reflexivity.
  - repeat constructor. now exists "eth".
  - exists w'. split; [exact Hrun|]. split.
    + destruct (Hfiled _ "eth" (list_elem_of_here _ _) eq_refl)
        as (_ & tok' & Hlk & _).
      now exists tok'.
    + apply Hkeep. intros tok Hin. apply list_elem_of_singleton in Hin as ->.
      reflexivity.
Defined.

(** One token that carries a price: the entry replaces the symbol's entry in
    the price map and one point is pushed on the symbol's history. *)
Lemma handleMessage_single_price {unicode : CaseMapping}
    (clock : nat -> string) (message tok : JSValue)
    (s : string) (v : JSValue) (w : World) :
  isPriceUpdate message [tok] ->
  getProp tok "symbol" = Normal (JStr s) ->
  getProp tok "price_usd" = Normal v ->
  isNullish v = false ->
  handleMessage clock (wellformed message) w
  = Normal
      (putPriceHistory
         (<[toUpperCase s :=
              capHistory (default [] (priceHistory (state w) !! toUpperCase s)
                          ++ [{| t := clock 0; p := v |}])]>
            (priceHistory (state w)))
         (putTrackedPrices (<[toUpperCase s := tok]> (trackedPrices (state w))) w)).
Proof.
  intros Hmsg Hs Hv Hnull.
  rewrite (handleMessage_price_update _ _ _ _ Hmsg).
  unfold setTrackedPrices, setPriceHistory.
  cbn [iterate bindC upsertPrices appendHistory]. unfold symbolKey.
  rewrite Hs. cbn [bindC]. cbn [state putTrackedPrices with_state priceHistory].
  rewrite ?Hs, Hv. cbn [bindC]. rewrite Hnull. reflexivity.
Qed.

(** C6. A [tracked_price_update] for BTC at 65000 followed by one at 66000:
    the price map's entry for BTC is the second token (price 66000), and the
    history of BTC ends with the two points, 65000 before 66000; from an
    empty history it holds exactly these two. *)
Theorem btc_price_replaced_history_appended {unicode : CaseMapping}
    (clock1 clock2 : nat -> string) (message1 message2 tok1 tok2 : JSValue)
    (w : World) (history : list PricePoint) :
  isPriceUpdate message1 [tok1] ->
  isPriceUpdate message2 [tok2] ->
  getProp tok1 "symbol" = Normal (JStr "BTC") ->
  getProp tok1 "price_usd" = Normal (JNum 65000%float) ->
  getProp tok2 "symbol" = Normal (JStr "BTC") ->
  getProp tok2 "price_usd" = Normal (JNum 66000%float) ->
  default [] (priceHistory (state w) !! "BTC") = history ->
  length history + 2 <= 500 ->
  exists w1 w2,
    handleMessage clock1 (wellformed message1) w = Normal w1 /\
    handleMessage clock2 (wellformed message2) w1 = Normal w2 /\
    trackedPrices (state w2) !! "BTC" = Some tok2 /\
    priceOf tok2 = JNum 66000%float /\
    priceHistory (state w2) !! "BTC"
    = Some (history ++ [{| t := clock1 0; p := JNum 65000%float |};
                        {| t := clock2 0; p := JNum 66000%float |}]).
Proof.
  intros Hm1 Hm2 Hs1 Hp1 Hs2 Hp2 Hhist Hlen.
  eexists. eexists. split; [|split].
  - apply (handleMessage_single_price clock1 message1 tok1 "BTC" (JNum 65000%float));
      auto.
  - apply (handleMessage_single_price clock2 message2 tok2 "BTC" (JNum 66000%float));
      auto.
  - change (toUpperCase "BTC") with "BTC".
    cbn [state putPriceHistory putTrackedPrices with_state trackedPrices
         priceHistory].
    rewrite !lookup_insert_eq. cbn [default from_option id].
    rewrite Hhist.
    split; [reflexivity|]. split; [unfold priceOf; now rewrite Hp2|].
    f_equal. rewrite !capHistory_lastN.
    rewrite (lastN_short 500 (history ++ _))
      by (rewrite length_app; cbn [length]; lia).
    rewrite lastN_short by (rewrite !length_app; cbn [length]; lia).
    now rewrite <- app_assoc.
Qed.

Lemma btc_price_replaced_history_appended_witness :
  exists w1 w2,
    handleMessage (fun _ => "09:00") (wellformed (priceUpdate "BTC" (JNum 65000%float)))
      openWorld = Normal w1 /\
    handleMessage (fun _ => "09:01") (wellformed (priceUpdate "BTC" (JNum 66000%float)))
      w1 = Normal w2 /\
    trackedPrices (state w2) !! "BTC" = Some (btcToken 66000%float) /\
    priceOf (btcToken 66000%float) = JNum 66000%float /\
    priceHistory (state w2) !! "BTC"
    = Some ([] ++ [{| t := "09:00"; p := JNum 65000%float |};
                   {| t := "09:01"; p := JNum 66000%float |}]).
Proof.
  apply (btc_price_replaced_history_appended
           (fun _ => "09:00") (fun _ => "09:01")
           (priceUpdate "BTC" (JNum 65000%float)) (priceUpdate "BTC" (JNum 66000%float))
           (btcToken 65000%float) (btcToken 66000%float) openWorld []);
    try reflexivity.
  - split; [reflexivity|]. eexists. split; reflexivity.
  - split; [reflexivity|]. eexists. split; reflexivity.
  - cbn [length]. lia.
Defined.

(** ** Bounded buffers *)

Lemma handle_new_signal {unicode : CaseMapping}
    (m : Inbound) (x : JSValue) (w : World) :
  carries "new_signal" m x ->
  settle w (handleMessage (fst m) (snd m) w)
  = invalidateQueries "signals"
      (setSignals (fun prev => take MAX_SIGNALS (x :: prev)) w).
Proof.
  intros (message & -> & Hty & Hdata). enter_case Hty. now rewrite Hdata.
Qed.

Lemma handle_market_update {unicode : CaseMapping}
    (m : Inbound) (x : JSValue) (w : World) :
  isMarketUpdate m x ->
  settle w (handleMessage (fst m) (snd m) w)
  = setMarketUpdates (fun prev => take MAX_SIGNALS (x :: prev)) w.
Proof. intros (-> & Hty). enter_case Hty. reflexivity. Qed.

Lemma handle_tracked_transfer {unicode : CaseMapping}
    (m : Inbound) (x : JSValue) (w : World) :
  carriesPayload "tracked_transfer" m x ->
  settle w (handleMessage (fst m) (snd m) w)
  = setTrackedTransfers (fun prev => take 50 (x :: prev)) w.
Proof.
  intros ((message & -> & Hty & Hdata) & Htruthy). enter_case Hty.
  rewrite Hdata. cbn [bindC]. now rewrite Htruthy.
Qed.

Lemma handle_channel_message {unicode : CaseMapping}
    (m : Inbound) (x : JSValue) (w : World) :
  carriesPayload "channel_message" m x ->
  settle w (handleMessage (fst m) (snd m) w)
  = setChannelMessages (fun prev => take 200 (x :: prev)) w.
Proof.
  intros ((message & -> & Hty & Hdata) & Htruthy). enter_case Hty.
  rewrite Hdata. cbn [bindC]. now rewrite Htruthy.
Qed.

Lemma handle_price {unicode : CaseMapping}
    (symbol : string) (m : Inbound) (v : JSValue) (w : World) :
  carriesPrice symbol m v ->
  historyOf (toUpperCase symbol) (settle w (handleMessage (fst m) (snd m) w))
  = capHistory (historyOf (toUpperCase symbol) w ++ [pointOf m v]).
Proof.
  intros (message & tok & Hm & Hmsg & Hs & Hv & Hnull). rewrite Hm.
  rewrite (handleMessage_single_price _ _ _ _ _ _ Hmsg Hs Hv Hnull).
  unfold historyOf.
  cbn [settle state putPriceHistory with_state priceHistory].
  now rewrite lookup_insert_eq.
Qed.

Lemma take_app_take {A : Type} (n : nat) (r l : list A) :
  take n (r ++ take n l) = take n (r ++ l).
Proof.
  rewrite !take_app, take_take. do 2 f_equal. lia.
Qed.

Lemma feed_cons {unicode : CaseMapping}
    (m : Inbound) (inbox : list Inbound) (w : World) :
  feed (m :: inbox) w = feed inbox (settle w (handleMessage (fst m) (snd m) w)).
Proof. reflexivity. Qed.

Section Prepend.

Context {unicode : CaseMapping}.

(** A buffer [proj] that every message related by [R] to an item prepends
    that item to, keeping [N] entries. *)
Variable proj : World -> list JSValue.
Variable N : nat.
Variable R : Inbound -> JSValue -> Prop.
Hypothesis prepends :
  forall m x w, R m x ->
    proj (settle w (handleMessage (fst m) (snd m) w)) = take N (x :: proj w).

Lemma feed_prepend (inbox : list Inbound) (items : list JSValue) :
  Forall2 R inbox items ->
  items <> [] ->
  forall w, proj (feed inbox w) = take N (reverse items ++ proj w).
Proof.
  induction 1 as [|m x inbox items Hmx Hrest IH]; intros Hne w.
  - contradiction.
  - rewrite feed_cons, reverse_cons, <- app_assoc. cbn [app].
    destruct Hrest as [|m' x' inbox items Hmx' Hrest].
    + cbn. now apply prepends.
    + rewrite IH by discriminate.
      now rewrite (prepends _ _ _ Hmx), take_app_take.
Qed.

(** Once at least [N] items went in, the buffer holds the [N] most recent,
    newest first, whatever it held before. *)
Lemma feed_prepend_full (inbox : list Inbound) (items : list JSValue) (w : World) :
  Forall2 R inbox items ->
  0 < N -> N <= length items ->
  proj (feed inbox w) = take N (reverse items) /\
  length (proj (feed inbox w)) = N.
Proof.
  intros Hrel Hpos Hlen.
  assert (Hbuf : proj (feed inbox w) = take N (reverse items)).
  { assert (Hne : items <> []) by (intros ->; cbn in Hlen; lia).
    rewrite (feed_prepend inbox items Hrel Hne).
    apply take_app_le. now rewrite length_reverse. }
  split; [exact Hbuf|].
  rewrite Hbuf, length_take, length_reverse. lia.
Qed.

End Prepend.

Section Append.

Context {unicode : CaseMapping}.

(** The history of one key, to which every message related by [R] to a
    price appends the point for that price, keeping the last 500. *)
Variable key : string.
Variable R : Inbound -> JSValue -> Prop.
Hypothesis appends :
  forall m v w, R m v ->
    historyOf key (settle w (handleMessage (fst m) (snd m) w))
    = capHistory (historyOf key w ++ [pointOf m v]).

Lemma feed_append (inbox : list Inbound) (prices : list JSValue) :
  Forall2 R inbox prices ->
  prices <> [] ->
  forall w,
    historyOf key (feed inbox w)
    = lastN 500 (historyOf key w ++ zip_with pointOf inbox prices).
Proof.
  induction 1 as [|m v inbox prices Hmv Hrest IH]; intros Hne w.
  - contradiction.
  - rewrite feed_cons. cbn [zip_with].
    destruct Hrest as [|m' v' inbox prices Hmv' Hrest].
    + cbn [feed fold_left zip_with].
      now rewrite (appends m v w Hmv), capHistory_lastN.
    + rewrite IH by discriminate.
      rewrite (appends m v w Hmv), capHistory_lastN, lastN_app_lastN.
      now rewrite <- app_assoc.
Qed.

Lemma zip_points (inbox : list Inbound) (prices : list JSValue) :
  Forall2 R inbox prices ->
  p <$> zip_with pointOf inbox prices = prices /\
  length (zip_with pointOf inbox prices) = length prices.
Proof.
  induction 1 as [|m v inbox prices _ _ [IHp IHl]]; [split; reflexivity|].
  cbn. now rewrite IHp, IHl.
Qed.

Lemma feed_append_full (inbox : list Inbound) (prices : list JSValue) (w : World) :
  Forall2 R inbox prices ->
  500 <= length prices ->
  historyOf key (feed inbox w) = lastN 500 (zip_with pointOf inbox prices) /\
  p <$> historyOf key (feed inbox w) = lastN 500 prices /\
  length (historyOf key (feed inbox w)) = 500.
Proof.
  intros Hrel Hlen.
  destruct (zip_points inbox prices Hrel) as [Hprices Hsame].
  assert (Hbuf : historyOf key (feed inbox w)
                 = lastN 500 (zip_with pointOf inbox prices)).
  { assert (Hne : prices <> []) by (intros ->; cbn in Hlen; lia).
    rewrite (feed_append inbox prices Hrel Hne).
    unfold lastN. rewrite length_app.
    replace (length (historyOf key w) + length (zip_with pointOf inbox prices) - 500)
      with (length (historyOf key w)
            + (length (zip_with pointOf inbox prices) - 500)) by lia.
    apply drop_app_add. }
  split; [exact Hbuf|]. split.
  - now rewrite Hbuf, fmap_lastN, Hprices.
  - rewrite Hbuf. unfold lastN. rewrite length_drop. lia.
Qed.

End Append.

Lemma Forall2_fmap_same {A B C : Type} (R : B -> C -> Prop) (f : A -> B)
    (g : A -> C) (l : list A) :
  (forall a, R (f a) (g a)) -> Forall2 R (f <$> l) (g <$> l).
Proof. intros H. induction l; constructor; auto. Qed.

Lemma newSignal_carries (id : float) : carries "new_signal" (newSignal id) (signalData id).
Proof. eexists. repeat split. Qed.

Lemma btcPrice_carries (price : float) : carriesPrice "BTC" (btcPrice price) (JNum price).
Proof.
  eexists. eexists. split; [reflexivity|]. split.
  - split; [reflexivity|]. eexists. split; reflexivity.
  - repeat split.
Qed.

(** Whatever the runtime's case mapping, the price history of BTC is not
    kept newest first. *)
Lemma price_history_not_newest_first {unicode : CaseMapping} :
  ~ price_history_newest_first.
Proof.
  intros Hclaim.
  assert (Hlen : 500 < length (idsFrom 1%float 501)) by (vm_compute; lia).
  specialize (Hclaim (idsFrom 1%float 501) Hlen).
  apply (f_equal (fun prices => match prices with
                                | JNum x :: _ => PrimFloat.eqb x 2%float
                                | _ => false
                                end)) in Hclaim.
  vm_compute in Hclaim. discriminate Hclaim.
Qed.

(** C1, as stated, fails for the price history: after 501 price updates for
    BTC at prices 1, 2, ..., 501 the history holds the prices 2, ..., 501 with
    the oldest first, not the newest. *)
Lemma price_history_is_oldest_first :
  p <$> historyOf "BTC" (feed (btcPrice <$> idsFrom 1%float 501) (initialWorld None))
  = JNum <$> idsFrom 2%float 500 /\
  ~ price_history_newest_first.
Proof.
  split; [vm_compute; reflexivity|].
  apply price_history_not_newest_first.
Qed.

(** C1, amended. After more items than its capacity went in, a buffer holds
    exactly as many entries as its capacity, the most recent ones: newest
    first for signals (100), market updates (100), channel messages (200) and
    transfers (50), for the payloads the handler stores; oldest first, in
    insertion order, for the price history of a symbol (500), each point
    stamped with the clock reading of its message. Signals with
    ids 1..150 leave the signals buffer holding ids 150..51, newest first. *)
Theorem buffers_keep_most_recent {unicode : CaseMapping}
    (w : World) (inbox : list Inbound)
    (items : list JSValue) :
  (Forall2 (carries "new_signal") inbox items -> 100 < length items ->
     signals (state (feed inbox w)) = take 100 (reverse items) /\
     length (signals (state (feed inbox w))) = 100) /\
  (Forall2 isMarketUpdate inbox items -> 100 < length items ->
     marketUpdates (state (feed inbox w)) = take 100 (reverse items) /\
     length (marketUpdates (state (feed inbox w))) = 100) /\
  (Forall2 (carriesPayload "channel_message") inbox items ->
   200 < length items ->
     channelMessages (state (feed inbox w)) = take 200 (reverse items) /\
     length (channelMessages (state (feed inbox w))) = 200) /\
  (Forall2 (carriesPayload "tracked_transfer") inbox items ->
   50 < length items ->
     trackedTransfers (state (feed inbox w)) = take 50 (reverse items) /\
     length (trackedTransfers (state (feed inbox w))) = 50) /\
  (forall symbol,
     Forall2 (carriesPrice symbol) inbox items -> 500 < length items ->
     historyOf (toUpperCase symbol) (feed inbox w)
     = lastN 500 (zip_with pointOf inbox items) /\
     p <$> historyOf (toUpperCase symbol) (feed inbox w) = lastN 500 items /\
     length (historyOf (toUpperCase symbol) (feed inbox w)) = 500) /\
  signals (state (feed (newSignal <$> idsFrom 1%float 150) w))
  = signalData <$> reverse (idsFrom 51%float 100).
Proof.
  assert (Hsignals : forall m x w0, carries "new_signal" m x ->
            signals (state (settle w0 (handleMessage (fst m) (snd m) w0)))
            = take 100 (x :: signals (state w0))).
  { intros m x w0 Hmx. now rewrite (handle_new_signal _ _ _ Hmx). }
  split; [|split; [|split; [|split; [|split]]]].
  - intros Hrel Hlen.
    apply (feed_prepend_full (fun w => signals (state w)) 100
             (carries "new_signal") Hsignals); try assumption; lia.
  - intros Hrel Hlen.
    apply (feed_prepend_full (fun w => marketUpdates (state w)) 100 isMarketUpdate);
      try assumption; try lia.
    intros m x w0 Hmx. now rewrite (handle_market_update _ _ _ Hmx).
  - intros Hrel Hlen.
    apply (feed_prepend_full (fun w => channelMessages (state w)) 200
             (carriesPayload "channel_message"));
      try assumption; try lia.
    intros m x w0 Hmx. now rewrite (handle_channel_message _ _ _ Hmx).
  - intros Hrel Hlen.
    apply (feed_prepend_full (fun w => trackedTransfers (state w)) 50
             (carriesPayload "tracked_transfer"));
      try assumption; try lia.
    intros m x w0 Hmx. now rewrite (handle_tracked_transfer _ _ _ Hmx).
  - intros symbol Hrel Hlen.
    apply (feed_append_full (toUpperCase symbol) (carriesPrice symbol));
      try assumption; try lia.
    intros m v w0 Hmv. now apply handle_price.
  - assert (Hrel : Forall2 (carries "new_signal") (newSignal <$> idsFrom 1%float 150)
                     (signalData <$> idsFrom 1%float 150))
      by (apply Forall2_fmap_same, newSignal_carries).
    destruct (feed_prepend_full (fun w => signals (state w)) 100
                (carries "new_signal") Hsignals
                (newSignal <$> idsFrom 1%float 150)
                (signalData <$> idsFrom 1%float 150) w Hrel)
      as [Hbuf _]; [lia | vm_compute; lia |].
    rewrite Hbuf. reflexivity.
Qed.

Lemma buffers_keep_most_recent_witness :
  p <$> historyOf "BTC" (feed (btcPrice <$> idsFrom 1%float 501) (initialWorld None))
  = lastN 500 (JNum <$> idsFrom 1%float 501) /\
  signals (state (feed (newSignal <$> idsFrom 1%float 101) openWorld))
  = take 100 (reverse (signalData <$> idsFrom 1%float 101)).
Proof.
  split.
  - destruct (buffers_keep_most_recent (initialWorld None)
                (btcPrice <$> idsFrom 1%float 501) (JNum <$> idsFrom 1%float 501))
      as (_ & _ & _ & _ & Hhistory & _).
    refine (proj1 (proj2 (Hhistory "BTC" _ _))).
    + apply Forall2_fmap_same, btcPrice_carries.
    + vm_compute. lia.
  - destruct (buffers_keep_most_recent openWorld
                (newSignal <$> idsFrom 1%float 101) (signalData <$> idsFrom 1%float 101))
      as (Hsignals & _).
    refine (proj1 (Hsignals _ _)).
    + apply Forall2_fmap_same, newSignal_carries.
    + vm_compute. lia.
Defined.

(** ** Reconnection *)

Lemma sameReconnectState_refl (w : World) : sameReconnectState w w.
Proof. repeat split. Qed.

Lemma sameReconnectState_trans (w1 w2 w3 : World) :
  sameReconnectState w1 w2 -> sameReconnectState w2 w3 ->
  sameReconnectState w1 w3.
Proof.
  intros (H1 & H2 & H3) (H4 & H5 & H6).
  repeat split; congruence.
Qed.

Lemma delays_alter_deactivate (h : nat) (ts : list Timer) :
  map delay (filter (fun tm => callback tm = call_connect) (alter deactivate h ts))
  = map delay (filter (fun tm => callback tm = call_connect) ts).
Proof.
  revert h. induction ts as [|tm ts IH]; intros h; [reflexivity|].
  destruct h as [|h]; cbn [alter list_alter].
  - rewrite !filter_cons. cbn [deactivate callback].
    destruct (decide (callback tm = call_connect)); reflexivity.
  - fold (alter deactivate h ts). rewrite !filter_cons.
    destruct (decide (callback tm = call_connect)); cbn [map]; now rewrite IH.
Qed.

Lemma clearTimer_frame (h : nat) (w : World) :
  sameReconnectState w (clearTimer h w).
Proof.
  split; [reflexivity|]. split; [|reflexivity].
  apply delays_alter_deactivate.
Qed.

Lemma sendCommand_frame (command : WebSocketCommand) (w : World) :
  sameReconnectState w (settle w (sendCommand command w)).
Proof.
  unfold sendCommand, socket_send, bindC.
  repeat case_match; simplify_eq; repeat split.
Qed.

Lemma connect_frame (e : Env) (w : World) : sameReconnectState w (connect e w).
Proof. unfold connect. repeat case_match; repeat split. Qed.

Lemma cleanup_frame (w : World) : sameReconnectState w (cleanup w).
Proof.
  unfold cleanup.
  assert (H1 : sameReconnectState w
                 (match reconnectTimeout (refs w) with
                  | Some h => clearTimer h w
                  | None => w
                  end))
    by (case_match; [apply clearTimer_frame | apply sameReconnectState_refl]).
  set (w1 := match reconnectTimeout (refs w) with
             | Some h => clearTimer h w
             | None => w
             end) in *.
  assert (H2 : sameReconnectState w1
                 (match pingInterval (refs w1) with
                  | Some h => clearTimer h w1
                  | None => w1
                  end))
    by (case_match; [apply clearTimer_frame | apply sameReconnectState_refl]).
  set (w2 := match pingInterval (refs w1) with
             | Some h => clearTimer h w1
             | None => w1
             end) in *.
  apply (sameReconnectState_trans _ _ _ H1).
  apply (sameReconnectState_trans _ _ _ H2).
  case_match; repeat split.
Qed.

Lemma handleMessage_frame {unicode : CaseMapping}
    (clock : nat -> string) (event : MessageEvent)
    (w : World) :
  sameReconnectState w (settle w (handleMessage clock event w)).
Proof.
  unfold handleMessage, handleMessage_try, setPriceHistory, setTrackedPrices,
    bindC.
  repeat case_match; simplify_eq; repeat split.
Qed.

Lemma scheduledDelays_snoc (ts : list Timer) (tm : Timer) :
  callback tm = call_connect ->
  map delay (filter (fun tm => callback tm = call_connect) (ts ++ [tm]))
  = map delay (filter (fun tm => callback tm = call_connect) ts) ++ [delay tm].
Proof.
  intros Hcb. rewrite filter_app, map_app.
  now rewrite filter_cons_True by exact Hcb.
Qed.

Lemma onclose_effect (w : World) :
  isConnected (state (onclose w)) = false /\
  if (reconnectAttempts (refs w) <? MAX_RECONNECT_ATTEMPTS)%Z then
    reconnectAttempts (refs (onclose w)) = (reconnectAttempts (refs w) + 1)%Z /\
    scheduledDelays (onclose w)
    = scheduledDelays w ++ [reconnectDelay (reconnectAttempts (refs w) + 1)]
  else
    reconnectAttempts (refs (onclose w)) = reconnectAttempts (refs w) /\
    scheduledDelays (onclose w) = scheduledDelays w.
Proof.
  unfold onclose.
  set (w2 := setIsConnected false (console_write log_closed w)).
  set (w3 := match pingInterval (refs w2) with
             | Some h => clearTimer h w2
             | None => w2
             end).
  assert (H3 : reconnectAttempts (refs w3) = reconnectAttempts (refs w) /\
               scheduledDelays w3 = scheduledDelays w /\
               isConnected (state w3) = false).
  { unfold w3. destruct (pingInterval (refs w2)) as [h|].
    - destruct (clearTimer_frame h w2) as (Ha & Hd & Hc).
      rewrite Ha, Hd, Hc. repeat split.
    - repeat split. }
  destruct H3 as (Hatt & Hdel & Hconn). rewrite Hatt.
  destruct (reconnectAttempts (refs w) <? MAX_RECONNECT_ATTEMPTS)%Z.
  - split; [exact Hconn|]. split; [reflexivity|].
    rewrite <- Hdel. unfold scheduledDelays. cbn.
    now rewrite scheduledDelays_snoc by reflexivity.
  - auto.
Qed.

Lemma onopen_frame (w : World) : scheduledDelays (onopen w) = scheduledDelays w.
Proof.
  unfold scheduledDelays, onopen. cbn.
  rewrite filter_app, filter_cons_False by discriminate.
  now rewrite app_nil_r.
Qed.

(** What one event does to the reconnect state. *)
Lemma step_effect {unicode : CaseMapping}
    (e : Env) (ev : Event) (w w' : World) :
  step e ev w = Some w' ->
  match ev with
  | ev_open _ =>
      reconnectAttempts (refs w') = 0%Z /\ isConnected (state w') = true /\
      scheduledDelays w' = scheduledDelays w
  | ev_close _ =>
      isConnected (state w') = false /\
      if (reconnectAttempts (refs w) <? MAX_RECONNECT_ATTEMPTS)%Z then
        reconnectAttempts (refs w') = (reconnectAttempts (refs w) + 1)%Z /\
        scheduledDelays w'
        = scheduledDelays w ++ [reconnectDelay (reconnectAttempts (refs w) + 1)]
      else
        reconnectAttempts (refs w') = reconnectAttempts (refs w) /\
        scheduledDelays w' = scheduledDelays w
  | _ => sameReconnectState w w'
  end.
Proof.
  destruct ev; cbn [step]; intros Hstep.
  - injection Hstep as <-. apply connect_frame.
  - injection Hstep as <-. apply cleanup_frame.
  - destruct (sockets (browser w) !! id) as [ws|]; [|discriminate].
    destruct (readyState ws); try discriminate. injection Hstep as <-.
    split; [reflexivity|]. split; [reflexivity|].
    now rewrite onopen_frame.
  - destruct (sockets (browser w) !! id) as [ws|]; [|discriminate].
    destruct (readyState ws); try discriminate. injection Hstep as <-.
    apply handleMessage_frame.
  - destruct (sockets (browser w) !! id) as [ws|]; [|discriminate].
    injection Hstep as <-. repeat split.
  - destruct (sockets (browser w) !! id) as [ws|]; [|discriminate].
    destruct (readyState ws); try discriminate; injection Hstep as <-;
      apply (onclose_effect (with_sockets _ w)).
  - destruct (timers (browser w) !! h) as [tm|]; [|discriminate].
    destruct (active tm); [|discriminate]. injection Hstep as <-.
    set (w1 := if repeating tm then w else clearTimer h w).
    assert (H1 : sameReconnectState w w1)
      by (unfold w1; destruct (repeating tm);
          [apply sameReconnectState_refl | apply clearTimer_frame]).
    apply (sameReconnectState_trans _ _ _ H1).
    destruct (callback tm); [apply connect_frame | apply sendCommand_frame].
  - injection Hstep as <-. repeat split.
  - injection Hstep as <-. apply sendCommand_frame.
  - injection Hstep as <-. apply sendCommand_frame.
  - injection Hstep as <-. repeat split.
Qed.

Lemma reconnectDelay_mono (a b : Z) :
  (a <= b)%Z -> (reconnectDelay a <= reconnectDelay b)%Z.
Proof. unfold reconnectDelay, RECONNECT_INTERVAL. lia. Qed.

Lemma reconnectDelay_capped (a : Z) : (reconnectDelay a <= 30000)%Z.
Proof. unfold reconnectDelay. lia. Qed.

(** With no open event in between, each close event while the counter is
    below the maximum increments it and sets one reconnect timeout. *)
Lemma run_closes {unicode : CaseMapping} (e : Env) (trace : list Event) :
  Forall (fun ev => isOpenEvent ev = false) trace ->
  forall (w w' : World) (a : nat),
    reconnectAttempts (refs w) = Z.of_nat a ->
    a + closes trace <= 10 ->
    run e trace w = Some w' ->
    reconnectAttempts (refs w') = Z.of_nat (a + closes trace) /\
    scheduledDelays w'
    = scheduledDelays w
        ++ ((fun i => reconnectDelay (Z.of_nat i)) <$> seq (S a) (closes trace)).
Proof.
  induction 1 as [|ev trace Hev _ IH]; intros w w' a Ha Hle Hrun.
  - cbn in *. injection Hrun as <-. rewrite Nat.add_0_r, app_nil_r. auto.
  - cbn [run] in Hrun.
    destruct (step e ev w) as [w1|] eqn:Hstep; [|discriminate].
    apply step_effect in Hstep.
    destruct ev; try discriminate Hev;
      try (destruct Hstep as (Hatt & Hdel & _); cbn [closes] in *;
           rewrite <- Hdel; apply IH; [congruence | exact Hle | exact Hrun]).
    destruct Hstep as (_ & Hclose). cbn [closes] in *.
    rewrite Ha in Hclose.
    destruct (Z.ltb_spec (Z.of_nat a) MAX_RECONNECT_ATTEMPTS) as [_ | Hge];
      [|unfold MAX_RECONNECT_ATTEMPTS in Hge; lia].
    destruct Hclose as (Hatt & Hdel).
    destruct (IH w1 w' (S a)) as (Hatt' & Hdel'); [lia | lia | exact Hrun |].
    split; [rewrite Hatt'; f_equal; lia|].
    rewrite Hdel', Hdel, <- app_assoc. cbn [seq fmap list_fmap app].
    do 3 f_equal. lia.
Qed.

(** C2. Starting with the retry counter at zero, after a run of the event
    loop that contains [K] close events, [K] below the maximum of 10, and no
    open event, the counter is [K] and exactly [K] reconnect timeouts were
    set, one per close event; the delay of the [i]-th is
    [min(3000 * i, 30000)] for the counter value [i] it was set at, so the
    delays never decrease and never exceed 30 seconds. *)
Theorem closes_schedule_reconnects {unicode : CaseMapping}
    (e : Env) (trace : list Event)
    (w w' : World) (K : nat) :
  reconnectAttempts (refs w) = 0%Z ->
  Forall (fun ev => isOpenEvent ev = false) trace ->
  closes trace = K ->
  (Z.of_nat K < MAX_RECONNECT_ATTEMPTS)%Z ->
  run e trace w = Some w' ->
  exists delays,
    reconnectAttempts (refs w') = Z.of_nat K /\
    scheduledDelays w' = scheduledDelays w ++ delays /\
    length delays = K /\
    (forall i d, delays !! i = Some d ->
       d = Z.min (3000 * Z.of_nat (S i)) 30000) /\
    (forall i j d1 d2, i <= j ->
       delays !! i = Some d1 -> delays !! j = Some d2 -> (d1 <= d2)%Z) /\
    Forall (fun d => (d <= 30000)%Z) delays.
Proof.
  intros Hzero Hnoopen Hcloses HK Hrun.
  unfold MAX_RECONNECT_ATTEMPTS in HK.
  destruct (run_closes e trace Hnoopen w w' 0) as (Hatt & Hdel);
    [exact Hzero | lia | exact Hrun |].
  rewrite Hcloses in Hatt, Hdel. cbn [Nat.add] in Hatt.
  exists ((fun i => reconnectDelay (Z.of_nat i)) <$> seq 1 K).
  assert (Hlookup : forall i d,
             ((fun i => reconnectDelay (Z.of_nat i)) <$> seq 1 K) !! i = Some d ->
             d = reconnectDelay (Z.of_nat (S i))).
  { intros i d Hi. rewrite list_lookup_fmap in Hi.
    destruct (seq 1 K !! i) as [n|] eqn:Hn; [|discriminate].
    apply lookup_seq in Hn as [-> _]. cbn in Hi. now injection Hi as <-. }
  split; [exact Hatt|]. split; [exact Hdel|].
  split; [now rewrite length_fmap, length_seq|].
  split; [intros i d Hi; now rewrite (Hlookup i d Hi)|].
  split.
  - intros i j d1 d2 Hij Hi Hj.
    rewrite (Hlookup i d1 Hi), (Hlookup j d2 Hj).
    apply reconnectDelay_mono. lia.
  - apply Forall_forall. intros d Hd.
    apply list_elem_of_lookup in Hd as [i Hi].
    rewrite (Hlookup i d Hi). apply reconnectDelay_capped.
Qed.

Lemma closes_schedule_reconnects_witness :
  exists delays,
    reconnectAttempts
      (refs (after sampleEnv threeFailures (initialWorld (Some "secret"))))
    = 3%Z /\
    scheduledDelays (after sampleEnv threeFailures (initialWorld (Some "secret")))
    = [] ++ delays /\
    length delays = 3 /\
    (forall i d, delays !! i = Some d ->
       d = Z.min (3000 * Z.of_nat (S i)) 30000) /\
    (forall i j d1 d2, i <= j ->
       delays !! i = Some d1 -> delays !! j = Some d2 -> (d1 <= d2)%Z) /\
    Forall (fun d => (d <= 30000)%Z) delays.
Proof.
  apply (closes_schedule_reconnects sampleEnv threeFailures
           (initialWorld (Some "secret"))
           (after sampleEnv threeFailures (initialWorld (Some "secret"))) 3).
  - reflexivity.
  - repeat constructor.
  - vm_compute; reflexivity.
  - vm_compute; reflexivity.
  - vm_compute; reflexivity.
Defined.

(** ** The retry budget *)

Lemma run_exhausted {unicode : CaseMapping} (e : Env) (trace : list Event) :
  Forall (fun ev => isOpenEvent ev = false) trace ->
  forall w w' : World,
    reconnectAttempts (refs w) = MAX_RECONNECT_ATTEMPTS ->
    run e trace w = Some w' ->
    reconnectAttempts (refs w') = MAX_RECONNECT_ATTEMPTS /\
    scheduledDelays w' = scheduledDelays w /\
    (isConnected (state w) = false -> isConnected (state w') = false).
Proof.
  induction 1 as [|ev trace Hev _ IH]; intros w w' Hmax Hrun.
  - injection Hrun as <-. auto.
  - cbn [run] in Hrun.
    destruct (step e ev w) as [w1|] eqn:Hstep; [|discriminate].
    apply step_effect in Hstep.
    assert (Hw1 : reconnectAttempts (refs w1) = MAX_RECONNECT_ATTEMPTS /\
                  scheduledDelays w1 = scheduledDelays w /\
                  (isConnected (state w) = false -> isConnected (state w1) = false)).
    { destruct ev; try discriminate Hev;
        try (destruct Hstep as (Hatt & Hdel & Hconn);
             repeat split; congruence).
      destruct Hstep as (Hconn & Hclose). rewrite Hmax in Hclose.
      cbn in Hclose. destruct Hclose as (Hatt & Hdel).
      repeat split; congruence. }
    destruct Hw1 as (Hatt & Hdel & Hconn).
    destruct (IH w1 w' Hatt Hrun) as (Hatt' & Hdel' & Hconn').
    repeat split; [exact Hatt' | congruence | auto].
Qed.

(** In every world the provider can reach, a retry counter that is not zero
    means the connected flag is down: the counter only leaves zero in the
    close handler, which lowers the flag, and only the open handler raises
    it, which zeroes the counter. *)
Lemma reachable_retrying_disconnected {unicode : CaseMapping}
    (e : Env) (trace : list Event) :
  forall w w' : World,
    (reconnectAttempts (refs w) <> 0%Z -> isConnected (state w) = false) ->
    run e trace w = Some w' ->
    reconnectAttempts (refs w') <> 0%Z -> isConnected (state w') = false.
Proof.
  induction trace as [|ev trace IH]; intros w w' Hinv Hrun.
  - now injection Hrun as <-.
  - cbn [run] in Hrun.
    destruct (step e ev w) as [w1|] eqn:Hstep; [|discriminate].
    apply (IH w1 w'); [|exact Hrun].
    apply step_effect in Hstep.
    destruct ev;
      try (destruct Hstep as (Hatt & _ & Hconn); rewrite Hatt, Hconn; exact Hinv).
    + destruct Hstep as (Hatt & _). congruence.
    + destruct Hstep as (Hconn & _). auto.
Qed.

(** C3. Once the provider has reached a world where the retry counter is at
    the maximum of 10, then as long as no open event occurs, whatever else
    happens (close events of any socket, pending timeouts firing, remounts,
    messages, commands): no new reconnect timeout is set, the counter stays
    at 10 and the connected flag stays down. And no event other than an open
    event ever lowers the counter. *)
Theorem no_reconnect_after_max {unicode : CaseMapping}
    (e : Env) (tok : option string)
    (before trace : list Event) (w w' : World) :
  run e before (initialWorld tok) = Some w ->
  reconnectAttempts (refs w) = MAX_RECONNECT_ATTEMPTS ->
  Forall (fun ev => isOpenEvent ev = false) trace ->
  run e trace w = Some w' ->
  reconnectAttempts (refs w') = MAX_RECONNECT_ATTEMPTS /\
  scheduledDelays w' = scheduledDelays w /\
  isConnected (state w') = false /\
  (forall ev w1 w2,
     step e ev w1 = Some w2 -> isOpenEvent ev = false ->
     (reconnectAttempts (refs w1) <= reconnectAttempts (refs w2))%Z).
Proof.
  intros Hreach Hmax Hnoopen Hrun.
  assert (Hdown : isConnected (state w) = false).
  { apply (reachable_retrying_disconnected e before (initialWorld tok) w);
      [intros Hne; now contradiction Hne | exact Hreach |].
    rewrite Hmax. discriminate. }
  destruct (run_exhausted e trace Hnoopen w w' Hmax Hrun) as (Hatt & Hdel & Hconn).
  split; [exact Hatt|]. split; [exact Hdel|]. split; [auto|].
  intros ev w1 w2 Hstep Hev. apply step_effect in Hstep.
  destruct ev; try discriminate Hev;
    try (destruct Hstep as (Ha & _); rewrite Ha; lia).
  destruct Hstep as (_ & Hclose).
  destruct (reconnectAttempts (refs w1) <? MAX_RECONNECT_ATTEMPTS)%Z;
    destruct Hclose as (Ha & _); rewrite Ha; lia.
Qed.

Lemma no_reconnect_after_max_witness :
  scheduledDelays
    (after sampleEnv afterExhaustion
       (after sampleEnv tenFailures (initialWorld None)))
  = scheduledDelays (after sampleEnv tenFailures (initialWorld None)) /\
  isConnected
    (state (after sampleEnv afterExhaustion
              (after sampleEnv tenFailures (initialWorld None))))
  = false.
Proof.
  destruct (no_reconnect_after_max sampleEnv None tenFailures afterExhaustion
              (after sampleEnv tenFailures (initialWorld None))
              (after sampleEnv afterExhaustion
                 (after sampleEnv tenFailures (initialWorld None))))
    as (_ & Hdel & Hconn & _).
  - vm_compute; reflexivity.
  - vm_compute; reflexivity.
  - repeat constructor.
  - vm_compute; reflexivity.
  - split; assumption.
Defined.

(** * Further properties of the provider *)

(** ** Generic facts about runs *)

Lemma run_invariant {unicode : CaseMapping} (e : Env) (Inv : World -> Prop) :
  (forall ev w w', Inv w -> step e ev w = Some w' -> Inv w') ->
  forall trace w w', Inv w -> run e trace w = Some w' -> Inv w'.
Proof.
  intros Hstep. induction trace as [|ev trace IH]; intros w w' Hinv Hrun.
  - now injection Hrun as <-.
  - cbn [run] in Hrun.
    destruct (step e ev w) as [w1|] eqn:Hev; [|discriminate].
    eapply IH; [|exact Hrun]. eapply Hstep; eassumption.
Qed.

Lemma run_relation {unicode : CaseMapping}
    (e : Env) (R : World -> World -> Prop) :
  (forall w, R w w) ->
  (forall w1 w2 w3, R w1 w2 -> R w2 w3 -> R w1 w3) ->
  (forall ev w w', step e ev w = Some w' -> R w w') ->
  forall trace w w', run e trace w = Some w' -> R w w'.
Proof.
  intros Hrefl Htrans Hstep.
  induction trace as [|ev trace IH]; intros w w' Hrun.
  - injection Hrun as <-. apply Hrefl.
  - cbn [run] in Hrun.
    destruct (step e ev w) as [w1|] eqn:Hev; [|discriminate].
    eapply Htrans; [eapply Hstep; exact Hev | eapply IH; exact Hrun].
Qed.

(** ** Buffers stay within capacity *)

Lemma length_capHistory (arr : list PricePoint) : length (capHistory arr) <= 500.
Proof.
  unfold capHistory.
  destruct (Nat.ltb_spec 500 (length arr)); [rewrite length_drop|]; lia.
Qed.

Lemma appendHistory_capped {unicode : CaseMapping}
    (clock : nat -> string) (tokens : list JSValue) :
  forall (k : nat) (next next' : gmap string (list PricePoint)),
    (forall key points, next !! key = Some points -> length points <= 500) ->
    appendHistory clock k tokens next = Normal next' ->
    forall key points, next' !! key = Some points -> length points <= 500.
Proof.
  induction tokens as [|tok tokens IH]; intros k next next' Hcap Hrun.
  - now injection Hrun as <-.
  - cbn [appendHistory] in Hrun. unfold bindC in Hrun.
    destruct (symbolKey tok) as [sym|]; [|discriminate].
    destruct (getProp tok "price_usd") as [price|]; [|discriminate].
    destruct (isNullish price); [now apply (IH k next)|].
    eapply IH; [|exact Hrun].
    intros key points Hlk.
    destruct (decide (sym = key)) as [<- | Hne].
    + rewrite lookup_insert_eq in Hlk. injection Hlk as <-.
      apply length_capHistory.
    + rewrite lookup_insert_ne in Hlk by exact Hne. now apply (Hcap key).
Qed.

Lemma setTrackedPrices_capacity {unicode : CaseMapping}
    (tokens : JSValue) (w : World) :
  withinCapacity w -> withinCapacity (setTrackedPrices tokens w).
Proof. unfold setTrackedPrices. now case_match. Qed.

Lemma setPriceHistory_capacity {unicode : CaseMapping}
    (clock : nat -> string) (tokens : JSValue)
    (w : World) :
  withinCapacity w -> withinCapacity (setPriceHistory clock tokens w).
Proof.
  intros (H1 & H2 & H3 & H4 & H5). unfold setPriceHistory.
  destruct (iterate tokens) as [items|]; cbn [bindC]; [|repeat split; assumption].
  destruct (appendHistory clock 0 items (priceHistory (state w)))
    as [next|] eqn:Hrun; [|repeat split; assumption].
  split; [exact H1|]. split; [exact H2|]. split; [exact H3|].
  split; [exact H4|]. cbn. now apply (appendHistory_capped _ _ _ _ _ H5 Hrun).
Qed.

Lemma handleMessage_capacity {unicode : CaseMapping}
    (clock : nat -> string) (event : MessageEvent)
    (w : World) :
  withinCapacity w -> withinCapacity (settle w (handleMessage clock event w)).
Proof.
  intros Hcap.
  assert (Hprice : forall tokens,
             withinCapacity (setPriceHistory clock tokens
                               (setTrackedPrices tokens w)))
    by (intros tokens; now apply setPriceHistory_capacity,
                                 setTrackedPrices_capacity).
  unfold handleMessage, handleMessage_try, bindC.
  repeat case_match; simplify_eq; cbn [settle]; try exact Hcap;
    try apply Hprice;
    destruct Hcap as (Hcap1 & Hcap2 & Hcap3 & Hcap4 & Hcap5);
    unfold withinCapacity, MAX_SIGNALS; cbn;
    rewrite ?length_take; repeat split; try lia; try exact Hcap5.
Qed.

(** ** Connection events leave the data alone *)

Lemma sendCommand_data (command : WebSocketCommand) (w : World) :
  dataSlices (settle w (sendCommand command w)) = dataSlices w.
Proof.
  unfold sendCommand, socket_send, bindC.
  repeat case_match; simplify_eq; reflexivity.
Qed.

Lemma connect_data (e : Env) (w : World) : dataSlices (connect e w) = dataSlices w.
Proof. unfold connect. repeat case_match; reflexivity. Qed.

Lemma clearTimer_data (h : nat) (w : World) :
  dataSlices (clearTimer h w) = dataSlices w.
Proof. reflexivity. Qed.

Lemma cleanup_data (w : World) : dataSlices (cleanup w) = dataSlices w.
Proof. unfold cleanup. repeat case_match; reflexivity. Qed.

Lemma onopen_data (w : World) : dataSlices (onopen w) = dataSlices w.
Proof. reflexivity. Qed.

Lemma onclose_data (w : World) : dataSlices (onclose w) = dataSlices w.
Proof.
  unfold onclose.
  destruct (pingInterval _); destruct (_ <? _)%Z; reflexivity.
Qed.

Lemma step_data {unicode : CaseMapping} (e : Env) (ev : Event) (w w' : World) :
  isDataEvent ev = false ->
  step e ev w = Some w' ->
  dataSlices w' = dataSlices w.
Proof.
  destruct ev; try discriminate; intros _; cbn [step]; intros Hstep.
  - injection Hstep as <-. apply connect_data.
  - injection Hstep as <-. apply cleanup_data.
  - repeat case_match; simplify_eq. now rewrite onopen_data.
  - repeat case_match; simplify_eq. reflexivity.
  - repeat case_match; simplify_eq; now rewrite onclose_data.
  - destruct (timers (browser w) !! h) as [tm|]; [|discriminate].
    destruct (active tm); [|discriminate]. injection Hstep as <-.
    destruct (callback tm); [rewrite connect_data | rewrite sendCommand_data];
      destruct (repeating tm); reflexivity.
  - injection Hstep as <-. reflexivity.
  - injection Hstep as <-. apply sendCommand_data.
  - injection Hstep as <-. apply sendCommand_data.
Qed.

Lemma withinCapacity_data (w w' : World) :
  dataSlices w' = dataSlices w -> withinCapacity w -> withinCapacity w'.
Proof.
  unfold dataSlices, withinCapacity. intros Heq Hcap.
  injection Heq as -> -> _ _ _ -> -> ->. exact Hcap.
Qed.

Lemma step_capacity {unicode : CaseMapping}
    (e : Env) (ev : Event) (w w' : World) :
  withinCapacity w -> step e ev w = Some w' -> withinCapacity w'.
Proof.
  intros Hcap Hstep.
  destruct (isDataEvent ev) eqn:Hdata.
  - destruct ev; try discriminate Hdata; cbn [step] in Hstep.
    + repeat case_match; simplify_eq. now apply handleMessage_capacity.
    + injection Hstep as <-.
      destruct Hcap as (_ & _ & _ & Hcap4 & Hcap5).
      unfold withinCapacity. cbn. repeat split; try lia; assumption.
  - eapply withinCapacity_data; [eapply step_data; eassumption | exact Hcap].
Qed.

(** X1. In every world the provider reaches from its initial state, by any
    sequence of events and whatever the messages carry, no buffer exceeds its
    capacity: at most 100 signals, 100 market updates, 200 channel messages,
    50 transfers, and 500 points in the history of every symbol. *)
Theorem reachable_within_capacity {unicode : CaseMapping}
    (e : Env) (tok : option string)
    (trace : list Event) (w : World) :
  run e trace (initialWorld tok) = Some w ->
  withinCapacity w.
Proof.
  apply (run_invariant e withinCapacity (step_capacity e)).
  unfold withinCapacity. cbn. repeat split; try lia.
  intros key points Hlk. now rewrite lookup_empty in Hlk.
Qed.

Lemma reachable_within_capacity_witness :
  withinCapacity (after sampleEnv overflowTrace (initialWorld None)).
Proof.
  apply (reachable_within_capacity sampleEnv None overflowTrace).
  vm_compute; reflexivity.
Defined.

(** X2. Only inbound messages and [clearSignals] write the data slices: a
    run made of any other events (sockets opening and closing, reconnect and
    heartbeat timers firing, mount and clean-up of the effect, commands, a
    change of the stored token) leaves signals, market updates, sentiment,
    trending, tracked prices, transfers, price history and channel messages
    exactly as they were. Reconnecting never clears or replays data. *)
Theorem connection_events_keep_data {unicode : CaseMapping}
    (e : Env) (trace : list Event)
    (w w' : World) :
  Forall (fun ev => isDataEvent ev = false) trace ->
  run e trace w = Some w' ->
  dataSlices w' = dataSlices w.
Proof.
  induction 1 as [|ev trace Hev _ IH] in w |- *; intros Hrun.
  - now injection Hrun as <-.
  - cbn [run] in Hrun.
    destruct (step e ev w) as [w1|] eqn:Hstep; [|discriminate].
    rewrite (IH w1 Hrun). now apply (step_data e ev).
Qed.

Lemma connection_events_keep_data_witness :
  dataSlices (after sampleEnv reconnectTrace busyWorld) = dataSlices busyWorld.
Proof.
  apply (connection_events_keep_data sampleEnv reconnectTrace).
  - repeat constructor.
  - vm_compute; reflexivity.
Defined.

(** X3. No inbound message, whatever it carries, changes the connection:
    after [handleMessage] the refs (socket handle, retry counter, timer
    handles), the sockets and their sent frames, the timers, the connected
    flag and the stored token are those before it. *)
Theorem handleMessage_keeps_connection {unicode : CaseMapping}
    (clock : nat -> string)
    (event : MessageEvent) (w : World) :
  connectionOf (settle w (handleMessage clock event w)) = connectionOf w.
Proof.
  unfold handleMessage, handleMessage_try, setPriceHistory, setTrackedPrices,
    bindC.
  repeat case_match; simplify_eq; reflexivity.
Qed.

(** ** Payload guards *)

(** X4. A message whose [data] is null or missing: as a
    [tracked_transfer], a [channel_message] or a [tracked_price_update] it
    is dropped and the world is unchanged; as a [new_signal] it is not
    guarded, and the null or undefined payload is prepended to the signals
    buffer like any signal; as a [sentiment_update] or [trending_update] it
    replaces the snapshot with that null or undefined value. *)
Theorem missing_payloads {unicode : CaseMapping}
    (clock : nat -> string) (message data : JSValue)
    (w : World) :
  getProp message "data" = Normal data ->
  isNullish data = true ->
  (getProp message "type" = Normal (JStr "tracked_transfer") \/
   getProp message "type" = Normal (JStr "channel_message") \/
   getProp message "type" = Normal (JStr "tracked_price_update") ->
     handleMessage clock (wellformed message) w = Normal w) /\
  (getProp message "type" = Normal (JStr "new_signal") ->
     exists w', handleMessage clock (wellformed message) w = Normal w' /\
                signals (state w') = take 100 (data :: signals (state w))) /\
  (getProp message "type" = Normal (JStr "sentiment_update") ->
     exists w', handleMessage clock (wellformed message) w = Normal w' /\
                sentiment (state w') = data) /\
  (getProp message "type" = Normal (JStr "trending_update") ->
     exists w', handleMessage clock (wellformed message) w = Normal w' /\
                trending (state w') = data).
Proof.
  intros Hdata Hnull.
  assert (Hfalsy : truthy data = false) by (destruct data; now try discriminate).
  assert (Htokens : getPropOpt data "tokens" = Normal JUndefined)
    by (unfold getPropOpt; now rewrite Hnull).
  split; [|split; [|split]].
  - intros [Hty | [Hty | Hty]]; enter_case Hty; rewrite Hdata; cbn [bindC];
      rewrite ?Htokens, ?Hfalsy; reflexivity.
  - intros Hty. enter_case Hty. rewrite Hdata. eexists. split; reflexivity.
  - intros Hty. enter_case Hty. rewrite Hdata. eexists. split; reflexivity.
  - intros Hty. enter_case Hty. rewrite Hdata. eexists. split; reflexivity.
Qed.

Lemma missing_payloads_witness :
  handleMessage (fun _ => "") (wellformed emptyTransfer) busyWorld
  = Normal busyWorld /\
  exists w', handleMessage (fun _ => "") (wellformed emptySignal) busyWorld
             = Normal w' /\
             signals (state w') = take 100 (JUndefined :: signals (state busyWorld)).
Proof.
  split.
  - apply (proj1 (missing_payloads (fun _ => "") emptyTransfer JNull busyWorld
                    eq_refl eq_refl)).
    now left.
  - apply (proj1 (proj2 (missing_payloads (fun _ => "") emptySignal JUndefined
                           busyWorld eq_refl eq_refl))).
    reflexivity.
Defined.

(** ** A price update is applied whole or not at all *)

Lemma symbolKey_TypeError {unicode : CaseMapping} (tok : JSValue) :
  ~ hasSymbol tok -> symbolKey tok = Throw TypeError.
Proof.
  intros Hno. unfold symbolKey.
  destruct (getProp tok "symbol") as [v|err] eqn:Hget.
  - cbn [bindC]. destruct v; try reflexivity.
    exfalso. apply Hno. now exists s.
  - cbn [bindC]. destruct tok; try discriminate Hget; now injection Hget as <-.
Qed.

Lemma symbolKey_outcome {unicode : CaseMapping} (tok : JSValue) :
  (exists s, symbolKey tok = Normal s) \/ symbolKey tok = Throw TypeError.
Proof.
  unfold symbolKey. destruct tok; cbn; auto.
  destruct (ownProperty fields "symbol"); cbn; eauto.
Qed.

Lemma upsertPrices_throws {unicode : CaseMapping} (tokens : list JSValue) :
  Exists (fun tok => ~ hasSymbol tok) tokens ->
  forall updated, upsertPrices tokens updated = Throw TypeError.
Proof.
  induction 1 as [tok tokens Hbad | tok tokens _ IH]; intros updated;
    cbn [upsertPrices].
  - now rewrite (symbolKey_TypeError tok Hbad).
  - destruct (symbolKey_outcome tok) as [[s ->] | ->]; cbn [bindC]; auto.
Qed.

Lemma appendHistory_throws {unicode : CaseMapping}
    (clock : nat -> string) (tokens : list JSValue) :
  Exists (fun tok => ~ hasSymbol tok) tokens ->
  forall k next, appendHistory clock k tokens next = Throw TypeError.
Proof.
  induction 1 as [tok tokens Hbad | tok tokens _ IH]; intros k next;
    cbn [appendHistory].
  - now rewrite (symbolKey_TypeError tok Hbad).
  - destruct (symbolKey_outcome tok) as [[s Hs] | ->]; cbn [bindC]; auto.
    rewrite Hs. cbn [bindC].
    destruct (getProp tok "price_usd") as [price|err] eqn:Hprice; cbn [bindC].
    + destruct (isNullish price); apply IH.
    + unfold symbolKey in Hs. destruct tok; try discriminate Hprice;
        discriminate Hs.
Qed.

(** X5. A [tracked_price_update] one of whose entries is not an object with
    a string [symbol] changes neither the price map nor any price history,
    not even for the well-formed entries that precede the bad one: both
    updaters throw before they return. The handler itself still returns
    normally; the exception surfaces when React runs the updaters. *)
Theorem malformed_entry_updates_nothing {unicode : CaseMapping}
    (clock : nat -> string)
    (message : JSValue) (tokens : list JSValue) (w : World) :
  isPriceUpdate message tokens ->
  Exists (fun tok => ~ hasSymbol tok) tokens ->
  exists w',
    handleMessage clock (wellformed message) w = Normal w' /\
    state w' = state w /\
    connectionOf w' = connectionOf w /\
    renderError (browser w')
    = match renderError (browser w) with
      | Some e => Some e
      | None => Some TypeError
      end.
Proof.
  intros Hmsg Hbad. eexists. split.
  - apply (handleMessage_price_update _ _ _ _ Hmsg).
  - unfold setPriceHistory, setTrackedPrices. cbn [iterate bindC].
    rewrite (upsertPrices_throws tokens Hbad).
    cbn [state report_renderError with_browser priceHistory].
    rewrite (appendHistory_throws clock tokens Hbad).
    repeat split. cbn. now destruct (renderError (browser w)).
Qed.

Lemma malformed_entry_updates_nothing_witness :
  exists w',
    handleMessage (fun _ => "") (wellformed brokenUpdate) openWorld = Normal w' /\
    state w' = state openWorld /\
    connectionOf w' = connectionOf openWorld /\
    renderError (browser w')
    = match renderError (browser openWorld) with
      | Some e => Some e
      | None => Some TypeError
      end.
Proof.
  apply (malformed_entry_updates_nothing (fun _ => "") brokenUpdate
           [btcToken 65000%float; JObj [("price_usd", JNum 1%float)]]).
  - split; [reflexivity|]. eexists. split; reflexivity.
  - right. left. intros [s Hs]. discriminate Hs.
Defined.

(** ** Symbols once seen stay *)

Lemma keysKept_refl (w : World) : keysKept w w.
Proof. split; auto. Qed.

Lemma keysKept_trans (w1 w2 w3 : World) :
  keysKept w1 w2 -> keysKept w2 w3 -> keysKept w1 w3.
Proof. intros [H1 H2] [H3 H4]. split; auto. Qed.

Lemma keysKept_data (w w' : World) :
  dataSlices w' = dataSlices w -> keysKept w w'.
Proof.
  unfold dataSlices, keysKept. intros Heq.
  injection Heq as _ _ _ _ -> _ -> _. auto.
Qed.

Lemma upsertPrices_keys {unicode : CaseMapping} (tokens : list JSValue) :
  forall updated updated' : gmap string JSValue,
    upsertPrices tokens updated = Normal updated' ->
    forall key, is_Some (updated !! key) -> is_Some (updated' !! key).
Proof.
  induction tokens as [|tok tokens IH]; intros updated updated' Hrun key Hkey.
  - now injection Hrun as <-.
  - cbn [upsertPrices] in Hrun. unfold bindC in Hrun.
    destruct (symbolKey tok) as [sym|]; [|discriminate].
    apply (IH _ _ Hrun). rewrite lookup_insert_is_Some'. now right.
Qed.

Lemma appendHistory_keys {unicode : CaseMapping}
    (clock : nat -> string) (tokens : list JSValue) :
  forall (k : nat) (next next' : gmap string (list PricePoint)),
    appendHistory clock k tokens next = Normal next' ->
    forall key, is_Some (next !! key) -> is_Some (next' !! key).
Proof.
  induction tokens as [|tok tokens IH]; intros k next next' Hrun key Hkey.
  - now injection Hrun as <-.
  - cbn [appendHistory] in Hrun. unfold bindC in Hrun.
    destruct (symbolKey tok) as [sym|]; [|discriminate].
    destruct (getProp tok "price_usd") as [price|]; [|discriminate].
    destruct (isNullish price); [now apply (IH _ _ _ Hrun)|].
    apply (IH _ _ _ Hrun). rewrite lookup_insert_is_Some'. now right.
Qed.

Lemma price_update_keys {unicode : CaseMapping}
    (clock : nat -> string) (tokens : JSValue) (w : World) :
  keysKept w (setPriceHistory clock tokens (setTrackedPrices tokens w)).
Proof.
  apply keysKept_trans with (setTrackedPrices tokens w).
  - unfold setTrackedPrices, bindC.
    destruct (iterate tokens) as [items|]; [|now apply keysKept_data].
    destruct (upsertPrices items (trackedPrices (state w))) as [updated|] eqn:Hrun;
      [|now apply keysKept_data].
    split; [|auto]. cbn. now apply (upsertPrices_keys items).
  - set (w1 := setTrackedPrices tokens w).
    unfold setPriceHistory, bindC.
    destruct (iterate tokens) as [items|]; [|now apply keysKept_data].
    destruct (appendHistory clock 0 items (priceHistory (state w1)))
      as [next|] eqn:Hrun; [|now apply keysKept_data].
    split; [auto|]. cbn. now apply (appendHistory_keys clock items 0).
Qed.

Lemma handleMessage_keys {unicode : CaseMapping}
    (clock : nat -> string) (event : MessageEvent)
    (w : World) :
  keysKept w (settle w (handleMessage clock event w)).
Proof.
  unfold handleMessage, handleMessage_try, bindC.
  repeat case_match; simplify_eq; cbn [settle];
    try apply price_update_keys; split; cbn; auto.
Qed.

Lemma step_keys {unicode : CaseMapping} (e : Env) (ev : Event) (w w' : World) :
  step e ev w = Some w' -> keysKept w w'.
Proof.
  intros Hstep. destruct (isDataEvent ev) eqn:Hdata.
  - destruct ev; try discriminate Hdata; cbn [step] in Hstep.
    + repeat case_match; simplify_eq. apply handleMessage_keys.
    + injection Hstep as <-. split; cbn; auto.
  - apply keysKept_data. now apply (step_data e ev).
Qed.

(** X6. Entries are never removed from the two symbol-keyed maps: along
    any run of the provider, a symbol that has an entry in the price map, or
    a history, still has one afterwards. Neither [clearSignals] nor losing
    the connection drops them. *)
Theorem symbols_are_never_dropped {unicode : CaseMapping}
    (e : Env) (trace : list Event) (w w' : World) :
  run e trace w = Some w' ->
  keysKept w w'.
Proof.
  apply (run_relation e keysKept keysKept_refl keysKept_trans (step_keys e)).
Qed.

Lemma symbols_are_never_dropped_witness :
  is_Some (priceHistory (state (after sampleEnv mixedTrace pricedWorld)) !! "BTC").
Proof.
  apply (symbols_are_never_dropped sampleEnv mixedTrace pricedWorld
           (after sampleEnv mixedTrace pricedWorld)).
  - vm_compute; reflexivity.
  - vm_compute. eauto.
Defined.

(** ** The retry counter and the delays *)

Lemma step_retry_bounds {unicode : CaseMapping}
    (e : Env) (ev : Event) (w w' : World) :
  (0 <= reconnectAttempts (refs w) <= MAX_RECONNECT_ATTEMPTS)%Z /\
  Forall (fun d => (3000 <= d <= 30000)%Z) (scheduledDelays w) ->
  step e ev w = Some w' ->
  (0 <= reconnectAttempts (refs w') <= MAX_RECONNECT_ATTEMPTS)%Z /\
  Forall (fun d => (3000 <= d <= 30000)%Z) (scheduledDelays w').
Proof.
  intros (Hrange & Hdelays) Hstep. apply step_effect in Hstep.
  unfold MAX_RECONNECT_ATTEMPTS in *.
  destruct ev;
    try (destruct Hstep as (Hatt & Hdel & _); rewrite Hatt, Hdel; now split).
  - destruct Hstep as (Hatt & _ & Hdel). rewrite Hatt, Hdel. split; [lia|assumption].
  - destruct Hstep as (_ & Hclose).
    destruct (Z.ltb_spec (reconnectAttempts (refs w)) 10) as [Hlt | Hge];
      destruct Hclose as (Hatt & Hdel); rewrite Hatt, Hdel.
    + split; [lia|]. apply Forall_app. split; [assumption|].
      constructor; [|constructor].
      unfold reconnectDelay, RECONNECT_INTERVAL. lia.
    + now split.
Qed.

(** X7. In every world the provider reaches, the retry counter is between
    0 and 10, and every reconnect timeout it has ever set waits at least 3
    and at most 30 seconds. *)
Theorem retry_counter_and_delays_bounded {unicode : CaseMapping}
    (e : Env) (tok : option string)
    (trace : list Event) (w : World) :
  run e trace (initialWorld tok) = Some w ->
  (0 <= reconnectAttempts (refs w) <= MAX_RECONNECT_ATTEMPTS)%Z /\
  Forall (fun d => (3000 <= d <= 30000)%Z) (scheduledDelays w).
Proof.
  apply (run_invariant e
           (fun w => (0 <= reconnectAttempts (refs w) <= MAX_RECONNECT_ATTEMPTS)%Z /\
                     Forall (fun d => (3000 <= d <= 30000)%Z) (scheduledDelays w))
           (step_retry_bounds e)).
  split; [unfold MAX_RECONNECT_ATTEMPTS; cbn; lia | constructor].
Qed.

Lemma retry_counter_and_delays_bounded_witness :
  (0 <= reconnectAttempts
          (refs (after sampleEnv (tenFailures ++ afterExhaustion)
                   (initialWorld None)))
     <= MAX_RECONNECT_ATTEMPTS)%Z /\
  Forall (fun d => (3000 <= d <= 30000)%Z)
    (scheduledDelays (after sampleEnv (tenFailures ++ afterExhaustion)
                        (initialWorld None))).
Proof.
  apply (retry_counter_and_delays_bounded sampleEnv None
           (tenFailures ++ afterExhaustion)).
  vm_compute; reflexivity.
Defined.

(** ** Sockets and the frames sent on them *)

Lemma socketsExtend_refl (l : list WebSocket) : socketsExtend l l.
Proof. intros id ws Hlk. exists ws. auto. Qed.

Lemma socketsExtend_trans (l1 l2 l3 : list WebSocket) :
  socketsExtend l1 l2 -> socketsExtend l2 l3 -> socketsExtend l1 l3.
Proof.
  intros H12 H23 id ws Hlk.
  destruct (H12 id ws Hlk) as (ws2 & Hlk2 & Hurl2 & Hsent2).
  destruct (H23 id ws2 Hlk2) as (ws3 & Hlk3 & Hurl3 & Hsent3).
  exists ws3. split; [exact Hlk3|]. split; [congruence|].
  now transitivity (sent ws2).
Qed.

Lemma socketsExtend_alter (f : WebSocket -> WebSocket) (i : nat)
    (l : list WebSocket) :
  (forall ws, url (f ws) = url ws /\ sent (f ws) = sent ws) ->
  socketsExtend l (alter f i l).
Proof.
  intros Hf id ws Hlk.
  destruct (decide (i = id)) as [-> | Hne].
  - exists (f ws). rewrite list_lookup_alter_eq, Hlk.
    destruct (Hf ws) as [Hurl Hsent]. rewrite Hsent. auto.
  - exists ws. rewrite list_lookup_alter_ne by exact Hne. auto.
Qed.

Lemma socketsExtend_app (l k : list WebSocket) : socketsExtend l (l ++ k).
Proof.
  intros id ws Hlk. exists ws.
  rewrite lookup_app_l by (now apply lookup_lt_Some with ws). auto.
Qed.

Lemma sendCommand_sockets (command : WebSocketCommand) (w : World) :
  sockets (browser (settle w (sendCommand command w))) = sockets (browser w) \/
  exists id ws,
    wsRef (refs w) = Some id /\ sockets (browser w) !! id = Some ws /\
    readyState ws = OPEN /\
    sockets (browser (settle w (sendCommand command w)))
    = <[id := {| url := url ws; readyState := readyState ws;
                 sent := sent ws ++ [command] |}]> (sockets (browser w)).
Proof.
  unfold sendCommand.
  destruct (currentIsOpen w) eqn:Hopen; [|now left].
  destruct (currentIsOpen_true w Hopen) as (id & ws & Href & Hws & Hcur & Hrs).
  right. exists id, ws. rewrite Href, Hcur. unfold socket_send. rewrite Hrs.
  repeat split; assumption.
Qed.

Lemma sendCommand_extends (command : WebSocketCommand) (w : World) :
  socketsExtend (sockets (browser w))
    (sockets (browser (settle w (sendCommand command w)))).
Proof.
  destruct (sendCommand_sockets command w) as [-> | (id & ws & _ & Hws & _ & ->)].
  - apply socketsExtend_refl.
  - intros id' ws' Hlk.
    destruct (decide (id = id')) as [<- | Hne].
    + rewrite Hws in Hlk. injection Hlk as <-.
      eexists. rewrite list_lookup_insert_eq by (now apply lookup_lt_Some with ws).
      split; [reflexivity|]. split; [reflexivity|]. cbn. now apply prefix_app_r.
    + exists ws'. rewrite list_lookup_insert_ne by exact Hne. auto.
Qed.

Lemma handleMessage_browser {unicode : CaseMapping}
    (clock : nat -> string) (event : MessageEvent)
    (w : World) :
  refs (settle w (handleMessage clock event w)) = refs w /\
  sockets (browser (settle w (handleMessage clock event w))) = sockets (browser w) /\
  timers (browser (settle w (handleMessage clock event w))) = timers (browser w).
Proof.
  unfold handleMessage, handleMessage_try, setPriceHistory, setTrackedPrices,
    bindC.
  repeat case_match; simplify_eq; repeat split.
Qed.

Lemma connect_sockets (e : Env) (w : World) :
  (sockets (browser (connect e w)) = sockets (browser w) /\
   wsRef (refs (connect e w)) = wsRef (refs w)) \/
  (currentIsOpen w = false /\
   sockets (browser (connect e w))
   = sockets (browser w) ++ [WebSocket_new (buildWsUrl e (getAuthToken e w))] /\
   wsRef (refs (connect e w)) = Some (length (sockets (browser w)))).
Proof.
  unfold connect.
  destruct (currentIsOpen w); [now left|].
  destruct (WebSocket_accepts e _); [right | left]; repeat split.
Qed.

Lemma onopen_sockets (w : World) :
  sockets (browser (onopen w)) = sockets (browser w).
Proof. reflexivity. Qed.

Lemma onclose_sockets (w : World) :
  sockets (browser (onclose w)) = sockets (browser w).
Proof.
  unfold onclose. destruct (pingInterval _); destruct (_ <? _)%Z; reflexivity.
Qed.

Lemma cleanup_sockets (w : World) :
  sockets (browser (cleanup w)) = sockets (browser w) \/
  exists id, wsRef (refs w) = Some id /\
             sockets (browser (cleanup w)) = alter socket_close id (sockets (browser w)).
Proof.
  unfold cleanup.
  destruct (reconnectTimeout (refs w)); destruct (pingInterval _);
    cbn; destruct (wsRef (refs w)) as [id|]; cbn; eauto.
Qed.

Lemma socket_close_keeps (ws : WebSocket) :
  url (socket_close ws) = url ws /\ sent (socket_close ws) = sent ws.
Proof. unfold socket_close. now destruct (readyState ws). Qed.

Lemma step_sockets {unicode : CaseMapping}
    (e : Env) (ev : Event) (w w' : World) :
  step e ev w = Some w' ->
  socketsExtend (sockets (browser w)) (sockets (browser w')).
Proof.
  destruct ev; cbn [step]; intros Hstep.
  - injection Hstep as <-.
    destruct (connect_sockets e w) as [[-> _] | (_ & -> & _)];
      [apply socketsExtend_refl | apply socketsExtend_app].
  - injection Hstep as <-.
    destruct (cleanup_sockets w) as [-> | (id & _ & ->)];
      [apply socketsExtend_refl|].
    apply socketsExtend_alter, socket_close_keeps.
  - repeat case_match; simplify_eq. rewrite onopen_sockets. cbn.
    now apply socketsExtend_alter.
  - repeat case_match; simplify_eq.
    destruct (handleMessage_browser clock event w) as (_ & -> & _).
    apply socketsExtend_refl.
  - repeat case_match; simplify_eq. apply socketsExtend_refl.
  - repeat case_match; simplify_eq; rewrite onclose_sockets; cbn;
      now apply socketsExtend_alter.
  - destruct (timers (browser w) !! h) as [tm|]; [|discriminate].
    destruct (active tm); [|discriminate]. injection Hstep as <-.
    set (w1 := if repeating tm then w else clearTimer h w).
    assert (Hw1 : sockets (browser w1) = sockets (browser w))
      by (unfold w1; now destruct (repeating tm)).
    rewrite <- Hw1.
    destruct (callback tm).
    + destruct (connect_sockets e w1) as [[-> _] | (_ & -> & _)];
        [apply socketsExtend_refl | apply socketsExtend_app].
    + apply sendCommand_extends.
  - injection Hstep as <-. apply socketsExtend_refl.
  - injection Hstep as <-. apply sendCommand_extends.
  - injection Hstep as <-. apply sendCommand_extends.
  - injection Hstep as <-. apply socketsExtend_refl.
Qed.

(** X8. Along any run of the provider a socket, once created, stays in the
    socket table at its index with its URL, and the frames it had sent stay,
    in order, at the front of the frames it has sent: nothing is ever
    retracted, reordered or moved to another socket. *)
Theorem sent_frames_only_grow {unicode : CaseMapping}
    (e : Env) (trace : list Event) (w w' : World) :
  run e trace w = Some w' ->
  socketsExtend (sockets (browser w)) (sockets (browser w')).
Proof.
  apply (run_relation e
           (fun w w' => socketsExtend (sockets (browser w)) (sockets (browser w')))).
  - intros w0. apply socketsExtend_refl.
  - intros w1 w2 w3. apply socketsExtend_trans.
  - apply step_sockets.
Qed.

Lemma sent_frames_only_grow_witness :
  socketsExtend (sockets (browser busyWorld))
    (sockets (browser (after sampleEnv reconnectTrace busyWorld))).
Proof.
  apply (sent_frames_only_grow sampleEnv reconnectTrace).
  vm_compute; reflexivity.
Defined.

Lemma alter_keeps_sent (f : WebSocket -> WebSocket) (i id : nat)
    (l : list WebSocket) (ws ws' : WebSocket) :
  (forall x, sent (f x) = sent x) ->
  l !! id = Some ws -> alter f i l !! id = Some ws' -> sent ws' = sent ws.
Proof.
  intros Hf Hlk Hlk'. destruct (decide (i = id)) as [-> | Hne].
  - rewrite list_lookup_alter_eq, Hlk in Hlk'. injection Hlk' as <-. apply Hf.
  - rewrite list_lookup_alter_ne, Hlk in Hlk' by exact Hne. now injection Hlk' as <-.
Qed.

Lemma sendCommand_sent (command : WebSocketCommand) (w : World) (id : nat)
    (ws ws' : WebSocket) :
  sockets (browser w) !! id = Some ws ->
  sockets (browser (settle w (sendCommand command w))) !! id = Some ws' ->
  sent ws' <> sent ws ->
  readyState ws = OPEN /\ wsRef (refs w) = Some id /\
  sent ws' = sent ws ++ [command].
Proof.
  intros Hlk Hlk' Hdiff.
  destruct (sendCommand_sockets command w)
    as [Heq | (id0 & ws0 & Href & Hws0 & Hopen & Heq)]; rewrite Heq in Hlk'.
  - rewrite Hlk in Hlk'. injection Hlk' as <-. contradiction.
  - destruct (decide (id0 = id)) as [-> | Hne].
    + rewrite Hlk in Hws0. injection Hws0 as <-.
      rewrite list_lookup_insert_eq in Hlk' by (now apply lookup_lt_Some with ws).
      injection Hlk' as <-. auto.
    + rewrite list_lookup_insert_ne, Hlk in Hlk' by exact Hne.
      injection Hlk' as <-. contradiction.
Qed.

Lemma connect_sent (e : Env) (w : World) (id : nat) (ws ws' : WebSocket) :
  sockets (browser w) !! id = Some ws ->
  sockets (browser (connect e w)) !! id = Some ws' ->
  ws' = ws.
Proof.
  intros Hlk Hlk'.
  destruct (connect_sockets e w) as [[Heq _] | (_ & Heq & _)]; rewrite Heq in Hlk'.
  - congruence.
  - rewrite lookup_app_l in Hlk' by (now apply lookup_lt_Some with ws). congruence.
Qed.

Lemma set_readyState_sent (rs : ReadyState) (x : WebSocket) :
  sent (set_readyState rs x) = sent x.
Proof. reflexivity. Qed.

Lemma step_sent {unicode : CaseMapping}
    (e : Env) (ev : Event) (w w' : World) (id : nat)
    (ws ws' : WebSocket) :
  step e ev w = Some w' ->
  sockets (browser w) !! id = Some ws ->
  sockets (browser w') !! id = Some ws' ->
  sent ws' <> sent ws ->
  readyState ws = OPEN /\ wsRef (refs w) = Some id /\
  exists command, sent ws' = sent ws ++ [command].
Proof.
  intros Hstep Hlk Hlk' Hdiff.
  assert (Hsame : sent ws' = sent ws -> False) by (intros Heq; now apply Hdiff).
  destruct ev; cbn [step] in Hstep.
  - injection Hstep as <-. exfalso. apply Hsame.
    now rewrite (connect_sent e w id ws ws' Hlk Hlk').
  - injection Hstep as <-. exfalso. apply Hsame.
    destruct (cleanup_sockets w) as [Heq | (id0 & _ & Heq)]; rewrite Heq in Hlk'.
    + congruence.
    + eapply alter_keeps_sent;
        [intros x; apply socket_close_keeps | exact Hlk | exact Hlk'].
  - exfalso. apply Hsame. repeat case_match; simplify_eq.
    rewrite onopen_sockets in Hlk'. cbn in Hlk'.
    eapply alter_keeps_sent; [apply (set_readyState_sent OPEN) | exact Hlk | exact Hlk'].
  - exfalso. apply Hsame. repeat case_match; simplify_eq.
    destruct (handleMessage_browser clock event w) as (_ & Heq & _).
    rewrite Heq in Hlk'. congruence.
  - exfalso. apply Hsame. repeat case_match; simplify_eq. cbn in Hlk'. congruence.
  - exfalso. apply Hsame.
    repeat case_match; simplify_eq; rewrite onclose_sockets in Hlk'; cbn in Hlk';
      (eapply alter_keeps_sent;
       [apply (set_readyState_sent CLOSED) | exact Hlk | exact Hlk']).
  - destruct (timers (browser w) !! h) as [tm|]; [|discriminate].
    destruct (active tm); [|discriminate]. injection Hstep as <-.
    set (w1 := if repeating tm then w else clearTimer h w) in *.
    assert (Hw1 : sockets (browser w1) = sockets (browser w) /\ refs w1 = refs w)
      by (unfold w1; now destruct (repeating tm)).
    destruct Hw1 as [Hs1 Hr1]. rewrite <- Hs1 in Hlk. rewrite <- Hr1.
    destruct (callback tm).
    + exfalso. apply Hsame. now rewrite (connect_sent e w1 id ws ws' Hlk Hlk').
    + destruct (sendCommand_sent ping_cmd w1 id ws ws' Hlk Hlk' Hdiff)
        as (Ho & Hr & Hs). eauto.
  - injection Hstep as <-. cbn in Hlk'. exfalso. apply Hsame. congruence.
  - injection Hstep as <-.
    destruct (sendCommand_sent _ w id ws ws' Hlk Hlk' Hdiff) as (Ho & Hr & Hs).
    eauto.
  - injection Hstep as <-.
    destruct (sendCommand_sent _ w id ws ws' Hlk Hlk' Hdiff) as (Ho & Hr & Hs).
    eauto.
  - injection Hstep as <-. cbn in Hlk'. exfalso. apply Hsame. congruence.
Qed.

Lemma newestSocket_length (w : World) :
  newestSocket w <->
  wsRef (refs w) = match length (sockets (browser w)) with
                   | O => None
                   | S n => Some n
                   end.
Proof.
  unfold newestSocket. destruct (sockets (browser w)); cbn; [tauto|].
  now rewrite Nat.sub_0_r.
Qed.

Lemma newestSocket_same (w w' : World) :
  wsRef (refs w') = wsRef (refs w) ->
  length (sockets (browser w')) = length (sockets (browser w)) ->
  newestSocket w -> newestSocket w'.
Proof. rewrite !newestSocket_length. intros -> ->. auto. Qed.

Lemma connect_newest (e : Env) (w : World) :
  newestSocket w -> newestSocket (connect e w).
Proof.
  intros Hnew.
  destruct (connect_sockets e w) as [[Hs Hr] | (_ & Hs & Hr)].
  - apply (newestSocket_same w); [exact Hr | now rewrite Hs | exact Hnew].
  - apply newestSocket_length. rewrite Hr, Hs, length_app. cbn.
    now rewrite Nat.add_1_r.
Qed.

Lemma sendCommand_newest (command : WebSocketCommand) (w : World) :
  newestSocket w -> newestSocket (settle w (sendCommand command w)).
Proof.
  apply newestSocket_same.
  - unfold sendCommand, socket_send, bindC.
    repeat case_match; simplify_eq; cbn; congruence.
  - destruct (sendCommand_sockets command w) as [-> | (id & ws & _ & _ & _ & ->)];
      [reflexivity | apply length_insert].
Qed.

Lemma step_newest {unicode : CaseMapping}
    (e : Env) (ev : Event) (w w' : World) :
  newestSocket w -> step e ev w = Some w' -> newestSocket w'.
Proof.
  intros Hnew. destruct ev; cbn [step]; intros Hstep.
  - injection Hstep as <-. now apply connect_newest.
  - injection Hstep as <-. apply (newestSocket_same w); [| |exact Hnew].
    + unfold cleanup. repeat case_match; reflexivity.
    + destruct (cleanup_sockets w) as [-> | (id & _ & ->)];
        [reflexivity | apply length_alter].
  - repeat case_match; simplify_eq. apply (newestSocket_same w); [| |exact Hnew].
    + reflexivity.
    + rewrite onopen_sockets. cbn. apply length_alter.
  - repeat case_match; simplify_eq.
    destruct (handleMessage_browser clock event w) as (Hr & Hs & _).
    apply (newestSocket_same w); [now rewrite Hr | now rewrite Hs | exact Hnew].
  - repeat case_match; simplify_eq. exact Hnew.
  - assert (Hclose : forall w0, wsRef (refs (onclose w0)) = wsRef (refs w0))
      by (intros w0; unfold onclose;
          destruct (pingInterval _); destruct (_ <? _)%Z; reflexivity).
    repeat case_match; simplify_eq;
      (apply (newestSocket_same w);
       [now rewrite Hclose
       | rewrite onclose_sockets; cbn; apply length_alter
       | exact Hnew]).
  - destruct (timers (browser w) !! h) as [tm|]; [|discriminate].
    destruct (active tm); [|discriminate]. injection Hstep as <-.
    assert (Hw1 : newestSocket (if repeating tm then w else clearTimer h w))
      by (destruct (repeating tm); [exact Hnew|];
          now apply (newestSocket_same w)).
    destruct (callback tm); [now apply connect_newest | now apply sendCommand_newest].
  - injection Hstep as <-. exact Hnew.
  - injection Hstep as <-. now apply sendCommand_newest.
  - injection Hstep as <-. now apply sendCommand_newest.
  - injection Hstep as <-. exact Hnew.
Qed.

Lemma initial_newest (tok : option string) : newestSocket (initialWorld tok).
Proof. reflexivity. Qed.

(** X9. Whenever a step of a reachable provider makes a socket's sent
    frames differ, that socket was open, it was the socket created last,
    and exactly one frame was appended. Commands are never written to a
    socket that is connecting, closing or closed, nor to a socket that a
    later [connect] has replaced. *)
Theorem frames_go_to_newest_open_socket {unicode : CaseMapping}
    (e : Env) (tok : option string)
    (trace : list Event) (ev : Event) (w w' : World) (id : nat)
    (ws ws' : WebSocket) :
  run e trace (initialWorld tok) = Some w ->
  step e ev w = Some w' ->
  sockets (browser w) !! id = Some ws ->
  sockets (browser w') !! id = Some ws' ->
  sent ws' <> sent ws ->
  readyState ws = OPEN /\
  S id = length (sockets (browser w)) /\
  exists command, sent ws' = sent ws ++ [command].
Proof.
  intros Hreach Hstep Hlk Hlk' Hdiff.
  destruct (step_sent e ev w w' id ws ws' Hstep Hlk Hlk' Hdiff)
    as (Hopen & Href & Hsent).
  split; [exact Hopen|]. split; [|exact Hsent].
  assert (Hnew : newestSocket w)
    by (apply (run_invariant e newestSocket (step_newest e) trace
                 (initialWorld tok) w (initial_newest tok) Hreach)).
  apply newestSocket_length in Hnew. rewrite Href in Hnew.
  destruct (length (sockets (browser w))); congruence.
Qed.

Lemma frames_go_to_newest_open_socket_witness :
  exists ws ws',
    sockets (browser openWorld) !! 0 = Some ws /\
    sockets (browser (after sampleEnv [call_subscribe token "BTC"] openWorld)) !! 0
    = Some ws' /\
    readyState ws = OPEN /\ 1 = length (sockets (browser openWorld)) /\
    exists command, sent ws' = sent ws ++ [command].
Proof.
  eexists. eexists. split; [reflexivity|]. split; [reflexivity|].
  apply (frames_go_to_newest_open_socket sampleEnv (Some "secret")
           [ev_mount; ev_open 0] (call_subscribe token "BTC") openWorld
           (after sampleEnv [call_subscribe token "BTC"] openWorld) 0).
  - vm_compute; reflexivity.
  - vm_compute; reflexivity.
  - reflexivity.
  - reflexivity.
  - vm_compute. discriminate.
Defined.

(** ** Timers *)

Lemma kindAt_alter (h i : nat) (l : list Timer) :
  kindAt (alter deactivate h l) i = kindAt l i.
Proof.
  unfold kindAt. rewrite list_lookup_alter.
  case_decide; [|reflexivity]. subst. now destruct (l !! i).
Qed.

Lemma kindAt_app (l k : list Timer) (i : nat) (kind : TimerCallback * bool) :
  kindAt l i = Some kind -> kindAt (l ++ k) i = Some kind.
Proof.
  unfold kindAt. intros Hk.
  destruct (l !! i) as [tm|] eqn:Hlk; [|discriminate].
  now rewrite (lookup_app_l_Some _ _ _ _ Hlk).
Qed.

Lemma kindAt_new (l : list Timer) (tm : Timer) :
  kindAt (l ++ [tm]) (length l) = Some (callback tm, repeating tm).
Proof. unfold kindAt. now rewrite list_lookup_middle. Qed.

Lemma kindAt_lt (l : list Timer) (i : nat) (kind : TimerCallback * bool) :
  kindAt l i = Some kind -> i < length l.
Proof.
  unfold kindAt. destruct (l !! i) as [tm|] eqn:Hlk; [|discriminate].
  intros _. now apply lookup_lt_Some with tm.
Qed.

Lemma activeAt_alter_eq (h : nat) (l : list Timer) :
  h < length l -> activeAt (alter deactivate h l) h = Some false.
Proof.
  intros Hlt. unfold activeAt. rewrite list_lookup_alter_eq.
  destruct (lookup_lt_is_Some_2 l h Hlt) as [tm ->]. reflexivity.
Qed.

Lemma activeAt_alter_ne (h i : nat) (l : list Timer) :
  h <> i -> activeAt (alter deactivate h l) i = activeAt l i.
Proof. intros Hne. unfold activeAt. now rewrite list_lookup_alter_ne. Qed.

Lemma activeAt_alter_false (h i : nat) (l : list Timer) :
  activeAt l i = Some false -> activeAt (alter deactivate h l) i = Some false.
Proof.
  unfold activeAt. rewrite list_lookup_alter.
  case_decide; [|auto]. subst. now destruct (l !! i).
Qed.

Lemma activeAt_app (l k : list Timer) (i : nat) (b : bool) :
  activeAt l i = Some b -> activeAt (l ++ k) i = Some b.
Proof.
  unfold activeAt. intros Hk.
  destruct (l !! i) as [tm|] eqn:Hlk; [|discriminate].
  now rewrite (lookup_app_l_Some _ _ _ _ Hlk).
Qed.

(** An unarmed or missing timer cannot fire. *)
Lemma timer_cannot_fire {unicode : CaseMapping}
    (e : Env) (h : nat) (w : World) :
  activeAt (timers (browser w)) h <> Some true ->
  step e (ev_timer h) w = None.
Proof.
  unfold activeAt. cbn [step]. intros Hoff.
  destruct (timers (browser w) !! h) as [tm|]; [|reflexivity].
  cbn in Hoff. destruct (active tm); [|reflexivity]. exfalso. now apply Hoff.
Qed.

(** The timer table and the timer refs after the close handler. *)
Lemma onclose_timers (w : World) :
  let cleared := match pingInterval (refs w) with
                 | Some h => alter deactivate h (timers (browser w))
                 | None => timers (browser w)
                 end in
  pingInterval (refs (onclose w)) = pingInterval (refs w) /\
  if (reconnectAttempts (refs w) <? MAX_RECONNECT_ATTEMPTS)%Z then
    timers (browser (onclose w))
    = cleared ++ [{| repeating := false; callback := call_connect;
                     delay := reconnectDelay (reconnectAttempts (refs w) + 1);
                     active := true |}] /\
    reconnectTimeout (refs (onclose w)) = Some (length (timers (browser w)))
  else
    timers (browser (onclose w)) = cleared /\
    reconnectTimeout (refs (onclose w)) = reconnectTimeout (refs w).
Proof.
  cbv zeta. unfold onclose.
  set (w2 := setIsConnected false (console_write log_closed w)).
  change (pingInterval (refs w2)) with (pingInterval (refs w)).
  destruct (pingInterval (refs w)) as [h|] eqn:Hp.
  - change (reconnectAttempts (refs (clearTimer h w2)))
      with (reconnectAttempts (refs w)).
    destruct (reconnectAttempts (refs w) <? MAX_RECONNECT_ATTEMPTS)%Z;
      cbn; rewrite ?Hp, ?length_alter; repeat split.
  - change (reconnectAttempts (refs w2)) with (reconnectAttempts (refs w)).
    destruct (reconnectAttempts (refs w) <? MAX_RECONNECT_ATTEMPTS)%Z;
      cbn; rewrite ?Hp; repeat split.
Qed.

Lemma cleanup_timers (w : World) :
  refs (cleanup w) = refs w /\
  timers (browser (cleanup w))
  = match pingInterval (refs w) with
    | Some h => alter deactivate h
    | None => fun l => l
    end (match reconnectTimeout (refs w) with
         | Some h => alter deactivate h
         | None => fun l => l
         end (timers (browser w))).
Proof.
  unfold cleanup.
  destruct (reconnectTimeout (refs w)); destruct (pingInterval (refs w)) eqn:Hp;
    cbn; rewrite ?Hp; cbn; destruct (wsRef (refs w)); repeat split.
Qed.

Lemma handlesTyped_deactivated (w w' : World) (f : list Timer -> list Timer) :
  (forall l i, kindAt (f l) i = kindAt l i) ->
  timers (browser w') = f (timers (browser w)) ->
  reconnectTimeout (refs w') = reconnectTimeout (refs w) ->
  pingInterval (refs w') = pingInterval (refs w) ->
  handlesTyped w -> handlesTyped w'.
Proof.
  intros Hf Ht Hr Hp [H1 H2]. unfold handlesTyped.
  rewrite Ht, Hr, Hp. split; intros h Hh; rewrite Hf; auto.
Qed.

Lemma connect_timers (e : Env) (w : World) :
  timers (browser (connect e w)) = timers (browser w) /\
  reconnectTimeout (refs (connect e w)) = reconnectTimeout (refs w) /\
  pingInterval (refs (connect e w)) = pingInterval (refs w).
Proof. unfold connect. repeat case_match; repeat split. Qed.

Lemma sendCommand_timers (command : WebSocketCommand) (w : World) :
  timers (browser (settle w (sendCommand command w))) = timers (browser w) /\
  reconnectTimeout (refs (settle w (sendCommand command w)))
  = reconnectTimeout (refs w) /\
  pingInterval (refs (settle w (sendCommand command w))) = pingInterval (refs w).
Proof.
  unfold sendCommand, socket_send, bindC.
  repeat case_match; simplify_eq; repeat split.
Qed.

Lemma step_handlesTyped {unicode : CaseMapping}
    (e : Env) (ev : Event) (w w' : World) :
  handlesTyped w -> step e ev w = Some w' -> handlesTyped w'.
Proof.
  intros Hty. destruct ev; cbn [step]; intros Hstep.
  - injection Hstep as <-. destruct (connect_timers e w) as (Ht & Hr & Hp).
    now apply (handlesTyped_deactivated w _ (fun l => l)).
  - injection Hstep as <-. destruct (cleanup_timers w) as (Hrefs & Ht).
    apply (handlesTyped_deactivated w _
             (fun l => match pingInterval (refs w) with
                       | Some h => alter deactivate h
                       | None => fun l => l
                       end (match reconnectTimeout (refs w) with
                            | Some h => alter deactivate h
                            | None => fun l => l
                            end l)));
      [|exact Ht | now rewrite Hrefs | now rewrite Hrefs | exact Hty].
    intros l i. destruct (pingInterval (refs w));
      destruct (reconnectTimeout (refs w)); now rewrite ?kindAt_alter.
  - repeat case_match; simplify_eq. destruct Hty as [H1 H2].
    split; cbn.
    + intros h Hh. apply kindAt_app. now apply H1.
    + intros h Hh. injection Hh as <-. apply kindAt_new.
  - repeat case_match; simplify_eq.
    destruct (handleMessage_browser clock event w) as (Hr & _ & Ht).
    apply (handlesTyped_deactivated w _ (fun l => l));
      [reflexivity | exact Ht | now rewrite Hr | now rewrite Hr | exact Hty].
  - repeat case_match; simplify_eq. exact Hty.
  - assert (Hclose : forall w0, timers (browser w0) = timers (browser w) ->
              reconnectTimeout (refs w0) = reconnectTimeout (refs w) ->
              pingInterval (refs w0) = pingInterval (refs w) ->
              handlesTyped (onclose w0)).
    { intros w0 Ht Hr Hp. destruct Hty as [H1 H2].
      destruct (onclose_timers w0) as (Hping & Hshape).
      rewrite Hp, Ht in Hshape. rewrite Hp in Hping.
      set (cleared := match pingInterval (refs w) with
                      | Some h => alter deactivate h (timers (browser w))
                      | None => timers (browser w)
                      end) in *.
      assert (Hcleared : forall i, kindAt cleared i = kindAt (timers (browser w)) i)
        by (intros i; unfold cleared; destruct (pingInterval (refs w));
            [apply kindAt_alter | reflexivity]).
      assert (Hlen : length cleared = length (timers (browser w)))
        by (unfold cleared; destruct (pingInterval (refs w));
            [apply length_alter | reflexivity]).
      destruct (reconnectAttempts (refs w0) <? MAX_RECONNECT_ATTEMPTS)%Z;
        destruct Hshape as (Htimers & Hre); split; rewrite Htimers.
      - intros h Hh. rewrite Hre in Hh. injection Hh as <-.
        rewrite <- Hlen. apply kindAt_new.
      - intros h Hh. rewrite Hping in Hh. apply kindAt_app.
        rewrite Hcleared. now apply H2.
      - intros h Hh. rewrite Hre, Hr in Hh. rewrite Hcleared. now apply H1.
      - intros h Hh. rewrite Hping in Hh. rewrite Hcleared. now apply H2. }
    repeat case_match; simplify_eq; now apply Hclose.
  - destruct (timers (browser w) !! h) as [tm|]; [|discriminate].
    destruct (active tm); [|discriminate]. injection Hstep as <-.
    assert (Hw1 : handlesTyped (if repeating tm then w else clearTimer h w)).
    { destruct (repeating tm); [exact Hty|].
      apply (handlesTyped_deactivated w _ (alter deactivate h));
        [intros l i; apply kindAt_alter
        | reflexivity | reflexivity | reflexivity | exact Hty]. }
    set (w1 := if repeating tm then w else clearTimer h w) in *.
    destruct (callback tm).
    + destruct (connect_timers e w1) as (Ht & Hr & Hp).
      now apply (handlesTyped_deactivated w1 _ (fun l => l)).
    + destruct (sendCommand_timers ping_cmd w1) as (Ht & Hr & Hp).
      now apply (handlesTyped_deactivated w1 _ (fun l => l)).
  - injection Hstep as <-. exact Hty.
  - injection Hstep as <-.
    destruct (sendCommand_timers (subscribe_cmd type value) w) as (Ht & Hr & Hp).
    now apply (handlesTyped_deactivated w _ (fun l => l)).
  - injection Hstep as <-.
    destruct (sendCommand_timers (unsubscribe_cmd type value) w) as (Ht & Hr & Hp).
    now apply (handlesTyped_deactivated w _ (fun l => l)).
  - injection Hstep as <-. exact Hty.
Qed.

Lemma reachable_handlesTyped {unicode : CaseMapping}
    (e : Env) (tok : option string)
    (trace : list Event) (w : World) :
  run e trace (initialWorld tok) = Some w -> handlesTyped w.
Proof.
  apply (run_invariant e handlesTyped (step_handlesTyped e)).
  split; intros h Hh; discriminate Hh.
Qed.

(** X10. When a socket of a reachable provider closes, the heartbeat stops:
    the interval whose handle [pingInterval] holds is disarmed by the close
    handler and can no longer fire. *)
Theorem close_stops_heartbeat {unicode : CaseMapping}
    (e : Env) (tok : option string)
    (trace : list Event) (id h : nat) (w w' : World) :
  run e trace (initialWorld tok) = Some w ->
  step e (ev_close id) w = Some w' ->
  pingInterval (refs w') = Some h ->
  activeAt (timers (browser w')) h = Some false /\
  step e (ev_timer h) w' = None.
Proof.
  intros Hreach Hstep Hping.
  assert (Hoff : activeAt (timers (browser w')) h = Some false).
  { destruct (reachable_handlesTyped e tok trace w Hreach) as [_ Hty].
    cbn [step] in Hstep.
    destruct (sockets (browser w) !! id) as [ws|]; [|discriminate].
    assert (Hw' : w' = onclose (with_sockets (alter (set_readyState CLOSED) id) w))
      by (destruct (readyState ws); now simplify_eq).
    subst w'. set (w0 := with_sockets _ w) in *.
    destruct (onclose_timers w0) as (Hsame & Hshape).
    rewrite Hsame in Hping. change (pingInterval (refs w0)) with
      (pingInterval (refs w)) in *.
    change (timers (browser w0)) with (timers (browser w)) in *.
    rewrite Hping in Hshape.
    assert (Hlt : h < length (timers (browser w)))
      by (apply kindAt_lt with (send_ping, true); now apply Hty).
    destruct (reconnectAttempts (refs w0) <? MAX_RECONNECT_ATTEMPTS)%Z;
      destruct Hshape as (-> & _).
    - apply activeAt_app. now apply activeAt_alter_eq.
    - now apply activeAt_alter_eq. }
  split; [exact Hoff|]. apply timer_cannot_fire. rewrite Hoff. discriminate.
Qed.

Lemma close_stops_heartbeat_witness :
  activeAt (timers (browser (after sampleEnv [ev_close 0] openWorld))) 0
  = Some false /\
  step sampleEnv (ev_timer 0) (after sampleEnv [ev_close 0] openWorld) = None.
Proof.
  apply (close_stops_heartbeat sampleEnv (Some "secret") [ev_mount; ev_open 0]
           0 0 openWorld).
  - vm_compute; reflexivity.
  - vm_compute; reflexivity.
  - reflexivity.
Defined.

(** ** The effect clean-up *)

Lemma activeAt_alter_off (h : nat) (l : list Timer) :
  activeAt (alter deactivate h l) h <> Some true.
Proof.
  unfold activeAt. rewrite list_lookup_alter_eq.
  destruct (l !! h); cbn; discriminate.
Qed.

Lemma activeAt_alter_stays_off (h i : nat) (l : list Timer) :
  activeAt l i <> Some true -> activeAt (alter deactivate h l) i <> Some true.
Proof.
  unfold activeAt. rewrite list_lookup_alter.
  case_decide; [|auto]. subst. destruct (l !! i); cbn; [discriminate|auto].
Qed.

Lemma cleanup_sockets_eq (w : World) :
  sockets (browser (cleanup w))
  = match wsRef (refs w) with
    | Some id => alter socket_close id (sockets (browser w))
    | None => sockets (browser w)
    end.
Proof.
  unfold cleanup.
  destruct (reconnectTimeout (refs w)); destruct (pingInterval _);
    cbn; destruct (wsRef (refs w)); reflexivity.
Qed.

Lemma alter_deactivate_absorb (h1 h2 : nat) (l : list Timer) :
  alter deactivate h2 (alter deactivate h1 (alter deactivate h2 l))
  = alter deactivate h2 (alter deactivate h1 l).
Proof.
  apply list_eq; intros i; rewrite !list_lookup_alter;
    repeat case_decide; simplify_eq; try congruence;
    repeat (match goal with
            | |- context [l !! ?j] => destruct (l !! j)
            end);
    reflexivity.
Qed.

Lemma alter_deactivate_idem (h : nat) (l : list Timer) :
  alter deactivate h (alter deactivate h l) = alter deactivate h l.
Proof.
  apply list_eq; intros i; rewrite !list_lookup_alter;
    repeat case_decide; simplify_eq; try congruence;
    destruct (l !! i); reflexivity.
Qed.

Lemma alter_socket_close_idem (id : nat) (l : list WebSocket) :
  alter socket_close id (alter socket_close id l) = alter socket_close id l.
Proof.
  apply list_eq. intros i. rewrite !list_lookup_alter.
  repeat case_decide; simplify_eq; try congruence; try reflexivity.
  destruct (l !! i) as [ws|]; [|reflexivity]. cbn. f_equal.
  unfold socket_close. destruct (readyState ws) eqn:Hrs; cbn; rewrite ?Hrs;
    reflexivity.
Qed.

(** X11. The effect clean-up disarms the reconnect timeout and the
    heartbeat interval whose handles the refs hold (neither can fire
    afterwards) and closes the current socket, which is then closing or
    already closed. It resets no ref: the handles and the socket stay in
    place, and the retry counter keeps its value. Running it twice is the
    same as running it once. *)
Theorem cleanup_disarms_and_closes {unicode : CaseMapping}
    (e : Env) (w : World) :
  refs (cleanup w) = refs w /\
  (forall h,
     reconnectTimeout (refs w) = Some h \/ pingInterval (refs w) = Some h ->
     step e (ev_timer h) (cleanup w) = None) /\
  (forall id ws,
     wsRef (refs w) = Some id ->
     sockets (browser (cleanup w)) !! id = Some ws ->
     readyState ws = CLOSING \/ readyState ws = CLOSED) /\
  cleanup (cleanup w) = cleanup w.
Proof.
  destruct (cleanup_timers w) as (Hrefs & Htimers).
  split; [exact Hrefs|]. split; [|split].
  - intros h Hh. apply timer_cannot_fire. rewrite Htimers.
    destruct Hh as [Hh | Hh]; rewrite Hh.
    + destruct (pingInterval (refs w));
        [apply activeAt_alter_stays_off|]; apply activeAt_alter_off.
    + apply activeAt_alter_off.
  - intros id ws Href Hlk. rewrite cleanup_sockets_eq, Href in Hlk.
    rewrite list_lookup_alter_eq in Hlk.
    destruct (sockets (browser w) !! id) as [ws0|]; [|discriminate].
    injection Hlk as <-. unfold socket_close.
    destruct (readyState ws0) eqn:Hrs; cbn; rewrite ?Hrs; auto.
  - destruct w as [st [ws ra rt pi] [so ti co iv au re]].
    clear Hrefs Htimers.
    destruct rt as [h1|]; destruct pi as [h2|]; destruct ws as [id|];
      cbv [cleanup clearTimer with_timers with_sockets with_browser refs
           browser state wsRef reconnectTimeout pingInterval timers sockets
           console invalidated authToken renderError];
      rewrite ?alter_socket_close_idem, ?alter_deactivate_absorb,
              ?alter_deactivate_idem;
      reflexivity.
Qed.

Lemma cleanup_disarms_and_closes_witness :
  step sampleEnv (ev_timer 0) (cleanup openWorld) = None /\
  cleanup (cleanup openWorld) = cleanup openWorld.
Proof.
  destruct (cleanup_disarms_and_closes sampleEnv openWorld)
    as (_ & Hoff & _ & Hidem).
  split; [|exact Hidem]. apply Hoff. right. reflexivity.
Defined.

Lemma onclose_refs (w : World) :
  wsRef (refs (onclose w)) = wsRef (refs w) /\
  authToken (browser (onclose w)) = authToken (browser w) /\
  reconnectAttempts (refs (onclose w))
  = (if (reconnectAttempts (refs w) <? MAX_RECONNECT_ATTEMPTS)%Z
     then reconnectAttempts (refs w) + 1 else reconnectAttempts (refs w))%Z.
Proof.
  unfold onclose.
  set (w2 := setIsConnected false (console_write log_closed w)).
  change (pingInterval (refs w2)) with (pingInterval (refs w)).
  destruct (pingInterval (refs w)) as [h|].
  - change (reconnectAttempts (refs (clearTimer h w2)))
      with (reconnectAttempts (refs w)).
    destruct (reconnectAttempts (refs w) <? MAX_RECONNECT_ATTEMPTS)%Z;
      repeat split.
  - change (reconnectAttempts (refs w2)) with (reconnectAttempts (refs w)).
    destruct (reconnectAttempts (refs w) <? MAX_RECONNECT_ATTEMPTS)%Z;
      repeat split.
Qed.

Lemma cleanup_authToken (w : World) :
  authToken (browser (cleanup w)) = authToken (browser w).
Proof.
  unfold cleanup.
  destruct (reconnectTimeout (refs w)); destruct (pingInterval _);
    cbn; destruct (wsRef (refs w)); reflexivity.
Qed.

(** X12. Tearing the effect down does not end reconnection. If the
    current socket is not yet closed and the retry counter is below the
    maximum, then after the clean-up the socket's close event arms a new
    reconnect timeout, and when that fires [connect] opens a fresh socket
    (to the URL built from the token then stored) and makes it current. *)
Theorem close_after_cleanup_reconnects {unicode : CaseMapping}
    (e : Env) (w : World) (id : nat)
    (ws : WebSocket) :
  wsRef (refs w) = Some id ->
  sockets (browser w) !! id = Some ws ->
  readyState ws <> CLOSED ->
  (reconnectAttempts (refs w) < MAX_RECONNECT_ATTEMPTS)%Z ->
  WebSocket_accepts e (buildWsUrl e (getAuthToken e w)) = true ->
  exists w',
    run e [ev_cleanup; ev_close id; ev_timer (length (timers (browser w)))] w
    = Some w' /\
    sockets (browser w') !! length (sockets (browser w))
    = Some (WebSocket_new (buildWsUrl e (getAuthToken e w))) /\
    wsRef (refs w') = Some (length (sockets (browser w))) /\
    reconnectAttempts (refs w') = (reconnectAttempts (refs w) + 1)%Z.
Proof.
  intros Href Hws Hnotclosed Hbudget Haccepts.
  apply Z.ltb_lt in Hbudget.
  (* after the clean-up *)
  set (w1 := cleanup w).
  destruct (cleanup_timers w) as (Hrefs1 & Htimers1). fold w1 in Hrefs1, Htimers1.
  assert (Hlen1 : length (timers (browser w1)) = length (timers (browser w))).
  { rewrite Htimers1. destruct (pingInterval (refs w));
      destruct (reconnectTimeout (refs w)); now rewrite ?length_alter. }
  assert (Hsock1 : sockets (browser w1) = alter socket_close id (sockets (browser w)))
    by (unfold w1; now rewrite cleanup_sockets_eq, Href).
  assert (Hlk1 : sockets (browser w1) !! id = Some (socket_close ws))
    by (now rewrite Hsock1, list_lookup_alter_eq, Hws).
  assert (Hrs1 : readyState (socket_close ws) <> CLOSED)
    by (unfold socket_close; destruct (readyState ws) eqn:Hrs; cbn;
        rewrite ?Hrs; congruence).
  (* after the close event *)
  set (w1' := with_sockets (alter (set_readyState CLOSED) id) w1).
  set (w2 := onclose w1').
  assert (Hstep2 : step e (ev_close id) w1 = Some w2).
  { cbn [step]. rewrite Hlk1.
    destruct (readyState (socket_close ws)); try reflexivity. congruence. }
  destruct (onclose_refs w1') as (Href2 & Htok2 & Hatt2). fold w2 in Href2, Htok2, Hatt2.
  change (wsRef (refs w1')) with (wsRef (refs w1)) in Href2.
  change (authToken (browser w1')) with (authToken (browser w1)) in Htok2.
  change (reconnectAttempts (refs w1')) with (reconnectAttempts (refs w1)) in Hatt2.
  rewrite Hrefs1 in Href2, Hatt2. rewrite Hbudget in Hatt2.
  destruct (onclose_timers w1') as (_ & Hshape). fold w2 in Hshape.
  change (reconnectAttempts (refs w1')) with (reconnectAttempts (refs w1)) in Hshape.
  change (timers (browser w1')) with (timers (browser w1)) in Hshape.
  change (pingInterval (refs w1')) with (pingInterval (refs w1)) in Hshape.
  rewrite Hrefs1, Hbudget, Hlen1 in Hshape. destruct Hshape as (Htimers2 & _).
  assert (Hsock2 : sockets (browser w2)
                   = alter (set_readyState CLOSED) id (sockets (browser w1)))
    by (unfold w2; now rewrite onclose_sockets).
  (* the timeout fires *)
  set (h := length (timers (browser w))).
  set (w3 := clearTimer h w2).
  assert (Hstep3 : step e (ev_timer h) w2 = Some (connect e w3)).
  { cbn [step]. rewrite Htimers2.
    rewrite list_lookup_middle; [reflexivity|].
    destruct (pingInterval (refs w)); now rewrite ?length_alter, ?Hlen1. }
  assert (Hopen3 : currentIsOpen w3 = false).
  { unfold currentIsOpen, currentSocket.
    change (wsRef (refs w3)) with (wsRef (refs w2)).
    change (sockets (browser w3)) with (sockets (browser w2)).
    rewrite Href2, Href, Hsock2, list_lookup_alter_eq, Hlk1. reflexivity. }
  assert (Htok3 : getAuthToken e w3 = getAuthToken e w).
  { unfold getAuthToken.
    change (authToken (browser w3)) with (authToken (browser w2)).
    rewrite Htok2. unfold w1. now rewrite cleanup_authToken. }
  assert (Hlen3 : length (sockets (browser w3)) = length (sockets (browser w))).
  { change (sockets (browser w3)) with (sockets (browser w2)).
    now rewrite Hsock2, Hsock1, !length_alter. }
  exists (connect e w3). split.
  - cbn [run]. change (step e ev_cleanup w) with (Some w1).
    cbn iota. rewrite Hstep2. fold h. now rewrite Hstep3.
  - unfold connect. rewrite Hopen3, Htok3, Haccepts. cbn.
    rewrite <- Hlen3. split; [now rewrite list_lookup_middle|].
    split; [reflexivity|].
    change (reconnectAttempts (refs w3)) with (reconnectAttempts (refs w2)).
    exact Hatt2.
Qed.

Lemma close_after_cleanup_reconnects_witness :
  exists w',
    run sampleEnv [ev_cleanup; ev_close 0; ev_timer 1] openWorld = Some w' /\
    sockets (browser w') !! 1
    = Some (WebSocket_new (buildWsUrl sampleEnv (getAuthToken sampleEnv openWorld))) /\
    wsRef (refs w') = Some 1 /\
    reconnectAttempts (refs w') = (reconnectAttempts (refs openWorld) + 1)%Z.
Proof.
  apply (close_after_cleanup_reconnects sampleEnv openWorld 0
           {| url := "ws://api.example.com/api/v1/live/stream?token=secret";
              readyState := OPEN; sent := [] |}).
  - reflexivity.
  - reflexivity.
  - discriminate.
  - reflexivity.
  - reflexivity.
Defined.

(** ** A heartbeat interval that is overwritten is never cleared *)

Lemma leaked_same (h : nat) (w w' : World) :
  kindAt (timers (browser w')) h = kindAt (timers (browser w)) h ->
  activeAt (timers (browser w')) h = activeAt (timers (browser w)) h ->
  reconnectTimeout (refs w') = reconnectTimeout (refs w) ->
  pingInterval (refs w') = pingInterval (refs w) ->
  leaked h w -> leaked h w'.
Proof. unfold leaked. intros -> -> -> ->. auto. Qed.

Lemma leaked_fresh_handles (h : nat) (w w' : World) (added : list Timer) :
  timers (browser w') = timers (browser w) ++ added ->
  (reconnectTimeout (refs w') = reconnectTimeout (refs w) \/
   reconnectTimeout (refs w') = Some (length (timers (browser w)))) ->
  (pingInterval (refs w') = pingInterval (refs w) \/
   pingInterval (refs w') = Some (length (timers (browser w)))) ->
  leaked h w -> leaked h w'.
Proof.
  intros Ht Hr Hp (Hkind & Hactive & Hnr & Hnp).
  assert (Hlt : h < length (timers (browser w))) by (now apply kindAt_lt in Hkind).
  unfold leaked. rewrite Ht.
  split; [now apply kindAt_app|]. split; [now apply activeAt_app|].
  split; [destruct Hr as [-> | ->] | destruct Hp as [-> | ->]];
    try assumption; intros Heq; injection Heq as Heq; lia.
Qed.

Lemma leaked_clear (h h' : nat) (w : World) :
  h' <> h -> leaked h w -> leaked h (clearTimer h' w).
Proof.
  intros Hne (Hkind & Hactive & Hnr & Hnp). unfold leaked. cbn.
  rewrite kindAt_alter, activeAt_alter_ne by exact Hne. auto.
Qed.

Lemma step_leaked {unicode : CaseMapping}
    (e : Env) (ev : Event) (h : nat) (w w' : World) :
  leaked h w -> step e ev w = Some w' -> leaked h w'.
Proof.
  intros Hleak. destruct ev; cbn [step]; intros Hstep.
  - injection Hstep as <-. destruct (connect_timers e w) as (Ht & Hr & Hp).
    apply (leaked_same h w); now rewrite ?Ht.
  - injection Hstep as <-. destruct (cleanup_timers w) as (Hrefs & Ht).
    destruct Hleak as (Hkind & Hactive & Hnr & Hnp).
    unfold leaked. rewrite Hrefs, Ht.
    destruct (pingInterval (refs w)) as [hp|];
      destruct (reconnectTimeout (refs w)) as [hr|];
      rewrite ?kindAt_alter, ?activeAt_alter_ne by congruence; auto.
  - repeat case_match; simplify_eq.
    apply (leaked_fresh_handles h (with_sockets (alter (set_readyState OPEN) id) w)
             _ [{| repeating := true; callback := send_ping;
                   delay := 30000; active := true |}]);
      [reflexivity | now left | now right | exact Hleak].
  - repeat case_match; simplify_eq.
    destruct (handleMessage_browser clock event w) as (Hr & _ & Ht).
    apply (leaked_same h w); now rewrite ?Ht, ?Hr.
  - repeat case_match; simplify_eq. exact Hleak.
  - assert (Hclose : forall w0, leaked h w0 -> leaked h (onclose w0)).
    { intros w0 Hleak0.
      destruct (onclose_timers w0) as (Hping & Hshape).
      set (w1 := match pingInterval (refs w0) with
                 | Some hp => clearTimer hp w0
                 | None => w0
                 end).
      assert (Hleak1 : leaked h w1).
      { unfold w1. destruct (pingInterval (refs w0)) as [hp|] eqn:Hp;
          [|exact Hleak0].
        apply leaked_clear; [|exact Hleak0].
        destruct Hleak0 as (_ & _ & _ & Hnp). congruence. }
      assert (Ht1 : timers (browser w1)
                    = match pingInterval (refs w0) with
                      | Some hp => alter deactivate hp (timers (browser w0))
                      | None => timers (browser w0)
                      end)
        by (unfold w1; now destruct (pingInterval (refs w0))).
      assert (Hr1 : refs w1 = refs w0)
        by (unfold w1; now destruct (pingInterval (refs w0))).
      assert (Hlen1 : length (timers (browser w1)) = length (timers (browser w0)))
        by (rewrite Ht1; destruct (pingInterval (refs w0));
            now rewrite ?length_alter).
      rewrite <- Ht1 in Hshape.
      destruct (reconnectAttempts (refs w0) <? MAX_RECONNECT_ATTEMPTS)%Z;
        destruct Hshape as (Htimers & Hre).
      - apply (leaked_fresh_handles h w1 _ _ Htimers);
          [right; now rewrite Hre, Hlen1
          | left; now rewrite Hping, Hr1
          | exact Hleak1].
      - apply (leaked_same h w1);
          [now rewrite Htimers | now rewrite Htimers
          | now rewrite Hre, Hr1 | now rewrite Hping, Hr1 | exact Hleak1]. }
    repeat case_match; simplify_eq; now apply Hclose.
  - destruct (timers (browser w) !! h0) as [tm|] eqn:Hlk; [|discriminate].
    destruct (active tm); [|discriminate]. injection Hstep as <-.
    assert (Hw1 : leaked h (if repeating tm then w else clearTimer h0 w)).
    { destruct (repeating tm) eqn:Hrep; [exact Hleak|].
      apply leaked_clear; [|exact Hleak].
      intros ->. destruct Hleak as (Hkind & _).
      unfold kindAt in Hkind. rewrite Hlk in Hkind. cbn in Hkind. congruence. }
    set (w1 := if repeating tm then w else clearTimer h0 w) in *.
    destruct (callback tm).
    + destruct (connect_timers e w1) as (Ht & Hr & Hp).
      apply (leaked_same h w1); now rewrite ?Ht.
    + destruct (sendCommand_timers ping_cmd w1) as (Ht & Hr & Hp).
      apply (leaked_same h w1); now rewrite ?Ht.
  - injection Hstep as <-. exact Hleak.
  - injection Hstep as <-. unfold subscribe.
    destruct (sendCommand_timers (subscribe_cmd type value) w) as (Ht & Hr & Hp).
    apply (leaked_same h w); now rewrite ?Ht.
  - injection Hstep as <-. unfold unsubscribe.
    destruct (sendCommand_timers (unsubscribe_cmd type value) w) as (Ht & Hr & Hp).
    apply (leaked_same h w); now rewrite ?Ht.
  - injection Hstep as <-. exact Hleak.
Qed.

(** X13. The open handler stores the new heartbeat interval over the old
    handle without clearing it. If a socket of a reachable provider opens
    while [pingInterval] still holds an armed interval (a second socket
    opening before the first has closed), that interval is leaked: from then
    on no ref holds its handle, and whatever happens next (closes, clean-up,
    further opens) it stays armed, so each time it fires it runs
    [sendCommand] of a ping on whatever socket is then current. *)
Theorem overwritten_heartbeat_is_never_cleared {unicode : CaseMapping}
    (e : Env) (tok : option string)
    (before trace : list Event) (id h : nat) (w w1 w' : World) :
  run e before (initialWorld tok) = Some w ->
  pingInterval (refs w) = Some h ->
  activeAt (timers (browser w)) h = Some true ->
  step e (ev_open id) w = Some w1 ->
  run e trace w1 = Some w' ->
  leaked h w' /\
  step e (ev_timer h) w' = Some (settle w' (sendCommand ping_cmd w')).
Proof.
  intros Hreach Hping Hactive Hopen Hrun.
  destruct (reachable_handlesTyped e tok before w Hreach) as [Hre Hpi].
  assert (Hleak1 : leaked h w1).
  { assert (Hlt : h < length (timers (browser w)))
      by (apply kindAt_lt with (send_ping, true); now apply Hpi).
    cbn [step] in Hopen. repeat case_match; simplify_eq.
    unfold leaked. cbn.
    split; [apply kindAt_app; now apply Hpi|].
    split; [now apply activeAt_app|]. split.
    - intros Hr. apply Hre in Hr. rewrite (Hpi h Hping) in Hr. discriminate.
    - intros Heq. injection Heq as Heq. lia. }
  assert (Hleak : leaked h w')
    by (apply (run_invariant e (leaked h) (fun ev => step_leaked e ev h)
                 trace w1 w' Hleak1 Hrun)).
  split; [exact Hleak|].
  destruct Hleak as (Hkind & Hact & _). unfold kindAt, activeAt in *.
  cbn [step]. destruct (timers (browser w') !! h) as [tm|]; [|discriminate].
  cbn in Hkind, Hact. injection Hkind as Hcb Hrep. injection Hact as Hon.
  now rewrite Hon, Hrep, Hcb.
Qed.

Lemma overwritten_heartbeat_is_never_cleared_witness :
  leaked 1 (after sampleEnv (strictModeStart ++ ev_open 2 :: strictModeRest)
              (initialWorld None)) /\
  step sampleEnv (ev_timer 1)
    (after sampleEnv (strictModeStart ++ ev_open 2 :: strictModeRest)
       (initialWorld None))
  = Some (settle (after sampleEnv (strictModeStart ++ ev_open 2 :: strictModeRest)
                    (initialWorld None))
            (sendCommand ping_cmd
               (after sampleEnv (strictModeStart ++ ev_open 2 :: strictModeRest)
                  (initialWorld None)))).
Proof.
  apply (overwritten_heartbeat_is_never_cleared sampleEnv None
           strictModeStart strictModeRest 2 1
           (after sampleEnv strictModeStart (initialWorld None))
           (after sampleEnv (strictModeStart ++ [ev_open 2]) (initialWorld None))).
  - vm_compute; reflexivity.
  - vm_compute; reflexivity.
  - vm_compute; reflexivity.
  - vm_compute; reflexivity.
  - vm_compute; reflexivity.
Defined.

(** ** The prepend buffers under arbitrary traffic *)

Lemma handleMessage_signals {unicode : CaseMapping}
    (clock : nat -> string) (event : MessageEvent)
    (w : World) :
  signals (state (settle w (handleMessage clock event w)))
  = match signalEntry event with
    | Some x => take 100 (x :: signals (state w))
    | None => signals (state w)
    end.
Proof.
  unfold signalEntry, tagOf, dataOf, handleMessage, handleMessage_try,
    setPriceHistory, setTrackedPrices, bindC.
  destruct event as [|message]; cbn [JSON_parse]; [reflexivity|].
  repeat case_match; simplify_eq; try reflexivity; clash_tags.
Qed.

Lemma handleMessage_marketUpdates {unicode : CaseMapping}
    (clock : nat -> string) (event : MessageEvent)
    (w : World) :
  marketUpdates (state (settle w (handleMessage clock event w)))
  = match marketEntry event with
    | Some x => take 100 (x :: marketUpdates (state w))
    | None => marketUpdates (state w)
    end.
Proof.
  unfold marketEntry, tagOf, dataOf, handleMessage, handleMessage_try,
    setPriceHistory, setTrackedPrices, bindC.
  destruct event as [|message]; cbn [JSON_parse]; [reflexivity|].
  repeat case_match; simplify_eq; try reflexivity; clash_tags.
Qed.

Lemma handleMessage_trackedTransfers {unicode : CaseMapping}
    (clock : nat -> string)
    (event : MessageEvent) (w : World) :
  trackedTransfers (state (settle w (handleMessage clock event w)))
  = match guardedEntry "tracked_transfer" event with
    | Some x => take 50 (x :: trackedTransfers (state w))
    | None => trackedTransfers (state w)
    end.
Proof.
  unfold guardedEntry, tagOf, dataOf, handleMessage, handleMessage_try,
    setPriceHistory, setTrackedPrices, bindC.
  destruct event as [|message]; cbn [JSON_parse]; [reflexivity|].
  repeat case_match; simplify_eq; try reflexivity;
    repeat match goal with
           | H : _ && _ = true |- _ => apply andb_prop in H as [? ?]
           | H : _ && _ = false |- _ => apply andb_false_iff in H as [H | H]
           end;
    clash_tags.
Qed.

Lemma handleMessage_channelMessages {unicode : CaseMapping}
    (clock : nat -> string)
    (event : MessageEvent) (w : World) :
  channelMessages (state (settle w (handleMessage clock event w)))
  = match guardedEntry "channel_message" event with
    | Some x => take 200 (x :: channelMessages (state w))
    | None => channelMessages (state w)
    end.
Proof.
  unfold guardedEntry, tagOf, dataOf, handleMessage, handleMessage_try,
    setPriceHistory, setTrackedPrices, bindC.
  destruct event as [|message]; cbn [JSON_parse]; [reflexivity|].
  repeat case_match; simplify_eq; try reflexivity;
    repeat match goal with
           | H : _ && _ = true |- _ => apply andb_prop in H as [? ?]
           | H : _ && _ = false |- _ => apply andb_false_iff in H as [H | H]
           end;
    clash_tags.
Qed.

Section MixedTraffic.

Context {unicode : CaseMapping}.

(** A buffer [proj] of capacity [N] to which a message adds the entry
    [entry] gives for it, and nothing otherwise. *)
Variable proj : World -> list JSValue.
Variable N : nat.
Variable entry : MessageEvent -> option JSValue.
Hypothesis handled :
  forall clock event w,
    proj (settle w (handleMessage clock event w))
    = match entry event with
      | Some x => take N (x :: proj w)
      | None => proj w
      end.

Lemma feed_mixed (inbox : list Inbound) :
  forall w,
    length (proj w) <= N ->
    proj (feed inbox w)
    = take N (reverse (omap (fun m => entry (snd m)) inbox) ++ proj w).
Proof.
  induction inbox as [|m inbox IH]; intros w Hlen.
  - cbn. now rewrite take_ge.
  - rewrite feed_cons. cbn [omap list_omap].
    assert (Hstep := handled (fst m) (snd m) w).
    destruct (entry (snd m)) as [x|].
    + rewrite IH by (rewrite Hstep, length_take; lia).
      rewrite Hstep, take_app_take, reverse_cons, <- app_assoc. reflexivity.
    + rewrite IH by (now rewrite Hstep). now rewrite Hstep.
Qed.

End MixedTraffic.

(** X14. Whatever the inbound traffic (other message types in between,
    malformed or unknown messages, payloads the guards reject), each of the
    four prepend buffers of a provider within capacity ends up holding the
    entries that the messages of its own type contributed, newest first,
    in front of what it held, cut to its capacity: for signals every
    [new_signal] contributes its [data] (whatever it is), for market updates
    every [MARKET_UPDATE] contributes the message, for transfers and channel
    messages only messages with a truthy [data] contribute. Messages of
    other types never disturb a buffer. *)
Theorem buffers_under_mixed_traffic {unicode : CaseMapping}
    (inbox : list Inbound) (w : World) :
  withinCapacity w ->
  signals (state (feed inbox w))
  = take 100 (reverse (omap (fun m => signalEntry (snd m)) inbox)
              ++ signals (state w)) /\
  marketUpdates (state (feed inbox w))
  = take 100 (reverse (omap (fun m => marketEntry (snd m)) inbox)
              ++ marketUpdates (state w)) /\
  trackedTransfers (state (feed inbox w))
  = take 50 (reverse (omap (fun m => guardedEntry "tracked_transfer" (snd m)) inbox)
             ++ trackedTransfers (state w)) /\
  channelMessages (state (feed inbox w))
  = take 200 (reverse (omap (fun m => guardedEntry "channel_message" (snd m)) inbox)
              ++ channelMessages (state w)).
Proof.
  intros (Hs & Hm & Hc & Ht & _).
  split; [|split; [|split]].
  - apply (feed_mixed (fun w => signals (state w)) 100 signalEntry
             handleMessage_signals inbox w Hs).
  - apply (feed_mixed (fun w => marketUpdates (state w)) 100 marketEntry
             handleMessage_marketUpdates inbox w Hm).
  - apply (feed_mixed (fun w => trackedTransfers (state w)) 50
             (guardedEntry "tracked_transfer")
             handleMessage_trackedTransfers inbox w Ht).
  - apply (feed_mixed (fun w => channelMessages (state w)) 200
             (guardedEntry "channel_message")
             handleMessage_channelMessages inbox w Hc).
Qed.

Lemma buffers_under_mixed_traffic_witness :
  signals (state (feed mixedInbox openWorld))
  = [signalData 3%float; signalData 2%float; signalData 1%float] /\
  trackedTransfers (state (feed mixedInbox openWorld)) = [].
Proof.
  destruct (buffers_under_mixed_traffic mixedInbox openWorld)
    as (Hsignals & _ & Htransfers & _).
  - unfold withinCapacity.
    split; [vm_compute; lia|]. split; [vm_compute; lia|].
    split; [vm_compute; lia|]. split; [vm_compute; lia|].
    intros key points Hlk. vm_compute in Hlk. discriminate Hlk.
  - split; [rewrite Hsignals | rewrite Htransfers]; reflexivity.
Defined.

(** ** Spellings of the API origin *)

Lemma string_append_cons (x : ascii) (a b : string) :
  String x a +:+ b = String x (a +:+ b).
Proof. reflexivity. Qed.

Lemma string_append_empty (a : string) : a +:+ "" = a.
Proof.
  induction a as [|x a IH]; [reflexivity|].
  rewrite string_append_cons. f_equal. exact IH.
Qed.

Lemma string_append_assoc (a b c : string) : (a +:+ b) +:+ c = a +:+ (b +:+ c).
Proof.
  induction a as [|x a IH]; [reflexivity|].
  rewrite !string_append_cons. f_equal. exact IH.
Qed.

Lemma string_length_append (a b : string) :
  String.length (a +:+ b) = String.length a + String.length b.
Proof.
  induction a as [|x a IH]; [reflexivity|].
  rewrite string_append_cons. simpl. f_equal. exact IH.
Qed.

Lemma substring_front (a b : string) :
  substring 0 (String.length a) (a +:+ b) = a.
Proof.
  induction a as [|x a IH]; [now destruct b|].
  rewrite string_append_cons. simpl. f_equal. exact IH.
Qed.

Lemma substring_back (a b : string) :
  substring (String.length a) (String.length b) (a +:+ b) = b.
Proof.
  induction a as [|x a IH]; [|rewrite string_append_cons; exact IH].
  change ("" +:+ b) with b.
  induction b as [|y b IHb]; simpl; [reflexivity|f_equal; exact IHb].
Qed.

Lemma endsWith_append (a p : string) : endsWith (a +:+ p) p = true.
Proof.
  unfold endsWith. rewrite string_length_append.
  replace (String.length a + String.length p - String.length p)
    with (String.length a) by lia.
  rewrite substring_back, String.eqb_refl.
  now destruct (Nat.leb_spec (String.length p)
                  (String.length a + String.length p)); [|lia].
Qed.

Lemma endsWith_append_other (a p q : string) :
  String.length p = String.length q -> p <> q -> endsWith (a +:+ p) q = false.
Proof.
  intros Hlen Hne. unfold endsWith. rewrite string_length_append, <- Hlen.
  replace (String.length a + String.length p - String.length p)
    with (String.length a) by lia.
  rewrite substring_back. apply String.eqb_neq in Hne. rewrite Hne.
  apply andb_false_r.
Qed.

Lemma dropRight_append (k : nat) (a p : string) :
  k = String.length p -> dropRight k (a +:+ p) = a.
Proof.
  intros ->. unfold dropRight. rewrite string_length_append.
  replace (String.length a + String.length p - String.length p)
    with (String.length a) by lia.
  apply substring_front.
Qed.

(** On a base URL that ends neither with a slash nor with [/api/v1], the
    trimming undoes each of the four usual endings. *)
Lemma trimBase_endings (base : string) :
  endsWith base "/" = false ->
  endsWith base "/api/v1" = false ->
  trimBase base = base /\
  trimBase (base +:+ "/") = base /\
  trimBase (base +:+ "/api/v1") = base /\
  trimBase (base +:+ "/api/v1/") = base.
Proof.
  intros Hslash Hprefix. unfold trimBase. repeat split.
  - now rewrite Hslash, Hprefix.
  - rewrite endsWith_append, (dropRight_append 1 base "/") by reflexivity.
    now rewrite Hprefix.
  - replace (endsWith (base +:+ "/api/v1") "/") with false.
    + now rewrite endsWith_append, (dropRight_append 7 base "/api/v1").
    + change "/api/v1" with ("/api/v" +:+ "1"). rewrite <- string_append_assoc.
      symmetry. now apply endsWith_append_other.
  - change "/api/v1/" with ("/api/v1" +:+ "/"). rewrite <- string_append_assoc.
    rewrite endsWith_append,
      (dropRight_append 1 (base +:+ "/api/v1") "/") by reflexivity.
    now rewrite endsWith_append, (dropRight_append 7 base "/api/v1").
Qed.

(** X15. The stream URL does not depend on how the API origin is spelled:
    with or without a trailing slash, with or without the REST prefix
    [/api/v1], an absolute API origin [scheme://host] gives the same
    WebSocket URL, [ws(s)://host/api/v1/live/stream], so the prefix is never
    duplicated. (The host part itself is assumed not to end with a slash or
    with [/api/v1]; only one such ending is removed.) *)
Theorem api_origin_spellings (e : Env) (location : Location) (secure : bool)
    (origin suffix : string) :
  window e = Some location ->
  envTruthy (NEXT_PUBLIC_WS_URL e) = false ->
  suffix ∈ [""; "/"; "/api/v1"; "/api/v1/"] ->
  NEXT_PUBLIC_API_URL e
  = Some ((if secure then "https://" else "http://") +:+ origin +:+ suffix) ->
  endsWith ((if secure then "wss://" else "ws://") +:+ origin) "/" = false ->
  endsWith ((if secure then "wss://" else "ws://") +:+ origin) "/api/v1" = false ->
  getWebSocketUrl e
  = (if secure then "wss://" else "ws://") +:+ origin +:+ streamPath.
Proof.
  intros Hwin Hws Hsuffix Hapi Hslash Hprefix.
  destruct (trimBase_endings _ Hslash Hprefix) as (H0 & H1 & H2 & H3).
  assert (Htrim : trimBase (((if secure then "wss://" else "ws://") +:+ origin)
                            +:+ suffix)
                  = (if secure then "wss://" else "ws://") +:+ origin).
  { rewrite !elem_of_cons, elem_of_nil in Hsuffix.
    destruct Hsuffix as [-> | [-> | [-> | [-> | []]]]]; try assumption.
    now rewrite string_append_empty. }
  rewrite string_append_assoc in Htrim.
  destruct secure.
  - rewrite (getWebSocketUrl_api_https e location (origin +:+ suffix) Hwin Hws Hapi).
    rewrite Htrim. now rewrite string_append_assoc.
  - rewrite (getWebSocketUrl_api_http e location (origin +:+ suffix) Hwin Hws Hapi).
    rewrite Htrim. now rewrite string_append_assoc.
Qed.

Lemma api_origin_spellings_witness :
  getWebSocketUrl prefixedApiEnv = "wss://api.example.com/api/v1/live/stream".
Proof.
  apply (api_origin_spellings prefixedApiEnv samplePage true
           "api.example.com" "/api/v1/").
  - reflexivity.
  - reflexivity.
  - rewrite !elem_of_cons. auto.
  - reflexivity.
  - reflexivity.
  - reflexivity.
Defined.

(** ** The token in the stream URL *)

Lemma unreserved_not_percent (c : ascii) :
  uriUnreserved c = true -> Ascii.eqb c "%" = false.
Proof.
  destruct c as [[] [] [] [] [] [] [] []]; vm_compute; congruence.
Qed.

Lemma hexDigit_unreserved (c : ascii) :
  uriUnreserved (hexDigit (nat_of_ascii c / 16)) = true /\
  uriUnreserved (hexDigit (nat_of_ascii c mod 16)) = true.
Proof.
  destruct c as [[] [] [] [] [] [] [] []]; vm_compute; split; reflexivity.
Qed.

Lemma hex_round_trip (c : ascii) :
  ascii_of_nat (16 * hexValue (hexDigit (nat_of_ascii c / 16))
                + hexValue (hexDigit (nat_of_ascii c mod 16))) = c.
Proof.
  destruct c as [[] [] [] [] [] [] [] []]; vm_compute; reflexivity.
Qed.

Lemma percentDecode_encode (s : string) :
  percentDecode (encodeURIComponent s) = s.
Proof.
  induction s as [|c s IH]; [reflexivity|].
  cbn [encodeURIComponent]. destruct (uriUnreserved c) eqn:Hc.
  - cbn [percentDecode]. rewrite (unreserved_not_percent c Hc). now rewrite IH.
  - cbn [percentDecode]. change (Ascii.eqb "%" "%") with true. cbv iota.
    now rewrite hex_round_trip, IH.
Qed.

Lemma encodeURIComponent_safe (s : string) :
  Forall (fun c => querySafe c = true)
         (list_ascii_of_string (encodeURIComponent s)).
Proof.
  induction s as [|c s IH]; [constructor|].
  cbn [encodeURIComponent]. destruct (uriUnreserved c) eqn:Hc.
  - cbn [list_ascii_of_string]. constructor; [|exact IH].
    unfold querySafe. now rewrite Hc.
  - destruct (hexDigit_unreserved c) as [Hhi Hlo].
    cbn [list_ascii_of_string]. repeat constructor; try exact IH.
    + unfold querySafe. now rewrite Hhi.
    + unfold querySafe. now rewrite Hlo.
Qed.

Lemma string_append_cancel (a x y : string) : a +:+ x = a +:+ y -> x = y.
Proof.
  induction a as [|c a IH]; [trivial|].
  rewrite !string_append_cons. intros [= H]. now apply IH.
Qed.

(** X16. The auth token in the stream URL. For a non-empty token, the URL
    [connect] opens is the base URL followed by [?token=] and a value made
    only of unreserved characters and [%] (so no [&], [=], [#], [?], [/],
    [+] or space of the token can end the parameter or start another one),
    and the value still determines the token: two tokens that give the same
    URL are the same token. *)
Theorem token_query_is_safe_and_faithful (e : Env) (token other : string) :
  nonEmpty token = true ->
  nonEmpty other = true ->
  (exists value,
     buildWsUrl e (Some token) = getWebSocketUrl e +:+ "?token=" +:+ value /\
     Forall (fun c => querySafe c = true) (list_ascii_of_string value) /\
     percentDecode value = token) /\
  (buildWsUrl e (Some token) = buildWsUrl e (Some other) -> token = other).
Proof.
  intros Htoken Hother. unfold buildWsUrl. cbn [envTruthy envOrEmpty].
  rewrite Htoken, Hother. split.
  - exists (encodeURIComponent token). split; [reflexivity|]. split.
    + apply encodeURIComponent_safe.
    + apply percentDecode_encode.
  - intros Hsame. apply string_append_cancel, string_append_cancel in Hsame.
    rewrite <- (percentDecode_encode token), Hsame.
    apply percentDecode_encode.
Qed.

Lemma token_query_is_safe_and_faithful_witness :
  (exists value,
     buildWsUrl sampleEnv (Some "a&b=c d")
     = getWebSocketUrl sampleEnv +:+ "?token=" +:+ value /\
     Forall (fun c => querySafe c = true) (list_ascii_of_string value) /\
     percentDecode value = "a&b=c d") /\
  (buildWsUrl sampleEnv (Some "a&b=c d") = buildWsUrl sampleEnv (Some "a b")
   -> "a&b=c d" = "a b").
Proof.
  apply (token_query_is_safe_and_faithful sampleEnv "a&b=c d" "a b");
    reflexivity.
Defined.

(** * The API client and the readers of the provider's state *)

(** ** Signing in and out *)



(** ** Requests of the API client *)

Lemma sliceFrom_append (k : nat) (a b : string) :
  k = String.length a -> sliceFrom k (a +:+ b) = b.
Proof.
  intros ->. unfold sliceFrom. rewrite string_length_append.
  replace (String.length a + String.length b - String.length a)
    with (String.length b) by lia.
  apply substring_back.
Qed.

(** X18. Spellings of an endpoint. With the API base configured as [base] or
    [base/], a relative endpoint [p] can be written [p], [/p] or
    [/api/v1/p]: all three are fetched from [base/p], so the REST prefix is
    neither lost nor doubled. ([p] itself starts with none of [/], [http],
    [api/v1], and [base] does not end with a slash.) *)
Theorem fetchApi_endpoint_spellings (e : Env) (base slash p spelling : string) :
  API_BASE e = base +:+ slash ->
  slash ∈ [""; "/"] ->
  endsWith base "/" = false ->
  startsWith p "/" = false ->
  startsWith p "http" = false ->
  startsWith p "api/v1" = false ->
  spelling ∈ [p; "/" +:+ p; "/api/v1/" +:+ p] ->
  fetchApi_url e spelling = base +:+ "/" +:+ p.
Proof.
  intros Hbase Hslash Hclean Hrel Habs Hpre Hspelling.
  assert (Htrim : (if endsWith (API_BASE e) "/" then dropRight 1 (API_BASE e)
                   else API_BASE e) = base).
  { rewrite Hbase. rewrite !elem_of_cons, elem_of_nil in Hslash.
    destruct Hslash as [-> | [-> | []]].
    - now rewrite string_append_empty, Hclean.
    - now rewrite endsWith_append, (dropRight_append 1 base "/"). }
  unfold fetchApi_url. rewrite Htrim.
  assert (Hstrip : stripApiPrefix ("/" +:+ p) = "/" +:+ p).
  { unfold stripApiPrefix.
    replace (startsWith ("/" +:+ p) "/api/v1") with (startsWith p "api/v1")
      by reflexivity.
    now rewrite Hpre. }
  rewrite !elem_of_cons, elem_of_nil in Hspelling.
  destruct Hspelling as [-> | [-> | [-> | []]]].
  - now rewrite Hrel, Habs, Hstrip.
  - replace (startsWith ("/" +:+ p) "/") with true
      by (destruct p; reflexivity).
    change (startsWith ("/" +:+ p) "http") with false.
    cbv iota. now rewrite Hstrip.
  - replace (startsWith ("/api/v1/" +:+ p) "/") with true by reflexivity.
    change (startsWith ("/api/v1/" +:+ p) "http") with false.
    cbv iota. unfold stripApiPrefix.
    replace (startsWith ("/api/v1/" +:+ p) "/api/v1") with true by reflexivity.
    change ("/api/v1/" +:+ p) with ("/api/v1" +:+ ("/" +:+ p)).
    now rewrite (sliceFrom_append 7 "/api/v1" ("/" +:+ p)).
Qed.

Lemma fetchApi_endpoint_spellings_witness :
  fetchApi_url prefixedApiEnv "/api/v1/signals"
  = "https://api.example.com/api/v1" +:+ "/" +:+ "signals".
Proof.
  apply (fetchApi_endpoint_spellings prefixedApiEnv
           "https://api.example.com/api/v1" "/" "signals" "/api/v1/signals").
  - reflexivity.
  - rewrite !elem_of_cons. auto.
  - reflexivity.
  - reflexivity.
  - reflexivity.
  - reflexivity.
  - rewrite !elem_of_cons. auto.
Defined.

(** X19. The headers of a request after [setAuthToken]. In the browser, once
    a non-empty token is stored every request carries
    [Authorization: Bearer <token>], whatever [Authorization] the caller
    passed; after signing out ([null] or the empty string) the header is the
    caller's own, if any. In both cases [Content-Type] is the caller's, or
    [application/json] when the caller gave none, and every other header is
    the caller's. *)
Theorem fetchApi_headers_after_setAuthToken (e : Env) (location : Location)
    (token : option string) (w : World) (callerHeaders : gmap string string) :
  window e = Some location ->
  let headers := fetchApi_headers e (setAuthToken e token w) callerHeaders in
  headers !! "Authorization"
  = (if envTruthy token then Some ("Bearer " +:+ envOrEmpty token)
     else callerHeaders !! "Authorization") /\
  headers !! "Content-Type"
  = Some (default "application/json" (callerHeaders !! "Content-Type")) /\
  forall name, name <> "Authorization" -> name <> "Content-Type" ->
               headers !! name = callerHeaders !! name.
Proof.
  intros Hwin headers. subst headers.
  assert (Hget : getAuthToken e (setAuthToken e token w)
                 = if envTruthy token then token else None).
  { unfold getAuthToken, setAuthToken. rewrite Hwin.
    now destruct (envTruthy token). }
  unfold fetchApi_headers. rewrite Hget.
  assert (Hother : forall name, name <> "Content-Type" ->
            (callerHeaders ∪ ({["Content-Type" := "application/json"]}
                              : gmap string string)) !! name
            = callerHeaders !! name).
  { intros name Hname. rewrite lookup_union, lookup_singleton_ne by congruence.
    now destruct (callerHeaders !! name). }
  assert (Htype :
            (callerHeaders ∪ ({["Content-Type" := "application/json"]}
                              : gmap string string)) !! "Content-Type"
            = Some (default "application/json"
                      (callerHeaders !! "Content-Type"))).
  { rewrite lookup_union, lookup_singleton.
    now destruct (callerHeaders !! "Content-Type"). }
  destruct (envTruthy token) eqn:Htruthy.
  - rewrite Htruthy. split; [apply lookup_insert_eq|]. split.
    + rewrite lookup_insert_ne by discriminate. exact Htype.
    + intros name Hauth Htyp. rewrite lookup_insert_ne by congruence.
      now apply Hother.
  - cbn [envTruthy]. split; [apply Hother; discriminate|].
    split; [exact Htype|]. intros name _ Htyp. now apply Hother.
Qed.

Lemma fetchApi_headers_after_setAuthToken_witness :
  let headers := fetchApi_headers sampleEnv
                   (setAuthToken sampleEnv (Some "s3cret") openWorld)
                   {["Authorization" := "Basic abc"]} in
  headers !! "Authorization"
  = (if envTruthy (Some "s3cret")
     then Some ("Bearer " +:+ envOrEmpty (Some "s3cret"))
     else ({["Authorization" := "Basic abc"]} : gmap string string)
            !! "Authorization") /\
  headers !! "Content-Type"
  = Some (default "application/json"
            (({["Authorization" := "Basic abc"]} : gmap string string)
               !! "Content-Type")) /\
  forall name, name <> "Authorization" -> name <> "Content-Type" ->
               headers !! name
               = ({["Authorization" := "Basic abc"]} : gmap string string)
                   !! name.
Proof.
  apply (fetchApi_headers_after_setAuthToken sampleEnv samplePage
           (Some "s3cret") openWorld {["Authorization" := "Basic abc"]}).
  reflexivity.
Defined.

(** X20. A response that is not [ok] never resolves. [fetchApi] rejects
    with an [ApiError] that carries the response's status code and whose
    message is [Unknown error] when the body is not JSON, the status text
    when the body's [detail] is missing or falsy, and otherwise [detail]
    turned into a string: [detail] itself when it is a string,
    [[object Object]] when it is an object without a [toString] entry. There
    are two exceptions, in which the promise rejects with a [TypeError] and
    without the status code: a body that is the JSON value [null], for which
    reading [detail] throws, and a [detail] that cannot be turned into a
    string. *)
Theorem fetchApi_not_ok_rejects (Number_toString : float -> string)
    (response : Response) :
  ok response = false ->
  (forall value, fetchApi_response Number_toString response <> resolved value) /\
  match json response with
  | Throw _ =>
      fetchApi_response Number_toString response
      = rejected_ApiError "Unknown error" (status response)
  | Normal body =>
      if isNullish body
      then fetchApi_response Number_toString response = rejected TypeError
      else exists detail,
          getProp body "detail" = Normal detail /\
          (truthy detail = false ->
           fetchApi_response Number_toString response
           = rejected_ApiError (statusText response) (status response)) /\
          (truthy detail = true ->
           fetchApi_response Number_toString response
           = match ToString Number_toString detail with
             | Normal message => rejected_ApiError message (status response)
             | Throw err => rejected err
             end) /\
          (forall s, detail = JStr s -> nonEmpty s = true ->
           fetchApi_response Number_toString response
           = rejected_ApiError s (status response)) /\
          (forall fields, detail = JObj fields ->
           fetchApi_response Number_toString response
           = if hasOwnProperty fields "toString" then rejected TypeError
             else rejected_ApiError "[object Object]" (status response))
  end.
Proof.
  intros Hok. unfold fetchApi_response. rewrite Hok. split.
  - intros value.
    destruct (getProp _ "detail") as [detail|err]; [|discriminate].
    destruct (ToString _ _); discriminate.
  - destruct (json response) as [body|err]; [|reflexivity].
    destruct (isNullish body) eqn:Hnull.
    + destruct body; try discriminate Hnull; reflexivity.
    + assert (Hread : exists detail, getProp body "detail" = Normal detail)
        by (destruct body; try discriminate Hnull; eexists; reflexivity).
      destruct Hread as [detail Hdetail]. exists detail.
      rewrite Hdetail. split; [reflexivity|]. split; [|split; [|split]].
      * intros Hfalsy. now rewrite Hfalsy.
      * intros Htruthy. now rewrite Htruthy.
      * intros s -> Hs. cbn [truthy]. now rewrite Hs.
      * intros fields ->. cbn [truthy ToString].
        now destruct (hasOwnProperty fields "toString").
Qed.

Lemma fetchApi_not_ok_rejects_witness :
  fetchApi_response samplePrinting nullFailure = rejected TypeError /\
  fetchApi_response samplePrinting validationFailure
  = rejected_ApiError "limit must be positive" 422 /\
  fetchApi_response samplePrinting fieldErrors
  = rejected_ApiError "[object Object]" 422.
Proof.
  split; [|split].
  - apply (proj2 (fetchApi_not_ok_rejects samplePrinting nullFailure eq_refl)).
  - destruct (proj2 (fetchApi_not_ok_rejects samplePrinting validationFailure
                       eq_refl)) as (detail & Hdetail & _ & _ & Hstring & _).
    injection Hdetail as <-. now apply (Hstring _ eq_refl).
  - destruct (proj2 (fetchApi_not_ok_rejects samplePrinting fieldErrors
                       eq_refl)) as (detail & Hdetail & _ & Hconv & _).
    injection Hdetail as <-. now apply Hconv.
Defined.

(** ** The charts over the signals buffer *)

Lemma countAt_keys (key : string) (sentiment : JSValue)
    (buckets : list (string * Tally)) :
  (countAt key sentiment buckets).*1
  = if decide (key ∈ buckets.*1) then buckets.*1 else buckets.*1 ++ [key].
Proof.
  induction buckets as [|[k t] rest IH]; cbn [countAt].
  - case_decide as Hin; [now apply elem_of_nil in Hin|reflexivity].
  - destruct (String.eqb k key) eqn:Hk.
    + apply String.eqb_eq in Hk. subst k. clear IH. cbn.
      case_decide as Hin; [reflexivity|]. exfalso. apply Hin. left.
    + apply String.eqb_neq in Hk. cbn. rewrite IH. clear IH.
      repeat case_decide; try reflexivity.
      * exfalso. rename select (key ∉ _) into Hout. apply Hout. now right.
      * exfalso. rename select (key ∈ _ :: _) into Hin.
        apply elem_of_cons in Hin as [->|Hin]; [now apply Hk|contradiction].
Qed.

Lemma countAt_NoDup (key : string) (sentiment : JSValue)
    (buckets : list (string * Tally)) :
  NoDup (buckets.*1) -> NoDup ((countAt key sentiment buckets).*1).
Proof.
  intros Hnd. rewrite countAt_keys. case_decide as Hin; [exact Hnd|].
  apply NoDup_app. split; [exact Hnd|]. split; [|apply NoDup_singleton].
  intros x Hx Hx'. apply list_elem_of_singleton in Hx'. now subst x.
Qed.

Lemma countAt_prefix (key : string) (sentiment : JSValue)
    (buckets : list (string * Tally)) :
  buckets.*1 `prefix_of` (countAt key sentiment buckets).*1.
Proof.
  rewrite countAt_keys. case_decide; [reflexivity|]. now apply prefix_app_r.
Qed.

Lemma increment_total (sentiment : JSValue) (t : Tally) :
  tallyTotal (increment sentiment t) = S (tallyTotal t).
Proof.
  unfold increment, tallyTotal.
  destruct (isString sentiment "BULLISH"), (isString sentiment "BEARISH");
    cbn; lia.
Qed.

Lemma countAt_total (key : string) (sentiment : JSValue)
    (buckets : list (string * Tally)) :
  bucketsTotal (countAt key sentiment buckets) = S (bucketsTotal buckets).
Proof.
  unfold bucketsTotal.
  induction buckets as [|[k t] rest IH]; cbn [countAt].
  - cbn. rewrite increment_total. cbn. lia.
  - destruct (String.eqb k key); cbn in *.
    + rewrite increment_total. lia.
    + rewrite IH. lia.
Qed.

Lemma groupByMinute_cons (tz : LocalTime) (buckets : list (string * Tally))
    (signal : JSValue) (rest : list JSValue) :
  groupByMinute tz buckets (signal :: rest)
  = if isNullish signal then Throw TypeError
    else groupByMinute tz
           (countAt (minuteKey tz (match getProp signal "timestamp" with
                                   | Normal v => v
                                   | Throw _ => JUndefined
                                   end))
                    (match getProp signal "sentiment" with
                     | Normal v => v
                     | Throw _ => JUndefined
                     end) buckets) rest.
Proof. destruct signal; reflexivity. Qed.

Lemma groupByMinute_returns (tz : LocalTime) (recent : list JSValue) :
  Forall (fun s => isNullish s = false) recent ->
  forall buckets, NoDup (buckets.*1) ->
  exists buckets',
    groupByMinute tz buckets recent = Normal buckets' /\
    NoDup (buckets'.*1) /\
    buckets.*1 `prefix_of` buckets'.*1 /\
    bucketsTotal buckets' = bucketsTotal buckets + length recent.
Proof.
  induction 1 as [|signal rest Hsignal _ IH]; intros buckets Hnd.
  - exists buckets. cbn. split; [reflexivity|]. split; [exact Hnd|].
    split; [reflexivity|lia].
  - rewrite groupByMinute_cons, Hsignal.
    edestruct IH as (buckets' & Hrun & Hnd' & Hpre & Htotal);
      [apply countAt_NoDup, Hnd|].
    exists buckets'. split; [exact Hrun|]. split; [exact Hnd'|]. split.
    + etrans; [apply countAt_prefix|exact Hpre].
    + rewrite Htotal, countAt_total. cbn. lia.
Qed.

Lemma groupByMinute_throws (tz : LocalTime) (recent : list JSValue) :
  Exists (fun s => isNullish s = true) recent ->
  forall buckets, groupByMinute tz buckets recent = Throw TypeError.
Proof.
  induction 1 as [signal rest Hsignal|signal rest _ IH]; intros buckets;
    rewrite groupByMinute_cons.
  - now rewrite Hsignal.
  - destruct (isNullish signal); [reflexivity|apply IH].
Qed.

Lemma lookupBucket_elem (key : string) (t : Tally)
    (buckets : list (string * Tally)) :
  NoDup (buckets.*1) -> (key, t) ∈ buckets -> lookupBucket key buckets = Some t.
Proof.
  induction buckets as [|[k t'] rest IH]; intros Hnd Hin.
  - now apply elem_of_nil in Hin.
  - cbn in Hnd. apply NoDup_cons in Hnd as [Hfresh Hnd]. cbn [lookupBucket].
    apply elem_of_cons in Hin as [[= -> ->]|Hin].
    + now rewrite String.eqb_refl.
    + destruct (String.eqb k key) eqn:Hk; [|now apply IH].
      apply String.eqb_eq in Hk. subst k. exfalso. apply Hfresh.
      apply list_elem_of_fmap. now exists (key, t).
Qed.

Lemma lookupBucket_shown (buckets shown : list (string * Tally)) :
  NoDup (buckets.*1) -> shown ⊆ buckets ->
  (fun key => lookupBucket key buckets) <$> shown.*1 = Some <$> shown.*2.
Proof.
  intros Hnd. induction shown as [|[k t] rest IH]; intros Hsub; [reflexivity|].
  cbn. rewrite (lookupBucket_elem k t buckets Hnd) by (apply Hsub; left).
  f_equal. apply IH. intros x Hx. apply Hsub. now right.
Qed.

Lemma sliceLast_drop {A : Type} (n : nat) (l : list A) :
  exists k, sliceLast n l = drop k l /\
            (k = 0 \/ (0 < n /\ length (drop k l) = n)).
Proof.
  unfold sliceLast, lastN. destruct (Nat.eqb_spec n 0) as [->|Hn].
  - exists 0. split; [reflexivity|now left].
  - exists (length l - n). split; [reflexivity|].
    destruct (decide (length l <= n)) as [Hle|Hgt].
    + left. lia.
    + right. rewrite length_drop. lia.
Qed.

Lemma sliceLast_fmap {A B : Type} (f : A -> B) (n : nat) (l : list A) :
  sliceLast n (f <$> l) = f <$> sliceLast n l.
Proof.
  unfold sliceLast, lastN. destruct (n =? 0)%nat; [reflexivity|].
  now rewrite fmap_drop, length_fmap.
Qed.



(** The chart data in terms of the buckets: the last [maxPoints] of them. *)
Lemma streamChartData_shown (tz : LocalTime) (maxPoints : nat)
    (signals : list JSValue) :
  Forall (fun s => isNullish s = false) (take 50 signals) ->
  exists buckets,
    groupByMinute tz [] (take 50 signals) = Normal buckets /\
    NoDup (buckets.*1) /\
    bucketsTotal buckets = min 50 (length signals) /\
    streamChartData tz maxPoints signals
    = Normal {| labels := (sliceLast maxPoints buckets).*1;
                bullishData := bullish <$> (sliceLast maxPoints buckets).*2;
                bearishData := bearish <$> (sliceLast maxPoints buckets).*2;
                neutralData := neutral <$> (sliceLast maxPoints buckets).*2 |}.
Proof.
  intros Hsignals.
  destruct (groupByMinute_returns tz _ Hsignals [] (NoDup_nil_2))
    as (buckets & Hrun & Hnd & _ & Htotal).
  exists buckets. split; [exact Hrun|]. split; [exact Hnd|]. split.
  - rewrite Htotal, length_take. cbn. lia.
  - unfold streamChartData. rewrite Hrun. cbn [bindC].
    rewrite sliceLast_fmap.
    rewrite (lookupBucket_shown buckets (sliceLast maxPoints buckets) Hnd).
    + rewrite <- !list_fmap_compose. reflexivity.
    + destruct (sliceLast_drop maxPoints buckets) as (k & -> & _).
      apply subseteq_drop.
Qed.



Lemma groupByMinute_normal (tz : LocalTime) (recent : list JSValue) :
  forall buckets buckets',
    groupByMinute tz buckets recent = Normal buckets' ->
    Forall (fun s => isNullish s = false) recent.
Proof.
  induction recent as [|signal rest IH]; intros buckets buckets' Hrun;
    [constructor|].
  rewrite groupByMinute_cons in Hrun.
  destruct (isNullish signal) eqn:Hsignal; [discriminate Hrun|].
  constructor; [exact Hsignal|]. eapply IH, Hrun.
Qed.

Lemma streamChartData_normal (tz : LocalTime) (maxPoints : nat)
    (signals : list JSValue) (chart : ChartData) :
  streamChartData tz maxPoints signals = Normal chart ->
  Forall (fun s => isNullish s = false) (take 50 signals).
Proof.
  unfold streamChartData. intros Hchart.
  destruct (groupByMinute tz [] (take 50 signals)) as [buckets|err] eqn:Hrun;
    [|discriminate Hchart].
  eapply groupByMinute_normal, Hrun.
Qed.

(** X22. Which minutes the stream chart cuts off. The buffer is newest
    first, so the buckets are created newest minute first, and
    [slice(-maxPoints)] keeps the last ones: when the recent signals span
    more than [maxPoints] minutes, the chart shows the [maxPoints] minutes
    met last going down the buffer, and the minute of the newest signal,
    which is met first, is not on the chart. (The minutes seen are the labels
    for [maxPoints = 0], which cuts nothing.) *)
Theorem stream_chart_drops_newest_minute (tz : LocalTime) (maxPoints : nat)
    (signal timestamp : JSValue) (rest : list JSValue)
    (full chart : ChartData) :
  getProp signal "timestamp" = Normal timestamp ->
  streamChartData tz 0 (signal :: rest) = Normal full ->
  streamChartData tz maxPoints (signal :: rest) = Normal chart ->
  0 < maxPoints ->
  maxPoints < length (labels full) ->
  labels chart = lastN maxPoints (labels full) /\
  head (labels full) = Some (minuteKey tz timestamp) /\
  minuteKey tz timestamp ∉ labels chart.
Proof.
  intros Hts Hfull Hchart Hpos Hmany.
  pose proof (streamChartData_normal _ _ _ _ Hfull) as Hsignals.
  destruct (streamChartData_shown tz 0 _ Hsignals)
    as (buckets & Hrun & Hnd & _ & Hfull').
  destruct (streamChartData_shown tz maxPoints _ Hsignals)
    as (buckets' & Hrun' & _ & _ & Hchart').
  assert (buckets' = buckets) as -> by congruence. clear Hrun'.
  assert (Hlabels : labels full = buckets.*1).
  { rewrite Hfull' in Hfull. injection Hfull as <-. reflexivity. }
  assert (Hshown : labels chart = lastN maxPoints (buckets.*1)).
  { rewrite Hchart' in Hchart. injection Hchart as <-.
    cbn [labels]. rewrite <- sliceLast_fmap. unfold sliceLast.
    destruct (Nat.eqb_spec maxPoints 0); [lia|reflexivity]. }
  assert (Hhead : exists others, buckets.*1 = minuteKey tz timestamp :: others).
  { change (take 50 (signal :: rest)) with (signal :: take 49 rest) in *.
    apply Forall_cons in Hsignals as [Hsignal Hrest].
    rewrite groupByMinute_cons, Hsignal, Hts in Hrun.
    edestruct (groupByMinute_returns tz _ Hrest)
      as (buckets' & Hrun' & _ & [others Hpre] & _);
      [|rewrite Hrun in Hrun'; injection Hrun' as <-;
        exists others; exact Hpre].
    apply countAt_NoDup. constructor. }
  destruct Hhead as [others Hkeys].
  rewrite Hlabels in *. rewrite Hkeys in *. split; [exact Hshown|].
  split; [reflexivity|]. rewrite Hshown. unfold lastN. cbn [length] in *.
  replace (S (length others) - maxPoints)
    with (S (length others - maxPoints)) by lia.
  cbn [drop]. apply NoDup_cons in Hnd as [Hfresh _].
  intros Hin. apply Hfresh. eapply subseteq_drop, Hin.
Qed.

Lemma stream_chart_drops_newest_minute_witness :
  exists full chart,
    labels chart = lastN 2 (labels full) /\
    head (labels full)
    = Some (minuteKey utc (JStr "2024-01-01T12:02:10Z")) /\
    minuteKey utc (JStr "2024-01-01T12:02:10Z") ∉ labels chart.
Proof.
  eexists _, _.
  apply (stream_chart_drops_newest_minute utc 2
           (signalAt "2024-01-01T12:02:10Z" "BULLISH")
           (JStr "2024-01-01T12:02:10Z")
           (tail threeMinutes)).
  - reflexivity.
  - vm_compute. reflexivity.
  - vm_compute. reflexivity.
  - lia.
  - vm_compute. lia.
Defined.

(** X23. Which signal the confidence tooltip describes. The point at
    [dataIndex] plots the confidence of [signals[shown]], where [shown]
    counts back from the newest [maxPoints] signals, while the tooltip reads
    [signals[signals.length - 1 - dataIndex]], which lies
    [signals.length - maxPoints] places further down the buffer. So while
    the buffer holds at most [maxPoints] signals the tooltip names the token
    of the plotted signal, and once it holds more (distinct) signals the
    tooltip never names the plotted one. *)
Theorem confidence_tooltip_offset (maxPoints : nat) (signals : list JSValue)
    (dataIndex : nat) :
  dataIndex < length (recentSignals maxPoints signals) ->
  let shown := min maxPoints (length signals) - 1 - dataIndex in
  recentSignals maxPoints signals !! dataIndex = signals !! shown /\
  tooltipIndex signals dataIndex
  = Z.of_nat (shown + (length signals - maxPoints)) /\
  (length signals <= maxPoints ->
   forall s, signals !! shown = Some s -> truthy s = true ->
             tooltipSignal signals dataIndex = Some s) /\
  (maxPoints < length signals -> NoDup signals ->
   forall s, signals !! shown = Some s ->
             tooltipSignal signals dataIndex <> Some s).
Proof.
  intros Hi shown. unfold recentSignals in *.
  rewrite length_reverse, length_take in Hi.
  assert (Hindex : tooltipIndex signals dataIndex
                   = Z.of_nat (shown + (length signals - maxPoints))).
  { unfold tooltipIndex. subst shown. lia. }
  split; [|split; [exact Hindex|split]].
  - rewrite reverse_lookup by (rewrite length_take; lia).
    rewrite length_take. rewrite lookup_take_lt by lia.
    f_equal. subst shown. lia.
  - intros Hfew s Hs Htruthy. unfold tooltipSignal. rewrite Hindex.
    replace (shown + (length signals - maxPoints)) with shown by lia.
    destruct (Z.ltb_spec (Z.of_nat shown) 0) as [|_]; [lia|].
    rewrite Nat2Z.id, Hs. cbn [default from_option id]. now rewrite Htruthy.
  - intros Hmany Hnd s Hs. unfold tooltipSignal. rewrite Hindex.
    destruct (Z.ltb_spec
                (Z.of_nat (shown + (length signals - maxPoints))) 0) as [|_];
      [lia|].
    rewrite Nat2Z.id.
    destruct (signals !! (shown + (length signals - maxPoints)))
      as [s'|] eqn:Hs'; cbn [default from_option id]; [|discriminate].
    destruct (truthy s'); [|discriminate]. intros [= ->].
    pose proof (NoDup_lookup _ _ _ _ Hnd Hs Hs'). lia.
Qed.

Lemma confidence_tooltip_offset_witness :
  recentSignals 2 threeMinutes !! 0 = threeMinutes !! 1 /\
  tooltipIndex threeMinutes 0 = 3%Z /\
  tooltipSignal threeMinutes 0 <> threeMinutes !! 1.
Proof.
  destruct (confidence_tooltip_offset 2 threeMinutes 0)
    as (Hshown & Hindex & _ & Hwrong).
  - vm_compute. lia.
  - split; [exact Hshown|]. split; [exact Hindex|].
    apply Hwrong.
    + vm_compute. lia.
    + unfold threeMinutes, signalAt.
      repeat (apply NoDup_cons; split;
              [rewrite ?elem_of_cons, elem_of_nil; intros Hin;
               repeat (destruct Hin as [Hin|Hin]; [discriminate Hin|]);
               exact Hin|]).
      apply NoDup_nil_2.
    + reflexivity.
Defined.

Lemma mapC_getProp_throws (key : string) (x : JSValue) (l : list JSValue) :
  x ∈ l -> isNullish x = true ->
  mapC (fun s => getProp s key) l = Throw TypeError.
Proof.
  intros Hin Hx. induction l as [|y rest IH]; [now apply elem_of_nil in Hin|].
  cbn [mapC]. apply elem_of_cons in Hin as [<-|Hin].
  - now destruct x.
  - rewrite (IH Hin). now destruct y.
Qed.

(** X24. A [new_signal] message without [data] breaks both charts. The
    provider prepends the null or undefined payload to the signals buffer,
    and computing the charts' data from the buffer it leaves throws a
    [TypeError]: the stream chart on [signal.timestamp], the confidence chart
    (for a positive [maxPoints]) on [s.confidence_score]. [clearSignals]
    brings both back: the stream chart is empty and the confidence chart
    shows its placeholder. *)
Theorem signal_without_data_breaks_charts {unicode : CaseMapping}
    (m : Inbound) (data : JSValue)
    (w : World) (tz : LocalTime) (maxPoints : nat) :
  carries "new_signal" m data ->
  isNullish data = true ->
  let w' := settle w (handleMessage (fst m) (snd m) w) in
  streamChartData tz maxPoints (signals (state w')) = Throw TypeError /\
  (0 < maxPoints ->
   confidenceData maxPoints (signals (state w')) = Throw TypeError) /\
  streamChartData tz maxPoints (signals (state (clearSignals w')))
  = Normal {| labels := []; bullishData := []; bearishData := [];
              neutralData := [] |} /\
  confidenceData maxPoints (signals (state (clearSignals w')))
  = Normal (replicate 10 (JNum 0.5%float)).
Proof.
  intros Hcarries Hnull w'. subst w'.
  rewrite (handle_new_signal m data w Hcarries).
  assert (Hsignals :
            signals (state (invalidateQueries "signals"
                              (setSignals (fun prev => take MAX_SIGNALS
                                                         (data :: prev)) w)))
            = data :: take 99 (signals (state w))) by reflexivity.
  rewrite Hsignals. split; [|split; [|split]].
  - unfold streamChartData. cbn [take].
    rewrite groupByMinute_cons, Hnull. reflexivity.
  - intros Hpos. destruct maxPoints as [|n]; [lia|].
    unfold confidenceData, recentSignals. cbn [take]. rewrite reverse_cons.
    assert (Hthrows :
              mapC (fun s => getProp s "confidence_score")
                   (reverse (take n (take 99 (signals (state w)))) ++ [data])
              = Throw TypeError).
    { apply (mapC_getProp_throws _ data); [|exact Hnull].
      apply elem_of_app. right. left. }
    destruct (reverse (take n (take 99 (signals (state w)))) ++ [data])
      as [|first others] eqn:Hrecent; [|exact Hthrows].
    now apply app_nil in Hrecent as [_ Hnil].
  - unfold streamChartData. cbn. unfold sliceLast, lastN.
    now destruct (maxPoints =? 0)%nat.
  - unfold confidenceData, recentSignals. cbn. now rewrite take_nil.
Qed.

Lemma signal_without_data_breaks_charts_witness :
  let w' := settle openWorld
              (handleMessage (fun _ => "") (wellformed emptySignal) openWorld) in
  streamChartData utc 20 (signals (state w')) = Throw TypeError /\
  (0 < 20 -> confidenceData 20 (signals (state w')) = Throw TypeError) /\
  streamChartData utc 20 (signals (state (clearSignals w')))
  = Normal {| labels := []; bullishData := []; bearishData := [];
              neutralData := [] |} /\
  confidenceData 20 (signals (state (clearSignals w')))
  = Normal (replicate 10 (JNum 0.5%float)).
Proof.
  apply (signal_without_data_breaks_charts
           (fun _ => "", wellformed emptySignal) JUndefined openWorld utc 20).
  - exists emptySignal. split; [reflexivity|]. split; reflexivity.
  - reflexivity.
Defined.

(** ** The page links of a data table *)

Lemma seqZ_one (m : Z) : seqZ m 1 = [m].
Proof.
  repeat (rewrite seqZ_cons by lia). rewrite seqZ_nil by lia.
  repeat (apply (f_equal2 cons); [lia|]). reflexivity.
Qed.

Lemma seqZ_two (m : Z) : seqZ m 2 = [m; (m + 1)%Z].
Proof.
  repeat (rewrite seqZ_cons by lia). rewrite seqZ_nil by lia.
  repeat (apply (f_equal2 cons); [lia|]). reflexivity.
Qed.

Lemma seqZ_three (m : Z) : seqZ m 3 = [m; (m + 1)%Z; (m + 2)%Z].
Proof.
  repeat (rewrite seqZ_cons by lia). rewrite seqZ_nil by lia.
  repeat (apply (f_equal2 cons); [lia|]). reflexivity.
Qed.

Lemma seqZ_four (m : Z) : seqZ m 4 = [m; (m + 1)%Z; (m + 2)%Z; (m + 3)%Z].
Proof.
  repeat (rewrite seqZ_cons by lia). rewrite seqZ_nil by lia.
  repeat (apply (f_equal2 cons); [lia|]). reflexivity.
Qed.

Lemma seqZ_five (m : Z) :
  seqZ m 5 = [m; (m + 1)%Z; (m + 2)%Z; (m + 3)%Z; (m + 4)%Z].
Proof.
  repeat (rewrite seqZ_cons by lia). rewrite seqZ_nil by lia.
  repeat (apply (f_equal2 cons); [lia|]). reflexivity.
Qed.

Ltac settle_window :=
  repeat match goal with
  | |- context [Z.max ?a ?b] =>
      first [rewrite (Z.max_l a b) by lia | rewrite (Z.max_r a b) by lia]
  | |- context [Z.min ?a ?b] =>
      first [rewrite (Z.min_l a b) by lia | rewrite (Z.min_r a b) by lia]
  | |- context [seqZ ?m ?n] =>
      first [replace n with 1%Z by lia; rewrite (seqZ_one m)
            |replace n with 2%Z by lia; rewrite (seqZ_two m)
            |replace n with 3%Z by lia; rewrite (seqZ_three m)
            |replace n with 4%Z by lia; rewrite (seqZ_four m)
            |replace n with 5%Z by lia; rewrite (seqZ_five m)]
  end.

Ltac settle_tests :=
  repeat match goal with
  | |- context [(?a =? ?b)%Z] =>
      replace (a =? b)%Z with true by (symmetry; apply Z.eqb_eq; lia)
  | |- context [(?a <? ?b)%Z] =>
      first [replace (a <? b)%Z with true by (symmetry; apply Z.ltb_lt; lia)
            |replace (a <? b)%Z with false by (symmetry; apply Z.ltb_ge; lia)]
  end.

Ltac find_page :=
  rewrite ?elem_of_cons, ?elem_of_nil;
  repeat first [solve [left; f_equal; lia] | right].

Ltac check_links page :=
  settle_window; settle_tests; cbn [app fmap list_fmap];
  split; [reflexivity|];
  split; [reflexivity|];
  split; [cbn [gapsMarked andb]; settle_tests; reflexivity|];
  split; [intros q Hq1 Hq2;
          assert (Hq : (q = page - 1 \/ q = page \/ q = page + 1)%Z) by lia;
          destruct Hq as [-> | [-> | ->]]; try (exfalso; lia); find_page|];
  split; [find_page|];
  split; [find_page|];
  cbn [length]; lia.

(** X25. The page links of a data table. For [page] among at least two
    [totalPages], the row of links starts with page 1 and ends with the last
    page; neighbouring numbers are consecutive and an ellipsis stands exactly
    where pages are left out (so the numbers increase and no page is shown
    twice); the current page and its neighbours are always among the links,
    and so are the targets of Previous and Next, which stay within
    [1 .. totalPages]; and there are never more than seven items. *)
Theorem page_links_window (page totalPages : Z) :
  (2 <= totalPages)%Z ->
  (1 <= page <= totalPages)%Z ->
  let items := getPageNumbers page totalPages in
  head items = Some (pageNo 1) /\
  last items = Some (pageNo totalPages) /\
  gapsMarked items = true /\
  (forall q, (1 <= q <= totalPages)%Z -> (page - 1 <= q <= page + 1)%Z ->
             pageNo q ∈ items) /\
  pageNo (previousPage page) ∈ items /\
  pageNo (nextPage page totalPages) ∈ items /\
  length items <= 7.
Proof.
  intros Htotal Hpage items. subst items.
  unfold getPageNumbers, previousPage, nextPage.
  destruct (Z.leb_spec totalPages 5) as [Hsmall|Hlarge].
  - assert (Hn : (totalPages = 2 \/ totalPages = 3 \/ totalPages = 4
                  \/ totalPages = 5)%Z) by lia.
    destruct Hn as [-> | [-> | [-> | ->]]];
      (assert (Hp : (page = 1 \/ page = 2 \/ page = 3 \/ page = 4
                     \/ page = 5)%Z) by lia;
       destruct Hp as [Hp | [Hp | [Hp | [Hp | Hp]]]];
       try (exfalso; lia); check_links page).
  - assert (Hp : (page = 1 \/ page = 2 \/ page = 3
                  \/ 4 <= page <= totalPages - 3
                  \/ page = totalPages - 2 \/ page = totalPages - 1
                  \/ page = totalPages)%Z) by lia.
    destruct Hp as [Hp | [Hp | [Hp | [Hp | [Hp | [Hp | Hp]]]]]];
      check_links page.
Qed.

Lemma page_links_window_witness :
  getPageNumbers 5 12
  = [pageNo 1; ellipsis; pageNo 4; pageNo 5; pageNo 6; ellipsis; pageNo 12]
  /\ gapsMarked (getPageNumbers 5 12) = true
  /\ length (getPageNumbers 5 12) <= 7.
Proof.
  split; [vm_compute; reflexivity|].
  destruct (page_links_window 5 12) as (_ & _ & Hgaps & _ & _ & _ & Hlength);
    [lia|lia|].
  split; [exact Hgaps|exact Hlength].
Defined.

(** ** Live prices on the tracked-token card *)




